(** * Astron: the simulation and collision core of [Scripts/game.js]

    A shallow embedding of the game script and the properties of its
    specification.

    Number model.  JavaScript numbers that carry coordinates, velocities,
    radii and angles are embedded as rationals ([Q]) and the arithmetic
    of the script on them as exact arithmetic.  Where rounding decides
    the outcome of a property it is modelled: [Math.hypot] is a function
    of the host, so that the collision tests compare whatever it returns
    (the host [ieee] computes it in binary64), and the decay of the
    velocity under friction is stated on [friction_binary64], the
    binary64 multiplication by [FRICTION].  The integer counters
    ([lives], [score], [bestScore], the countdown) are embedded as [Z].

    Host model.  The globals the script reads from its environment
    ([canvas.width], [canvas.height], [Math.cos], [Math.sin],
    [Math.hypot], [Math.PI] and the successive results of
    [Math.random()]) are collected in a [Host] record: the behaviour of
    the script is stated for whatever these functions return.  Drawing
    calls ([draw], [drawUI], the styling of the game-over element) do
    not touch the simulation state and are left out. *)

From Stdlib Require Import ZArith QArith Qround Qabs Qpower List Bool Lia Psatz
  Reals Qreals.
From Stdlib Require PrimFloat FloatOps SpecFloat FloatAxioms Uint63.
Import ListNotations.

Open Scope Q_scope.

(** ** Host environment *)

Record Host := mkHost {
  canvas_width  : Q;
  canvas_height : Q;
  Math_cos      : Q -> Q;
  Math_sin      : Q -> Q;
  Math_hypot    : Q -> Q -> Q;
  Math_PI       : Q;
  (** [Math_random n] is the value returned by the [n]-th call of
      [Math.random()] since the page was loaded. *)
  Math_random   : nat -> Q
}.

(** ** Numbers *)

(** Strict comparison [x < y] as a boolean. *)
Definition Qltb (x y : Q) : bool := negb (Qle_bool y x).

(** ** Game state constants *)

Definition FRICTION : Q := 0.99.
Definition SHIP_ROTATION_SPEED : Q := 0.1.
Definition SHIP_THRUST : Q := 0.1.
Definition PROJECTILE_SPEED : Q := 5.
Definition ASTEROID_SPAWN_RATE : Z := 4000.

(** ** Arrays *)

(** [arr.splice(i, 1)]: delete the element at index [i]. *)
Definition splice1 {A} (i : nat) (l : list A) : list A :=
  firstn i l ++ skipn (S i) l.

(** [arr[i] = v] for an index inside the array. *)
Definition assign {A} (i : nat) (v : A) (l : list A) : list A :=
  firstn i l ++ v :: skipn (S i) l.

(** ** Entities *)

Module Vec.
(** [{ x, y }] *)
Record t := mk { x : Q; y : Q }.
End Vec.

Module Player.
Record t := mk {
  position    : Vec.t;
  velocity    : Vec.t;
  rotation    : Q;
  lives       : Z;
  score       : Z;
  bestScore   : Z;
  isThrusting : bool
}.

(** [constructor()] *)
Definition new (h : Host) : t :=
  {| position := Vec.mk (canvas_width h / 2) (canvas_height h / 2);
     velocity := Vec.mk 0 0;
     rotation := 0;
     lives := 3;
     score := 0;
     bestScore := 0;
     isThrusting := false |}.

(** [update()]: integrate, wrap on each axis, apply friction. *)
Definition update (h : Host) (p : t) : t :=
  let px := Vec.x (position p) + Vec.x (velocity p) in
  let py := Vec.y (position p) + Vec.y (velocity p) in
  let px := if Qltb (canvas_width h) px then 0 else px in
  let px := if Qltb px 0 then canvas_width h else px in
  let py := if Qltb (canvas_height h) py then 0 else py in
  let py := if Qltb py 0 then canvas_height h else py in
  {| position := Vec.mk px py;
     velocity := Vec.mk (Vec.x (velocity p) * FRICTION)
                        (Vec.y (velocity p) * FRICTION);
     rotation := rotation p;
     lives := lives p;
     score := score p;
     bestScore := bestScore p;
     isThrusting := isThrusting p |}.

Definition with_position (v : Vec.t) (p : t) : t :=
  mk v (velocity p) (rotation p) (lives p) (score p) (bestScore p)
     (isThrusting p).
Definition with_velocity (v : Vec.t) (p : t) : t :=
  mk (position p) v (rotation p) (lives p) (score p) (bestScore p)
     (isThrusting p).
Definition with_rotation (r : Q) (p : t) : t :=
  mk (position p) (velocity p) r (lives p) (score p) (bestScore p)
     (isThrusting p).
Definition with_lives (n : Z) (p : t) : t :=
  mk (position p) (velocity p) (rotation p) n (score p) (bestScore p)
     (isThrusting p).
Definition with_score (n : Z) (p : t) : t :=
  mk (position p) (velocity p) (rotation p) (lives p) n (bestScore p)
     (isThrusting p).
Definition with_isThrusting (b : bool) (p : t) : t :=
  mk (position p) (velocity p) (rotation p) (lives p) (score p)
     (bestScore p) b.
End Player.

Module Projectile.
Record t := mk {
  position : Vec.t;
  velocity : Vec.t;
  radius   : Q
}.

(** [constructor(position, rotation)] *)
Definition new (h : Host) (pos : Vec.t) (rot : Q) : t :=
  {| position := Vec.mk (Vec.x pos) (Vec.y pos);
     velocity := Vec.mk (Math_cos h rot * PROJECTILE_SPEED)
                        (Math_sin h rot * PROJECTILE_SPEED);
     radius := 3 |}.

Definition update (p : t) : t :=
  {| position := Vec.mk (Vec.x (position p) + Vec.x (velocity p))
                        (Vec.y (position p) + Vec.y (velocity p));
     velocity := velocity p;
     radius := radius p |}.
End Projectile.

Module Asteroid.
Record t := mk {
  position : Vec.t;
  radius   : Q;
  sides    : Z;
  velocity : Vec.t;
  offsets  : list Q
}.

(** [constructor(position, radius)], run when [n] calls of
    [Math.random()] have been made; returns the asteroid and the new
    number of calls.  [Array.from({ length }, f)] builds [length]
    elements, none when [length] is not positive. *)
Definition new (h : Host) (n : nat) (pos : Vec.t) (r : Q) : t * nat :=
  let sd := (Qfloor (Math_random h n * 6) + 5)%Z in
  let vx := Math_random h (n + 1) - 0.5 in
  let vy := Math_random h (n + 2) - 0.5 in
  let k := Z.to_nat sd in
  let offs := map (fun i => Math_random h (n + 3 + i) * 10 - 5) (seq 0 k) in
  ({| position := pos;
      radius := r;
      sides := sd;
      velocity := Vec.mk vx vy;
      offsets := offs |},
   (n + 3 + k)%nat).

Definition with_velocity (v : Vec.t) (a : t) : t :=
  mk (position a) (radius a) (sides a) v (offsets a).

(** [update()]: integrate, then wrap on each axis. *)
Definition update (h : Host) (a : t) : t :=
  let px := Vec.x (position a) + Vec.x (velocity a) in
  let py := Vec.y (position a) + Vec.y (velocity a) in
  let px := if Qltb (canvas_width h) px then 0 else px in
  let px := if Qltb px 0 then canvas_width h else px in
  let py := if Qltb (canvas_height h) py then 0 else py in
  let py := if Qltb py 0 then canvas_height h else py in
  {| position := Vec.mk px py;
     radius := radius a;
     sides := sides a;
     velocity := velocity a;
     offsets := offsets a |}.
End Asteroid.

Module Particle.
Record t := mk {
  position : Vec.t;
  velocity : Vec.t;
  radius   : Q;
  alpha    : Q
}.

(** [constructor(position, velocity)], run when [n] calls of
    [Math.random()] have been made. *)
Definition new (h : Host) (n : nat) (pos : Vec.t) (vel : Vec.t) : t * nat :=
  ({| position := Vec.mk (Vec.x pos) (Vec.y pos);
      velocity := vel;
      radius := Math_random h n * 2 + 1;
      alpha := 1 |},
   S n).

Definition update (p : t) : t :=
  {| position := Vec.mk (Vec.x (position p) + Vec.x (velocity p))
                        (Vec.y (position p) + Vec.y (velocity p));
     velocity := velocity p;
     radius := radius p;
     alpha := alpha p - 0.01 |}.
End Particle.

(** ** Global game state *)

Record Keys := mkKeys { key_w : bool; key_a : bool; key_d : bool }.

(** The script's globals, followed by the part of the browser the script
    drives: the number of [Math.random()] calls made so far, the number of
    [gameOverDiv] elements in the document, the countdown intervals in
    creation order ([Some c]: live with counter [c]; [None]: cleared), and
    the number of [requestAnimationFrame] callbacks not yet run. *)
Record State := mkState {
  isGameOver    : bool;
  level         : Z;
  keys          : Keys;
  projectiles   : list Projectile.t;
  asteroids     : list Asteroid.t;
  particles     : list Particle.t;
  player        : Player.t;
  randomCalls   : nat;
  gameOverDivs  : nat;
  countdowns    : list (option Z);
  pendingFrames : nat
}.

Definition with_isGameOver (v : bool) (s : State) : State :=
  mkState v (level s) (keys s) (projectiles s) (asteroids s) (particles s)
          (player s) (randomCalls s) (gameOverDivs s) (countdowns s)
          (pendingFrames s).
Definition with_keys (v : Keys) (s : State) : State :=
  mkState (isGameOver s) (level s) v (projectiles s) (asteroids s)
          (particles s) (player s) (randomCalls s) (gameOverDivs s)
          (countdowns s) (pendingFrames s).
Definition with_projectiles (v : list Projectile.t) (s : State) : State :=
  mkState (isGameOver s) (level s) (keys s) v (asteroids s) (particles s)
          (player s) (randomCalls s) (gameOverDivs s) (countdowns s)
          (pendingFrames s).
Definition with_asteroids (v : list Asteroid.t) (s : State) : State :=
  mkState (isGameOver s) (level s) (keys s) (projectiles s) v (particles s)
          (player s) (randomCalls s) (gameOverDivs s) (countdowns s)
          (pendingFrames s).
Definition with_particles (v : list Particle.t) (s : State) : State :=
  mkState (isGameOver s) (level s) (keys s) (projectiles s) (asteroids s) v
          (player s) (randomCalls s) (gameOverDivs s) (countdowns s)
          (pendingFrames s).
Definition with_player (v : Player.t) (s : State) : State :=
  mkState (isGameOver s) (level s) (keys s) (projectiles s) (asteroids s)
          (particles s) v (randomCalls s) (gameOverDivs s) (countdowns s)
          (pendingFrames s).
Definition with_randomCalls (v : nat) (s : State) : State :=
  mkState (isGameOver s) (level s) (keys s) (projectiles s) (asteroids s)
          (particles s) (player s) v (gameOverDivs s) (countdowns s)
          (pendingFrames s).
Definition with_gameOverDivs (v : nat) (s : State) : State :=
  mkState (isGameOver s) (level s) (keys s) (projectiles s) (asteroids s)
          (particles s) (player s) (randomCalls s) v (countdowns s)
          (pendingFrames s).
Definition with_countdowns (v : list (option Z)) (s : State) : State :=
  mkState (isGameOver s) (level s) (keys s) (projectiles s) (asteroids s)
          (particles s) (player s) (randomCalls s) (gameOverDivs s) v
          (pendingFrames s).
Definition with_pendingFrames (v : nat) (s : State) : State :=
  mkState (isGameOver s) (level s) (keys s) (projectiles s) (asteroids s)
          (particles s) (player s) (randomCalls s) (gameOverDivs s)
          (countdowns s) v.

(** A handler either finishes in a new state or dies on an uncaught
    [TypeError] (reading a property of [undefined]): [None]. *)
Notation "x <- e ;; k" :=
  (match e with Some x => k | None => None end)
  (at level 61, e at next level, right associativity).

(** ** Spawner *)

Definition spawnAsteroid (h : Host) (s : State) : State :=
  let n := randomCalls s in
  let edge := Qfloor (Math_random h n * 4) in
  let r := Math_random h (S n) in
  let '(x, y) :=
    if (edge =? 0)%Z then (r * canvas_width h, -40)
    else if (edge =? 1)%Z then (canvas_width h + 40, r * canvas_height h)
    else if (edge =? 2)%Z then (r * canvas_width h, canvas_height h + 40)
    else (-40, r * canvas_height h) in
  let velocityX := (canvas_width h / 2 - x) * 0.002 in
  let velocityY := (canvas_height h / 2 - y) * 0.002 in
  let '(asteroid, n') := Asteroid.new h (S (S n)) (Vec.mk x y) 40 in
  let asteroid := Asteroid.with_velocity (Vec.mk velocityX velocityY) asteroid in
  with_asteroids (asteroids s ++ [asteroid]) (with_randomCalls n' s).

(** The callback of the spawn interval. *)
Definition spawnTick (h : Host) (s : State) : State :=
  if negb (isGameOver s) then spawnAsteroid h s else s.

(** ** Explosions and the game-over element *)

Fixpoint createExplosion (h : Host) (position : Vec.t) (count : nat)
                         (s : State) : State :=
  match count with
  | O => s
  | S count' =>
      let n := randomCalls s in
      let angle := Math_random h n * Math_PI h * 2 in
      let speed := Math_random h (S n) * 2 in
      let velocity := Vec.mk (Math_cos h angle * speed)
                             (Math_sin h angle * speed) in
      let '(p, n') := Particle.new h (S (S n)) position velocity in
      createExplosion h position count'
        (with_particles (particles s ++ [p]) (with_randomCalls n' s))
  end.

Definition startCountdown (s : State) : State :=
  with_countdowns (countdowns s ++ [Some 3%Z]) s.

Definition showGameOverUI (s : State) : State :=
  startCountdown (with_gameOverDivs (S (gameOverDivs s)) s).

(** ** Collision detection *)

(** Body of the player-asteroid test when it succeeds, at index [i]. *)
Definition playerHit (h : Host) (i : nat) (s : State) : State :=
  let s := with_player
             (Player.with_lives (Player.lives (player s) - 1)%Z (player s)) s in
  let s :=
    if (Player.lives (player s) <=? 0)%Z then
      let s := with_isGameOver true s in
      let s := with_player (Player.with_lives 0%Z (player s)) s in
      showGameOverUI s
    else s in
  let s := createExplosion h (Player.position (player s)) 20 s in
  with_asteroids (splice1 i (asteroids s)) s.

(** [for (let i = k - 1; i >= 0; i--)] of the first pass. *)
Fixpoint playerLoop (h : Host) (k : nat) (s : State) : option State :=
  match k with
  | O => Some s
  | S i =>
      match nth_error (asteroids s) i with
      | None => None
      | Some asteroid =>
          let s :=
            let dist :=
              Math_hypot h
                (Vec.x (Player.position (player s))
                 - Vec.x (Asteroid.position asteroid))
                (Vec.y (Player.position (player s))
                 - Vec.y (Asteroid.position asteroid)) in
            if Qltb dist (Asteroid.radius asteroid + 15)
            then playerHit h i s
            else s in
          playerLoop h i s
      end
  end.

(** Body of the projectile-asteroid test when it succeeds. *)
Definition projectileHit (h : Host) (pIndex aIndex : nat)
    (projectile : Projectile.t) (asteroid : Asteroid.t) (s : State) : State :=
  let s := with_projectiles (splice1 pIndex (projectiles s)) s in
  let s := with_player
             (Player.with_score (Player.score (player s) + 10)%Z (player s)) s in
  let s :=
    if Qltb 15 (Asteroid.radius asteroid) then
      let '(c1, n1) :=
        Asteroid.new h (randomCalls s)
          (Vec.mk (Vec.x (Asteroid.position asteroid))
                  (Vec.y (Asteroid.position asteroid)))
          (Asteroid.radius asteroid / 2) in
      let s := with_asteroids (asteroids s ++ [c1]) (with_randomCalls n1 s) in
      let '(c2, n2) :=
        Asteroid.new h (randomCalls s)
          (Vec.mk (Vec.x (Asteroid.position asteroid))
                  (Vec.y (Asteroid.position asteroid)))
          (Asteroid.radius asteroid / 2) in
      with_asteroids (asteroids s ++ [c2]) (with_randomCalls n2 s)
    else s in
  let s := createExplosion h (Projectile.position projectile) 10 s in
  with_asteroids (splice1 aIndex (asteroids s)) s.

(** The inner loop, [for (let aIndex = k - 1; aIndex >= 0; aIndex--)];
    [projectile] is [projectiles[pIndex]], [undefined] when out of range. *)
Fixpoint asteroidLoop (h : Host) (pIndex : nat)
    (projectile : option Projectile.t) (k : nat) (s : State) : option State :=
  match k with
  | O => Some s
  | S aIndex =>
      match projectile, nth_error (asteroids s) aIndex with
      | Some p, Some asteroid =>
          let dist :=
            Math_hypot h
              (Vec.x (Projectile.position p)
               - Vec.x (Asteroid.position asteroid))
              (Vec.y (Projectile.position p)
               - Vec.y (Asteroid.position asteroid)) in
          if Qltb dist (Asteroid.radius asteroid)
          then Some (projectileHit h pIndex aIndex p asteroid s)
          else asteroidLoop h pIndex projectile aIndex s
      | _, _ => None
      end
  end.

(** The outer loop, [for (let pIndex = k - 1; pIndex >= 0; pIndex--)]. *)
Fixpoint projectileLoop (h : Host) (k : nat) (s : State) : option State :=
  match k with
  | O => Some s
  | S pIndex =>
      s' <- asteroidLoop h pIndex (nth_error (projectiles s) pIndex)
              (length (asteroids s)) s ;;
      projectileLoop h pIndex s'
  end.

Definition checkCollisions (h : Host) (s : State) : option State :=
  s1 <- playerLoop h (length (asteroids s)) s ;;
  projectileLoop h (length (projectiles s1)) s1.

(** ** Animation loop *)

(** [for (let i = k - 1; i >= 0; i--)] over the particles. *)
Fixpoint particleLoop (k : nat) (s : State) : option State :=
  match k with
  | O => Some s
  | S i =>
      match nth_error (particles s) i with
      | None => None
      | Some particle =>
          let s :=
            if Qle_bool (Particle.alpha particle) 0
            then with_particles (splice1 i (particles s)) s
            else with_particles
                   (assign i (Particle.update particle) (particles s)) s in
          particleLoop i s
      end
  end.

Definition animate (h : Host) (s : State) : option State :=
  if negb (isGameOver s) then
    let s := with_pendingFrames (S (pendingFrames s)) s in
    let s := with_player (Player.update h (player s)) s in
    let s := with_projectiles (map Projectile.update (projectiles s)) s in
    let s := with_asteroids (map (Asteroid.update h) (asteroids s)) s in
    s <- particleLoop (length (particles s)) s ;;
    checkCollisions h s
  else Some s.

(** ** Countdown and restart *)

Definition restartGame (h : Host) (s : State) : option State :=
  let s := with_gameOverDivs (pred (gameOverDivs s)) s in
  let s := with_isGameOver false s in
  let s := with_player (Player.with_lives 3%Z (player s)) s in
  let s := with_player (Player.with_score 0%Z (player s)) s in
  let s := with_asteroids [] s in
  let s := with_projectiles [] s in
  let s := with_particles [] s in
  let s := with_player
             (Player.with_position
                (Vec.mk (canvas_width h / 2) (canvas_height h / 2))
                (player s)) s in
  let s := with_player (Player.with_velocity (Vec.mk 0 0) (player s)) s in
  animate h s.

(** One firing of the countdown interval [id].  A cleared interval does
    not fire. *)
Definition countdownTick (h : Host) (id : nat) (s : State) : option State :=
  match nth_error (countdowns s) id with
  | Some (Some countdown) =>
      let countdown := (countdown - 1)%Z in
      let s := with_countdowns
                 (assign id (Some countdown) (countdowns s)) s in
      if (countdown =? 0)%Z then
        restartGame h (with_countdowns (assign id None (countdowns s)) s)
      else Some s
  | _ => Some s
  end.

(** ** Input and the fixed-step movement loop *)

Inductive KeyCode := KeyW | KeyA | KeyD | Space | OtherKey.

Definition keydown (h : Host) (code : KeyCode) (s : State) : State :=
  match code with
  | KeyW =>
      let s := with_keys (mkKeys true (key_a (keys s)) (key_d (keys s))) s in
      with_player (Player.with_isThrusting true (player s)) s
  | KeyA => with_keys (mkKeys (key_w (keys s)) true (key_d (keys s))) s
  | KeyD => with_keys (mkKeys (key_w (keys s)) (key_a (keys s)) true) s
  | Space =>
      with_projectiles
        (projectiles s
         ++ [Projectile.new h (Player.position (player s))
                              (Player.rotation (player s))]) s
  | OtherKey => s
  end.

Definition keyup (code : KeyCode) (s : State) : State :=
  match code with
  | KeyW =>
      let s := with_keys (mkKeys false (key_a (keys s)) (key_d (keys s))) s in
      with_player (Player.with_isThrusting false (player s)) s
  | KeyA => with_keys (mkKeys (key_w (keys s)) false (key_d (keys s))) s
  | KeyD => with_keys (mkKeys (key_w (keys s)) (key_a (keys s)) false) s
  | _ => s
  end.

(** The callback of the 16 ms interval. *)
Definition movementTick (h : Host) (s : State) : State :=
  let s :=
    if key_w (keys s) then
      let p := player s in
      with_player
        (Player.with_velocity
           (Vec.mk (Vec.x (Player.velocity p)
                    + Math_cos h (Player.rotation p) * SHIP_THRUST)
                   (Vec.y (Player.velocity p)
                    + Math_sin h (Player.rotation p) * SHIP_THRUST))
           p) s
    else s in
  let s :=
    if key_a (keys s) then
      with_player
        (Player.with_rotation
           (Player.rotation (player s) - SHIP_ROTATION_SPEED) (player s)) s
    else s in
  if key_d (keys s) then
    with_player
      (Player.with_rotation
         (Player.rotation (player s) + SHIP_ROTATION_SPEED) (player s)) s
  else s.

(** ** The event loop *)

Inductive Event :=
| EKeyDown (code : KeyCode)
| EKeyUp (code : KeyCode)
| EMovement
| ESpawn
| EFrame
| ECountdown (id : nat).

(** An animation frame needs a pending callback; a countdown firing needs
    a live interval.  Everything else can happen at any time. *)
Definition enabled (e : Event) (s : State) : bool :=
  match e with
  | EFrame => negb (pendingFrames s =? 0)%nat
  | ECountdown id =>
      match nth_error (countdowns s) id with
      | Some (Some _) => true
      | _ => false
      end
  | _ => true
  end.

Definition handle (h : Host) (e : Event) (s : State) : option State :=
  match e with
  | EKeyDown code => Some (keydown h code s)
  | EKeyUp code => Some (keyup code s)
  | EMovement => Some (movementTick h s)
  | ESpawn => Some (spawnTick h s)
  | EFrame => animate h (with_pendingFrames (pred (pendingFrames s)) s)
  | ECountdown id => countdownTick h id s
  end.

(** The state once the declarations of the script have run, before its
    first call of [animate()]. *)
Definition loaded (h : Host) : State :=
  {| isGameOver := false;
     level := 1;
     keys := mkKeys false false false;
     projectiles := [];
     asteroids := [];
     particles := [];
     player := Player.new h;
     randomCalls := 0;
     gameOverDivs := 0;
     countdowns := [];
     pendingFrames := 0 |}.

(** The script run to its end. *)
Definition boot (h : Host) : option State := animate h (loaded h).

Fixpoint run (h : Host) (evs : list Event) (s : State) : option State :=
  match evs with
  | [] => Some s
  | e :: evs' =>
      if enabled e s then s' <- handle h e s ;; run h evs' s' else None
  end.

Inductive reachable (h : Host) : State -> Prop :=
| reach_boot : forall s, boot h = Some s -> reachable h s
| reach_step : forall s e s',
    reachable h s -> enabled e s = true -> handle h e s = Some s' ->
    reachable h s'.

(** ** Vocabulary of the specification *)

(** A point of the closed rectangle [[0, width] x [0, height]]. *)
Definition in_canvas (h : Host) (v : Vec.t) : Prop :=
  (0 <= Vec.x v <= canvas_width h) /\ (0 <= Vec.y v <= canvas_height h).

(** A point of the half-open rectangle [[0, width) x [0, height)]. *)
Definition in_half_open (h : Host) (v : Vec.t) : Prop :=
  (0 <= Vec.x v < canvas_width h) /\ (0 <= Vec.y v < canvas_height h).

(** [c'] is the coordinate [c] after the two wrapping tests against
    [limit]. *)
Definition wraps (limit c c' : Q) : Prop :=
  (limit < c -> c' = 0) /\
  (c < 0 -> c' = limit) /\
  (0 <= c <= limit -> c' = c).

(** The coordinate [c] lies in the canvas, no further than one step of
    velocity [v] from one of the two edges [0] and [limit]. *)
Definition within_one_step (limit c v : Q) : Prop :=
  0 <= c < limit /\ (c <= Qabs v \/ limit - c <= Qabs v).

(** Euclidean norm of a vector, over the reals. *)
Definition speed (v : Vec.t) : R :=
  sqrt (Q2R (Vec.x v) * Q2R (Vec.x v) + Q2R (Vec.y v) * Q2R (Vec.y v)).

(** Euclidean distance between two points, over the reals. *)
Definition distance (p q : Vec.t) : R :=
  sqrt (Q2R (Vec.x p - Vec.x q) * Q2R (Vec.x p - Vec.x q)
        + Q2R (Vec.y p - Vec.y q) * Q2R (Vec.y p - Vec.y q)).

(** [N] consecutive render ticks of the player with no thrust in between. *)
Definition coast (h : Host) (N : nat) (p : Player.t) : Player.t :=
  Nat.iter N (Player.update h) p.

(** [Math.hypot(dx, dy) < r] when the norm is exact: decided on
    squares. *)
Definition hypot_lt (dx dy r : Q) : bool :=
  Qltb 0 r && Qltb (dx * dx + dy * dy) (r * r).

(** The [Math.hypot] of the sample hosts: the Euclidean norm rounded
    down to a multiple of [1 / (d * 2^64)], [d] being the denominator of
    the sum of the squares. *)
Definition hypotDown (dx dy : Q) : Q :=
  let q := dx * dx + dy * dy in
  Z.sqrt (Qnum q * Zpos (Qden q) * 2 ^ 128) # (Qden q * 2 ^ 64).

(** A desktop-sized canvas.  [Math.random()] always returns one half,
    which selects the bottom edge ([floor (0.5 * 4) = 2]); the
    trigonometric functions are stand-ins. *)
Definition desktop : Host :=
  mkHost 800 600 (fun _ => 1) (fun _ => 0) hypotDown (355 # 113)
         (fun _ => 0.5).

(** The collision tests of the two passes, as predicates on a pair. *)
Definition hitsPlayer (h : Host) (pos : Vec.t) (a : Asteroid.t) : bool :=
  Qltb (Math_hypot h (Vec.x pos - Vec.x (Asteroid.position a))
                     (Vec.y pos - Vec.y (Asteroid.position a)))
       (Asteroid.radius a + 15).

Definition hitsProjectile (h : Host) (p : Projectile.t) (a : Asteroid.t)
  : bool :=
  Qltb (Math_hypot h
          (Vec.x (Projectile.position p) - Vec.x (Asteroid.position a))
          (Vec.y (Projectile.position p) - Vec.y (Asteroid.position a)))
       (Asteroid.radius a).

(** The particles pushed by [createExplosion(position, count)] when [n]
    calls of [Math.random()] have been made. *)
Fixpoint explosionParticles (h : Host) (position : Vec.t) (count n : nat)
  : list Particle.t :=
  match count with
  | O => []
  | S count' =>
      let angle := Math_random h n * Math_PI h * 2 in
      let speed := Math_random h (S n) * 2 in
      let velocity := Vec.mk (Math_cos h angle * speed)
                             (Math_sin h angle * speed) in
      fst (Particle.new h (S (S n)) position velocity)
        :: explosionParticles h position count' (3 + n)
  end.

(** Lives left after [n] collisions with the player. *)
Definition livesAfter (lives : Z) (n : nat) : Z :=
  match n with
  | O => lives
  | S _ => Z.max 0 (lives - Z.of_nat n)
  end.

(** Number of collisions, out of [n], that find the lives at or below 0
    after their decrement. *)
Definition gameOversAfter (lives : Z) (n : nat) : nat :=
  Z.to_nat (Z.min (Z.of_nat n) (Z.of_nat n - lives + 1)).

(** The state left by the first pass of [checkCollisions] when [n]
    asteroids hit the player: [kept] are the asteroids that remain and
    [ps] the particles of the [n] explosions. *)
Definition playerPassResult (s : State) (kept : list Asteroid.t) (n : nat)
    (ps : list Particle.t) : State :=
  let t := gameOversAfter (Player.lives (player s)) n in
  {| isGameOver := isGameOver s || negb (t =? 0)%nat;
     level := level s;
     keys := keys s;
     projectiles := projectiles s;
     asteroids := kept;
     particles := particles s ++ ps;
     player := Player.with_lives (livesAfter (Player.lives (player s)) n)
                                 (player s);
     randomCalls := 60 * n + randomCalls s;
     gameOverDivs := t + gameOverDivs s;
     countdowns := countdowns s ++ repeat (Some 3%Z) t;
     pendingFrames := pendingFrames s |}.

(** The children pushed when the asteroid [a] is shot, with the number of
    [Math.random()] calls after their construction. *)
Definition splitChildren (h : Host) (a : Asteroid.t) (n : nat)
  : list Asteroid.t * nat :=
  if Qltb 15 (Asteroid.radius a) then
    let '(c1, n1) :=
      Asteroid.new h n
        (Vec.mk (Vec.x (Asteroid.position a)) (Vec.y (Asteroid.position a)))
        (Asteroid.radius a / 2) in
    let '(c2, n2) :=
      Asteroid.new h n1
        (Vec.mk (Vec.x (Asteroid.position a)) (Vec.y (Asteroid.position a)))
        (Asteroid.radius a / 2) in
    ([c1; c2], n2)
  else ([], n).

(** The state left by the body of the projectile-asteroid test. *)
Definition projectileHitResult (h : Host) (pIndex aIndex : nat)
    (p : Projectile.t) (a : Asteroid.t) (s : State) : State :=
  let '(children, n) := splitChildren h a (randomCalls s) in
  {| isGameOver := isGameOver s;
     level := level s;
     keys := keys s;
     projectiles := splice1 pIndex (projectiles s);
     asteroids := splice1 aIndex (asteroids s ++ children);
     particles :=
       particles s ++ explosionParticles h (Projectile.position p) 10 n;
     player := Player.with_score (Player.score (player s) + 10)%Z (player s);
     randomCalls := 30 + n;
     gameOverDivs := gameOverDivs s;
     countdowns := countdowns s;
     pendingFrames := pendingFrames s |}.

(** [s'] differs from [s] by [m] projectile hits: [m] projectiles are
    gone and the score is [10 * m] higher, nothing else of the player or
    of the game-over machinery has changed. *)
Definition scored (s : State) (m : nat) (s' : State) : Prop :=
  player s'
    = Player.with_score (Player.score (player s) + 10 * Z.of_nat m)%Z
                        (player s) /\
  isGameOver s' = isGameOver s /\
  level s' = level s /\
  keys s' = keys s /\
  gameOverDivs s' = gameOverDivs s /\
  countdowns s' = countdowns s /\
  pendingFrames s' = pendingFrames s /\
  (length (projectiles s') + m = length (projectiles s))%nat.

(** What one handler other than a countdown firing can do to the lives,
    the score and the game-over machinery: [n] hits on the player and
    [m] hits by projectiles. *)
Definition frame_rel (s s' : State) (m n : nat) : Prop :=
  let t := gameOversAfter (Player.lives (player s)) n in
  Player.score (player s')
    = (Player.score (player s) + 10 * Z.of_nat m)%Z /\
  Player.lives (player s') = livesAfter (Player.lives (player s)) n /\
  Player.bestScore (player s') = Player.bestScore (player s) /\
  countdowns s' = countdowns s ++ repeat (Some 3%Z) t /\
  gameOverDivs s' = (t + gameOverDivs s)%nat /\
  isGameOver s' = isGameOver s || negb (t =? 0)%nat.

(** The state right after [restartGame()], its call of [animate()]
    included. *)
Definition restarted (h : Host) (s : State) : State :=
  {| isGameOver := false;
     level := level s;
     keys := keys s;
     projectiles := [];
     asteroids := [];
     particles := [];
     player :=
       Player.update h
         (Player.mk (Vec.mk (canvas_width h / 2) (canvas_height h / 2))
                    (Vec.mk 0 0)
                    (Player.rotation (player s))
                    3 0
                    (Player.bestScore (player s))
                    (Player.isThrusting (player s)));
     randomCalls := randomCalls s;
     gameOverDivs := pred (gameOverDivs s);
     countdowns := countdowns s;
     pendingFrames := S (pendingFrames s) |}.

(** Number of firings of the countdown [id] among the events [evs]. *)
Definition ticksOf (id : nat) (evs : list Event) : nat :=
  length (filter (fun e => match e with
                           | ECountdown i => (i =? id)%nat
                           | _ => false
                           end) evs).

(** A window small enough for an asteroid to reach the ship, at the
    centre, on the frame after it is spawned; [Math.random()] always
    returns one half. *)
Definition small : Host :=
  mkHost 100 100 (fun _ => 1) (fun _ => 0) hypotDown (355 # 113)
         (fun _ => 0.5).

(** The desktop canvas with random numbers that select the top edge
    ([floor (0.1 * 4) = 0]) and the left edge ([floor (0.9 * 4) = 3]). *)
Definition desktopTop : Host :=
  mkHost 800 600 (fun _ => 1) (fun _ => 0) hypotDown (355 # 113)
         (fun _ => 0.1).
Definition desktopLeft : Host :=
  mkHost 800 600 (fun _ => 1) (fun _ => 0) hypotDown (355 # 113)
         (fun _ => 0.9).

(** The state of an [option State] known to be [Some]. *)
Definition the (h : Host) (o : option State) : State :=
  match o with
  | Some s => s
  | None => loaded h
  end.

(** A large asteroid at the centre of the desktop canvas and a projectile
    inside it. *)
Definition rock : Asteroid.t :=
  Asteroid.mk (Vec.mk 400 300) 40 5 (Vec.mk 0 0) [1; -1; 2; -2; 0].
Definition bullet : Projectile.t :=
  Projectile.mk (Vec.mk 410 300) (Vec.mk 5 0) 3.
Definition shooting : State :=
  with_projectiles [bullet] (with_asteroids [rock] (loaded desktop)).

(** A game over whose countdown has just been started. *)
Definition justOver : State :=
  with_countdowns [Some 3%Z] (with_isGameOver true (loaded desktop)).

(** Scenario B of the specification: one asteroid of radius 40 at
    distance 10 from the ship. *)
Definition scenarioB : State :=
  with_asteroids [Asteroid.mk (Vec.mk 410 300) 40 5 (Vec.mk 0 0) []]
                 (loaded desktop).

(** Every live countdown holds 1, 2 or 3. *)
Definition countdowns_ok (s : State) : Prop :=
  forall id c, nth_error (countdowns s) id = Some (Some c) -> (1 <= c <= 3)%Z.

(** Some countdown is live. *)
Definition counting (s : State) : Prop :=
  exists id c, nth_error (countdowns s) id = Some (Some c).

(** ** Vocabulary of the further properties *)

(** Every number [Math.random()] returns lies in [[0, 1)]. *)
Definition random_unit (h : Host) : Prop :=
  forall i, 0 <= Math_random h i < 1.

(** The desktop canvas with a random number that selects the right edge
    ([floor (0.3 * 4) = 1]). *)
Definition desktopRight : Host :=
  mkHost 800 600 (fun _ => 1) (fun _ => 0) hypotDown (355 # 113)
         (fun _ => 0.3).

(** The test of the particle loop: the particle has not faded out. *)
Definition visible (p : Particle.t) : bool :=
  negb (Qle_bool (Particle.alpha p) 0).

(** The three sizes an asteroid can have. *)
Definition size_ok (a : Asteroid.t) : Prop :=
  Asteroid.radius a == 40 \/ Asteroid.radius a == 20 \/
  Asteroid.radius a == 10.

(** ** Resolved collisions *)

(** [hits h s m s']: [s'] is reached from [s] by [m] successive runs of
    the body of the projectile-asteroid test, each on a projectile and an
    asteroid present at that moment that pass the test. *)
Inductive hits (h : Host) : State -> nat -> State -> Prop :=
| hits_none : forall s, hits h s 0 s
| hits_step : forall s pIndex aIndex p a m s',
    nth_error (projectiles s) pIndex = Some p ->
    nth_error (asteroids s) aIndex = Some a ->
    hitsProjectile h p a = true ->
    hits h (projectileHit h pIndex aIndex p a s) m s' ->
    hits h s (S m) s'.

(** No projectile of [ps] passes the test against an asteroid of [l]. *)
Definition all_miss (h : Host) (ps : list Projectile.t)
    (l : list Asteroid.t) : Prop :=
  forall p a, In p ps -> In a l -> hitsProjectile h p a = false.

(** The state of a running game when [animate] reaches
    [checkCollisions()]: a frame requested, every entity moved, the
    faded particles removed. *)
Definition frameStart (h : Host) (s : State) : State :=
  let s := with_pendingFrames (S (pendingFrames s)) s in
  let s := with_player (Player.update h (player s)) s in
  let s := with_projectiles (map Projectile.update (projectiles s)) s in
  let s := with_asteroids (map (Asteroid.update h) (asteroids s)) s in
  with_particles
    (map Particle.update
         (filter (fun p => negb (Qle_bool (Particle.alpha p) 0))
                 (particles s))) s.

(** ** A host with the binary64 [Math.hypot] *)

(** The double nearest to an integer below [2^53] in magnitude (exact). *)
Definition float_of_Z (z : Z) : PrimFloat.float :=
  if (z <? 0)%Z
  then PrimFloat.opp (PrimFloat.of_uint63 (Uint63.of_Z (- z)))
  else PrimFloat.of_uint63 (Uint63.of_Z z).

(** The double nearest to a rational whose numerator and denominator are
    below [2^53] in magnitude: the correctly rounded quotient of two
    exact conversions. *)
Definition float_of_Q (q : Q) : PrimFloat.float :=
  PrimFloat.div (float_of_Z (Qnum q)) (float_of_Z (Zpos (Qden q))).

(** The exact value of a finite double. *)
Definition Q_of_float (x : PrimFloat.float) : Q :=
  match FloatOps.Prim2SF x with
  | SpecFloat.S754_finite s m e =>
      let z := if s then Zneg m else Zpos m in
      match e with
      | Zneg k => z # (2 ^ k)
      | _ => inject_Z (z * 2 ^ e)
      end
  | _ => 0
  end.

(** [Math.hypot(dx, dy)] evaluated in binary64 as the square root of the
    sum of the squares, each operation rounded to nearest. *)
Definition hypot64 (dx dy : Q) : Q :=
  let x := float_of_Q dx in
  let y := float_of_Q dy in
  Q_of_float
    (PrimFloat.sqrt (PrimFloat.add (PrimFloat.mul x x) (PrimFloat.mul y y))).

(** The desktop canvas with the binary64 [Math.hypot]. *)
Definition ieee : Host :=
  mkHost 800 600 (fun _ => 1) (fun _ => 0) hypot64 (355 # 113)
         (fun _ => 0.5).

(** A projectile whose distance to an asteroid of radius 40 at the origin
    is below 40 by less than half a unit in the last place. *)
Definition grazingBullet : Projectile.t :=
  Projectile.mk (Vec.mk (5601281313739623 # 140737488355328) 4)
                (Vec.mk 5 0) 3.

(** A ship position whose distance to the same asteroid is below 55 by
    less than half a unit in the last place. *)
Definition grazingShip : Vec.t :=
  Vec.mk (7636224696176675 # 140737488355328) 9.

Definition originRock : Asteroid.t :=
  Asteroid.mk (Vec.mk 0 0) 40 5 (Vec.mk 0 0) [1; -1; 2; -2; 0].

(** ** Friction in binary64 *)

(** The double nearest to [n / d]. *)
Definition double (n : Z) (d : positive) : PrimFloat.float :=
  float_of_Q (n # d).

(** [this.velocity.x *= FRICTION] as the processor computes it: one
    binary64 multiplication by the double nearest to 0.99. *)
Definition friction_binary64 (x : PrimFloat.float) : PrimFloat.float :=
  PrimFloat.mul x (float_of_Q FRICTION).

(** The two multiplications of [Player.update], and [N] updates with no
    thrust in between. *)
Definition friction_tick (v : PrimFloat.float * PrimFloat.float)
  : PrimFloat.float * PrimFloat.float :=
  (friction_binary64 (fst v), friction_binary64 (snd v)).

Definition coast_binary64 (N : nat) (v : PrimFloat.float * PrimFloat.float)
  : PrimFloat.float * PrimFloat.float :=
  Nat.iter N friction_tick v.

(** Neither an infinity nor [NaN]. *)
Definition finite64 (x : PrimFloat.float) : bool :=
  match FloatOps.Prim2SF x with
  | SpecFloat.S754_zero _ | SpecFloat.S754_finite _ _ _ => true
  | _ => false
  end.

(** A finite double is an integer multiple of [2^-1074]: the number of
    these units in it. *)
Definition Z_of_SF (x : SpecFloat.spec_float) : Z :=
  match x with
  | SpecFloat.S754_finite s m e =>
      ((if s then Zneg m else Zpos m) * 2 ^ (e + 1074))%Z
  | _ => 0%Z
  end.

Definition Z_of_float (x : PrimFloat.float) : Z :=
  Z_of_SF (FloatOps.Prim2SF x).

Definition units (v : PrimFloat.float * PrimFloat.float) : Z * Z :=
  (Z_of_float (fst v), Z_of_float (snd v)).

(** The integers that count the units of a finite double: those with at
    most 53 significant bits that stand for a magnitude below
    [2^1024]. *)
Definition representable (k : Z) : Prop :=
  exists m j, (0 <= j <= 2045 /\ Z.abs m < 2 ^ 53 /\ k = m * 2 ^ j)%Z.

(** [FRICTION]: the double nearest to 0.99 is [FRICTION64 * 2^-53]. *)
Definition FRICTION64 : Z := 8917127262193582.

(** [N / 2^s] rounded to the nearest integer, ties to even. *)
Definition rne_shift (N s : Z) : Z :=
  (let q := N / 2 ^ s in
   let r := N mod 2 ^ s in
   match 2 * r ?= 2 ^ s with
   | Lt => q
   | Gt => q + 1
   | Eq => if Z.even q then q else q + 1
   end)%Z.

(** The multiplication by [FRICTION] on the units of a non-negative
    double: the exact product is [N * 2^-53] units; it is rounded to 53
    significant bits, or to a whole number of units when it is
    subnormal. *)
Definition friction64_abs (k : Z) : Z :=
  (let N := k * FRICTION64 in
   let j := Z.max (Z.log2 N - 105) 0 in
   rne_shift N (53 + j) * 2 ^ j)%Z.

(** The multiplication by [FRICTION] on the units of a double. *)
Definition friction64 (k : Z) : Z :=
  (Z.sgn k * friction64_abs (Z.abs k))%Z.

Definition friction_tick64 (v : Z * Z) : Z * Z :=
  (friction64 (fst v), friction64 (snd v)).

Definition coast64 (N : nat) (v : Z * Z) : Z * Z :=
  Nat.iter N friction_tick64 v.

(** The Euclidean norm of a velocity given in units, over the reals. *)
Definition speed64 (v : Z * Z) : R :=
  (sqrt (IZR (fst v * fst v + snd v * snd v)) / 2 ^ 1074)%R.

(** The speed of the player: the Euclidean norm of its velocity, a pair
    of finite doubles, over the reals. *)
Definition speed_binary64 (v : PrimFloat.float * PrimFloat.float) : R :=
  speed64 (units v).

(** The location, in the sense of [SpecFloat], of a discarded part [r]
    out of [P]. *)
Definition location_of (r P : Z) : SpecFloat.location :=
  if (r =? 0)%Z then SpecFloat.loc_Exact
  else SpecFloat.loc_Inexact (2 * r ?= P)%Z.

(** [R] is what [n] one-bit shifts of [SpecFloat] leave of [M]. *)
Definition shifted (M n : Z) (R : SpecFloat.shr_record) : Prop :=
  SpecFloat.shr_m R = (M / 2 ^ n)%Z /\
  SpecFloat.loc_of_shr_record R = location_of (M mod 2 ^ n)%Z (2 ^ n)%Z.

(** A host on which a projectile fired to the right meets an asteroid
    that was spawned on the right edge, at the height of the ship, five
    frames after it is fired. *)
Definition arcade : Host :=
  mkHost 124 124 (fun _ => 1) (fun _ => 0) hypotDown (355 # 113)
         (fun n => match n with O => 0.3 | _ => 0.5 end).

(** * Properties *)

(** ** Comparisons *)

Lemma Qltb_true_iff (x y : Q) : Qltb x y = true <-> x < y.
Proof.
  unfold Qltb. rewrite negb_true_iff. split; intro H.
  - apply Qnot_le_lt. intro L. apply Qle_bool_iff in L. congruence.
  - destruct (Qle_bool y x) eqn:E; trivial.
    apply Qle_bool_iff in E. exfalso. exact (Qlt_not_le _ _ H E).
Qed.

Lemma Qltb_false_iff (x y : Q) : Qltb x y = false <-> y <= x.
Proof.
  unfold Qltb. rewrite negb_false_iff. apply Qle_bool_iff.
Qed.

(** Case analysis on every comparison of the goal, each outcome turned
    into an inequality of the context. *)
Ltac compare_all :=
  repeat match goal with
  | |- context [Qltb ?a ?b] =>
      let E := fresh "E" in
      destruct (Qltb a b) eqn:E;
      [apply Qltb_true_iff in E | apply Qltb_false_iff in E]
  end.

(** Linear arithmetic over [Q] once divisions by literals are turned into
    multiplications. *)
Ltac qlra := unfold Qdiv in *; cbn [Qinv Qnum Qden] in *; lra.

(** [hypot_lt] is the strict comparison of the real Euclidean norm. *)
Lemma hypot_lt_dist (dx dy r : Q) :
  hypot_lt dx dy r = true <->
  (sqrt (Q2R dx * Q2R dx + Q2R dy * Q2R dy) < Q2R r)%R.
Proof.
  unfold hypot_lt. rewrite andb_true_iff, !Qltb_true_iff.
  assert (Hsq : (0 <= Q2R dx * Q2R dx + Q2R dy * Q2R dy)%R) by nra.
  split.
  - intros [Hr Hlt].
    apply Qlt_Rlt in Hr, Hlt.
    rewrite Q2R_plus, !Q2R_mult in Hlt. rewrite RMicromega.Q2R_0 in Hr.
    rewrite <- (sqrt_square (Q2R r)) by lra.
    apply sqrt_lt_1; nra.
  - intros Hlt.
    pose proof (sqrt_pos (Q2R dx * Q2R dx + Q2R dy * Q2R dy)) as Hs.
    assert (Hr : (0 < Q2R r)%R) by lra.
    split.
    + apply Rlt_Qlt. rewrite RMicromega.Q2R_0. exact Hr.
    + apply Rlt_Qlt. rewrite Q2R_plus, !Q2R_mult.
      rewrite <- (sqrt_square (Q2R r)) in Hlt by lra.
      apply sqrt_lt_0 in Hlt; nra.
Qed.

(** ** Screen wrapping *)

Lemma wrap_axis (limit c : Q) :
  0 <= limit ->
  let c1 := if Qltb limit c then 0 else c in
  let c2 := if Qltb c1 0 then limit else c1 in
  0 <= c2 <= limit /\ wraps limit c c2.
Proof.
  intros Hl c1 c2. subst c1 c2. unfold wraps.
  destruct (Qltb limit c) eqn:E1;
    [apply Qltb_true_iff in E1 | apply Qltb_false_iff in E1];
    compare_all; repeat split; intros;
    first [reflexivity | lra | exfalso; lra].
Qed.

(** C2, as stated, fails: a player on the left edge that moves left by one
    unit is put at [x = width], outside the half-open interval. *)
Lemma C2_half_open_refuted :
  ~ (forall (h : Host) (p : Player.t),
       0 < canvas_width h -> 0 < canvas_height h ->
       within_one_step (canvas_width h) (Vec.x (Player.position p))
                       (Vec.x (Player.velocity p)) ->
       within_one_step (canvas_height h) (Vec.y (Player.position p))
                       (Vec.y (Player.velocity p)) ->
       in_half_open h (Player.position (Player.update h p))).
Proof.
  intro H.
  specialize (H desktop
                (Player.mk (Vec.mk 0 0) (Vec.mk (-1) 0) 0 3 0 0 false)).
  unfold within_one_step, in_half_open in H. cbn in H.
  assert (L : 0 <= 800 < 800).
  { apply H; try reflexivity; (split; [split; [discriminate | reflexivity] | left; discriminate]). }
  destruct L as [_ L]. discriminate L.
Qed.

(** C2 (amended): after one update of a player or of an asteroid, whatever
    its position before, each coordinate lies in the closed interval from
    0 to the canvas dimension; per axis, a coordinate past the dimension
    becomes 0, a negative one becomes the dimension itself, any other is
    kept. *)
Theorem C2_wrap_closed (h : Host) (p : Player.t) (a : Asteroid.t) :
  0 <= canvas_width h -> 0 <= canvas_height h ->
  in_canvas h (Player.position (Player.update h p)) /\
  wraps (canvas_width h)
        (Vec.x (Player.position p) + Vec.x (Player.velocity p))
        (Vec.x (Player.position (Player.update h p))) /\
  wraps (canvas_height h)
        (Vec.y (Player.position p) + Vec.y (Player.velocity p))
        (Vec.y (Player.position (Player.update h p))) /\
  in_canvas h (Asteroid.position (Asteroid.update h a)) /\
  wraps (canvas_width h)
        (Vec.x (Asteroid.position a) + Vec.x (Asteroid.velocity a))
        (Vec.x (Asteroid.position (Asteroid.update h a))) /\
  wraps (canvas_height h)
        (Vec.y (Asteroid.position a) + Vec.y (Asteroid.velocity a))
        (Vec.y (Asteroid.position (Asteroid.update h a))).
Proof.
  intros Hw Hh. unfold in_canvas. cbn.
  pose proof (wrap_axis (canvas_width h)
    (Vec.x (Player.position p) + Vec.x (Player.velocity p)) Hw) as [P1 P2].
  pose proof (wrap_axis (canvas_height h)
    (Vec.y (Player.position p) + Vec.y (Player.velocity p)) Hh) as [P3 P4].
  pose proof (wrap_axis (canvas_width h)
    (Vec.x (Asteroid.position a) + Vec.x (Asteroid.velocity a)) Hw) as [A1 A2].
  pose proof (wrap_axis (canvas_height h)
    (Vec.y (Asteroid.position a) + Vec.y (Asteroid.velocity a)) Hh) as [A3 A4].
  repeat split; first [apply P1 | apply P2 | apply P3 | apply P4
                      | apply A1 | apply A2 | apply A3 | apply A4]; assumption.
Qed.

Lemma C2_wrap_closed_witness :
  let p := Player.mk (Vec.mk 0 0) (Vec.mk (-1) 0) 0 3 0 0 false in
  let a := Asteroid.mk (Vec.mk 10 (-40)) 40 5 (Vec.mk 0 1) [] in
  in_canvas desktop (Player.position (Player.update desktop p)) /\
  in_canvas desktop (Asteroid.position (Asteroid.update desktop a)).
Proof.
  intros p a.
  destruct (C2_wrap_closed desktop p a) as (H1 & _ & _ & H2 & _).
  - discriminate.
  - discriminate.
  - split; assumption.
Defined.

(** ** Friction *)

Lemma Q2R_FRICTION : Q2R FRICTION = (99 / 100)%R.
Proof. unfold FRICTION, Q2R. cbn. lra. Qed.

Lemma coast_S (h : Host) (N : nat) (p : Player.t) :
  coast h (S N) p = Player.update h (coast h N p).
Proof. reflexivity. Qed.

(** Velocity components after [N] coasting ticks. *)
Lemma coast_velocity (h : Host) (p : Player.t) (N : nat) :
  Q2R (Vec.x (Player.velocity (coast h N p)))
    = (Q2R (Vec.x (Player.velocity p)) * (99 / 100) ^ N)%R /\
  Q2R (Vec.y (Player.velocity (coast h N p)))
    = (Q2R (Vec.y (Player.velocity p)) * (99 / 100) ^ N)%R.
Proof.
  induction N as [|N [IHx IHy]].
  - cbn. split; lra.
  - rewrite coast_S. cbn [Player.update Player.velocity Vec.x Vec.y].
    rewrite !Q2R_mult, Q2R_FRICTION, IHx, IHy. cbn [pow]. split; lra.
Qed.

Lemma coast_velocity_Q (h : Host) (p : Player.t) (N : nat) :
  Vec.x (Player.velocity (coast h N p))
    == Vec.x (Player.velocity p) * FRICTION ^ Z.of_nat N /\
  Vec.y (Player.velocity (coast h N p))
    == Vec.y (Player.velocity p) * FRICTION ^ Z.of_nat N.
Proof.
  induction N as [|N [IHx IHy]].
  - cbn. split; ring.
  - rewrite coast_S. cbn [Player.update Player.velocity Vec.x Vec.y].
    rewrite IHx, IHy, Nat2Z.inj_succ, <- Z.add_1_r, Qpower_plus' by lia.
    split; ring.
Qed.

Lemma norm_scale (a b k : R) :
  (0 <= k)%R ->
  sqrt ((a * k) * (a * k) + (b * k) * (b * k)) = (sqrt (a * a + b * b) * k)%R.
Proof.
  intro Hk.
  replace ((a * k) * (a * k) + (b * k) * (b * k))%R
    with ((a * a + b * b) * (k * k))%R by ring.
  rewrite sqrt_mult by nra.
  now rewrite (sqrt_square k Hk).
Qed.

Lemma coast_speed (h : Host) (p : Player.t) (N : nat) :
  speed (Player.velocity (coast h N p))
    = (speed (Player.velocity p) * (99 / 100) ^ N)%R.
Proof.
  unfold speed. destruct (coast_velocity h p N) as [-> ->].
  apply norm_scale. apply pow_le. lra.
Qed.

(** In exact arithmetic: after [N] friction-only ticks the speed of the
    player is its initial speed times [0.99 ^ N]; from one tick to the
    next it never grows, and when the initial speed is not zero it
    strictly decreases and is never zero. *)
Lemma friction_decay_exact (h : Host) (p : Player.t) (N : nat) :
  speed (Player.velocity (coast h N p))
    = (speed (Player.velocity p) * 0.99 ^ N)%R /\
  (speed (Player.velocity (coast h (S N) p))
    <= speed (Player.velocity (coast h N p)))%R /\
  (speed (Player.velocity p) <> 0%R ->
   speed (Player.velocity (coast h N p)) <> 0%R /\
   (speed (Player.velocity (coast h (S N) p))
     < speed (Player.velocity (coast h N p)))%R).
Proof.
  rewrite !coast_speed.
  replace 0.99%R with (99 / 100)%R by lra.
  assert (Hpow : (0 < (99 / 100) ^ N)%R) by (apply pow_lt; lra).
  assert (Hs : (0 <= speed (Player.velocity p))%R) by apply sqrt_pos.
  cbn [pow]. repeat split.
  - nra.
  - nra.
  - nra.
Qed.

(** One coasting tick from velocity (3, 4): the speed goes from 5 to
    4.95. *)
Example friction_example :
  let p := Player.mk (Vec.mk 400 300) (Vec.mk 3 4) 0 3 0 0 false in
  speed (Player.velocity p) = 5%R /\
  speed (Player.velocity (coast desktop 1 p)) = (5 * 0.99)%R.
Proof.
  intro p.
  assert (H5 : speed (Player.velocity p) = 5%R).
  { unfold speed, p. cbn [Player.velocity Vec.x Vec.y].
    replace (Q2R 3) with 3%R by (unfold Q2R; cbn; lra).
    replace (Q2R 4) with 4%R by (unfold Q2R; cbn; lra).
    replace (3 * 3 + 4 * 4)%R with (5 * 5)%R by lra.
    apply sqrt_square. lra. }
  split; [exact H5|].
  rewrite coast_speed, H5. lra.
Qed.

(** ** Arrays *)

Lemma splice1_length {A} (i : nat) (l : list A) :
  (i < length l)%nat -> S (length (splice1 i l)) = length l.
Proof.
  intro H. unfold splice1.
  rewrite length_app, length_firstn, length_skipn. lia.
Qed.

Lemma splice1_firstn {A} (i k : nat) (l : list A) :
  (k <= i)%nat -> firstn k (splice1 i l) = firstn k l.
Proof.
  intro H. unfold splice1.
  destruct (Nat.le_gt_cases (length l) i) as [Hl|Hl].
  - rewrite (firstn_all2 l Hl), skipn_all2, app_nil_r by lia. reflexivity.
  - rewrite firstn_app, length_firstn, firstn_firstn.
    replace (k - Nat.min i (length l))%nat with 0%nat by lia.
    rewrite Nat.min_l by lia. cbn. apply app_nil_r.
Qed.

Lemma splice1_skipn {A} (i : nat) (l : list A) :
  (i <= length l)%nat -> skipn i (splice1 i l) = skipn (S i) l.
Proof.
  intro H. unfold splice1.
  rewrite skipn_app, length_firstn.
  replace (i - Nat.min i (length l))%nat with 0%nat by lia.
  rewrite skipn_all2 by (rewrite length_firstn; lia). reflexivity.
Qed.

Lemma splice1_nth_error {A} (i j : nat) (l : list A) :
  (j < i)%nat -> nth_error (splice1 i l) j = nth_error l j.
Proof.
  intro H. unfold splice1.
  destruct (Nat.le_gt_cases (length l) i) as [Hl|Hl].
  - rewrite (firstn_all2 l Hl), skipn_all2, app_nil_r by lia. reflexivity.
  - rewrite nth_error_app1 by (rewrite length_firstn; lia).
    rewrite nth_error_firstn.
    destruct (Nat.ltb_spec j i); [reflexivity | lia].
Qed.

Lemma splice1_app {A} (i : nat) (l l' : list A) :
  (i < length l)%nat -> splice1 i (l ++ l') = splice1 i l ++ l'.
Proof.
  intro H. unfold splice1.
  rewrite firstn_app, skipn_app.
  replace (i - length l)%nat with 0%nat by lia.
  replace (S i - length l)%nat with 0%nat by lia.
  cbn. now rewrite app_nil_r, app_assoc.
Qed.

Lemma firstn_S_nth {A} (i : nat) (l : list A) (a : A) :
  nth_error l i = Some a -> firstn (S i) l = firstn i l ++ [a].
Proof.
  revert l. induction i as [|i IH]; intros [|b l] H; try discriminate.
  - now injection H as ->.
  - cbn in H. rewrite firstn_cons, (IH l H), firstn_cons. reflexivity.
Qed.

Lemma skipn_nth {A} (i : nat) (l : list A) (a : A) :
  nth_error l i = Some a -> skipn i l = a :: skipn (S i) l.
Proof.
  revert l. induction i as [|i IH]; intros [|b l] H; try discriminate.
  - now injection H as ->.
  - cbn in H. now apply IH.
Qed.

Lemma nth_error_in_range {A} (i : nat) (l : list A) :
  (i < length l)%nat -> exists a, nth_error l i = Some a.
Proof.
  intro H. destruct (nth_error l i) eqn:E; eauto.
  apply nth_error_None in E. lia.
Qed.

Lemma assign_length {A} (i : nat) (v : A) (l : list A) :
  (i < length l)%nat -> length (assign i v l) = length l.
Proof.
  intro H. unfold assign.
  rewrite length_app, length_firstn. cbn [length]. rewrite length_skipn. lia.
Qed.

Lemma assign_nth_error_same {A} (i : nat) (v : A) (l : list A) :
  (i < length l)%nat -> nth_error (assign i v l) i = Some v.
Proof.
  intro H. unfold assign.
  rewrite nth_error_app2 by (rewrite length_firstn; lia).
  rewrite length_firstn, Nat.min_l by lia.
  now rewrite Nat.sub_diag.
Qed.

Lemma assign_nth_error_other {A} (i j : nat) (v : A) (l : list A) :
  i <> j -> (i < length l)%nat ->
  nth_error (assign i v l) j = nth_error l j.
Proof.
  intros Hne H. unfold assign.
  destruct (Nat.lt_ge_cases j i) as [Hj|Hj].
  - rewrite nth_error_app1 by (rewrite length_firstn; lia).
    rewrite nth_error_firstn.
    destruct (Nat.ltb_spec j i); [reflexivity | lia].
  - rewrite nth_error_app2 by (rewrite length_firstn; lia).
    rewrite length_firstn, Nat.min_l by lia.
    destruct (j - i)%nat as [|d] eqn:Ed; [lia|].
    cbn [nth_error]. rewrite nth_error_skipn. f_equal. lia.
Qed.

Lemma vec_eta (v : Vec.t) : Vec.mk (Vec.x v) (Vec.y v) = v.
Proof. now destruct v. Qed.

(** ** Explosions *)

(** Projections of the state through its setters. *)
Ltac state_simpl :=
  cbv beta iota zeta delta
      [startCountdown showGameOverUI
       with_isGameOver with_keys with_projectiles with_asteroids
       with_particles with_player with_randomCalls with_gameOverDivs
       with_countdowns with_pendingFrames
       Player.with_position Player.with_velocity Player.with_rotation
       Player.with_lives Player.with_score Player.with_isThrusting
       isGameOver level keys projectiles asteroids particles player
       randomCalls gameOverDivs countdowns pendingFrames
       Player.position Player.velocity Player.rotation Player.lives
       Player.score Player.bestScore Player.isThrusting] in *.

Lemma createExplosion_eq (h : Host) (pos : Vec.t) (count : nat) (s : State) :
  createExplosion h pos count s
  = with_particles
      (particles s ++ explosionParticles h pos count (randomCalls s))
      (with_randomCalls (3 * count + randomCalls s) s).
Proof.
  revert s. induction count as [|count IH]; intro s.
  - destruct s. cbn. now rewrite app_nil_r.
  - cbn [createExplosion explosionParticles Particle.new fst].
    rewrite IH. destruct s. state_simpl. rewrite <- app_assoc. cbn [app].
    f_equal. lia.
Qed.

Lemma explosionParticles_length (h : Host) (pos : Vec.t) (count n : nat) :
  length (explosionParticles h pos count n) = count.
Proof.
  revert n. induction count as [|count IH]; intro n; cbn; [|rewrite IH];
    reflexivity.
Qed.

Lemma explosionParticles_position (h : Host) (pos : Vec.t) (count n : nat) :
  Forall (fun p => Particle.position p = pos)
         (explosionParticles h pos count n).
Proof.
  revert n. induction count as [|count IH]; intro n; cbn; constructor.
  - apply vec_eta.
  - apply IH.
Qed.

(** ** First pass: player against asteroids *)

Lemma livesAfter_S (lives : Z) (n : nat) :
  livesAfter (livesAfter lives 1) n = livesAfter lives (S n).
Proof. destruct n; cbn [livesAfter]; lia. Qed.

Lemma gameOversAfter_S (lives : Z) (n : nat) :
  (gameOversAfter lives 1 + gameOversAfter (livesAfter lives 1) n)%nat
  = gameOversAfter lives (S n).
Proof. unfold gameOversAfter. cbn [livesAfter]. lia. Qed.

Lemma gameOversAfter_0 (lives : Z) : gameOversAfter lives 0 = 0%nat.
Proof. unfold gameOversAfter. lia. Qed.

Lemma playerPassResult_0 (s : State) :
  playerPassResult s (asteroids s) 0 [] = s.
Proof.
  unfold playerPassResult. rewrite gameOversAfter_0.
  destruct s as [g lv ks pr ast pa pl rc gd cd pf]. destruct pl.
  cbn. now rewrite orb_false_r, !app_nil_r.
Qed.

Lemma playerHit_eq (h : Host) (i : nat) (s : State) :
  playerHit h i s
  = playerPassResult s (splice1 i (asteroids s)) 1
      (explosionParticles h (Player.position (player s)) 20 (randomCalls s)).
Proof.
  unfold playerHit, playerPassResult, gameOversAfter. cbn [livesAfter].
  destruct s as [g lv ks pr ast pa pl rc gd cd pf].
  destruct pl as [pos vel rot lives sc bs th]. state_simpl.
  destruct (Z.leb_spec (lives - 1) 0) as [L|L].
  - replace (Z.to_nat (Z.min (Z.of_nat 1) (Z.of_nat 1 - lives + 1)))
      with 1%nat by lia.
    rewrite createExplosion_eq. state_simpl.
    cbn [repeat Nat.eqb negb Nat.add].
    rewrite orb_true_r. f_equal. f_equal. lia.
  - replace (Z.to_nat (Z.min (Z.of_nat 1) (Z.of_nat 1 - lives + 1)))
      with 0%nat by lia.
    rewrite createExplosion_eq. state_simpl.
    cbn [repeat Nat.eqb negb Nat.add].
    rewrite orb_false_r, app_nil_r. f_equal. f_equal. lia.
Qed.

Lemma playerPassResult_compose (s : State) (kept kept' : list Asteroid.t)
    (n : nat) (ps ps' : list Particle.t) :
  playerPassResult (playerPassResult s kept 1 ps) kept' n ps'
  = playerPassResult s kept' (S n) (ps ++ ps').
Proof.
  unfold playerPassResult.
  destruct s as [g lv ks pr ast pa pl rc gd cd pf].
  destruct pl as [pos vel rot lives sc bs th]. state_simpl.
  rewrite livesAfter_S.
  pose proof (gameOversAfter_S lives n) as Ht.
  set (t1 := gameOversAfter lives 1) in *.
  set (t2 := gameOversAfter (livesAfter lives 1) n) in *.
  rewrite <- Ht. clear Ht. f_equal.
  - destruct g, t1, t2; reflexivity.
  - now rewrite app_assoc.
  - lia.
  - lia.
  - now rewrite repeat_app, app_assoc.
Qed.

Lemma filter_snoc {A} (f : A -> bool) (l : list A) (a : A) :
  filter f (l ++ [a]) = filter f l ++ (if f a then [a] else []).
Proof. rewrite filter_app. reflexivity. Qed.

(** The first pass always terminates normally; it removes exactly the
    asteroids that pass the test against the (unchanged) player position,
    and each of them costs one life and raises one explosion. *)
Lemma playerLoop_spec (h : Host) (k : nat) (s : State) :
  (k <= length (asteroids s))%nat ->
  let pos := Player.position (player s) in
  let n := length (filter (hitsPlayer h pos) (firstn k (asteroids s))) in
  exists ps,
    playerLoop h k s
    = Some (playerPassResult s
              (filter (fun a => negb (hitsPlayer h pos a))
                      (firstn k (asteroids s))
               ++ skipn k (asteroids s))
              n ps) /\
    length ps = (20 * n)%nat /\
    Forall (fun p => Particle.position p = pos) ps.
Proof.
  revert s. induction k as [|i IH]; intros s Hk pos n.
  - exists []. subst n. cbn [firstn filter length skipn app playerLoop].
    rewrite playerPassResult_0. repeat split. constructor.
  - destruct (nth_error_in_range i (asteroids s)) as [a Ha]; [lia|].
    subst n. rewrite (firstn_S_nth _ _ _ Ha), !filter_snoc.
    cbn [playerLoop]. rewrite Ha. cbv zeta.
    change (Qltb _ _) with (hitsPlayer h pos a).
    destruct (hitsPlayer h pos a) eqn:Hit; cbn [negb].
    + rewrite playerHit_eq. fold pos.
      set (ps1 := explosionParticles h pos 20 (randomCalls s)).
      set (s1 := playerPassResult s (splice1 i (asteroids s)) 1 ps1).
      destruct (IH s1) as (ps & E & Hlen & Hpos).
      { subst s1. cbn [asteroids playerPassResult].
        pose proof (splice1_length i (asteroids s)). lia. }
      assert (Hp1 : Player.position (player s1) = pos) by reflexivity.
      assert (Ha1 : asteroids s1 = splice1 i (asteroids s)) by reflexivity.
      rewrite Hp1, Ha1 in E, Hlen. rewrite Hp1 in Hpos.
      rewrite splice1_firstn, splice1_skipn in E by lia.
      rewrite splice1_firstn in Hlen by lia.
      exists (ps1 ++ ps). split; [|split].
      * rewrite E. subst s1. rewrite playerPassResult_compose.
        rewrite length_app, app_nil_r. cbn [length]. f_equal. f_equal. lia.
      * rewrite !length_app, Hlen. subst ps1.
        rewrite explosionParticles_length. cbn [length]. lia.
      * apply Forall_app. split; [apply explosionParticles_position|exact Hpos].
    + destruct (IH s) as (ps & E & Hlen & Hpos); [lia|].
      fold pos in E, Hlen, Hpos.
      exists ps. split; [|split].
      * rewrite E. rewrite (skipn_nth _ _ _ Ha), app_nil_r, <- app_assoc.
        reflexivity.
      * rewrite app_nil_r. exact Hlen.
      * exact Hpos.
Qed.

(** ** Second pass: projectiles against asteroids *)

Lemma projectileHit_eq (h : Host) (pIndex aIndex : nat) (p : Projectile.t)
    (a : Asteroid.t) (s : State) :
  projectileHit h pIndex aIndex p a s = projectileHitResult h pIndex aIndex p a s.
Proof.
  unfold projectileHit, projectileHitResult, splitChildren.
  destruct s as [g lv ks pr ast pa pl rc gd cd pf].
  destruct (Qltb 15 (Asteroid.radius a)).
  - cbn [Asteroid.new]. state_simpl. rewrite createExplosion_eq. state_simpl.
    rewrite <- app_assoc. cbn [app]. f_equal.
  - state_simpl. rewrite createExplosion_eq. state_simpl.
    rewrite app_nil_r. f_equal.
Qed.

(** The inner loop stops at the first asteroid, from index [k - 1] down,
    that passes the test, and runs the hit on it; it leaves the state
    alone when there is none. *)
Lemma asteroidLoop_spec (h : Host) (pIndex : nat) (p : Projectile.t)
    (k : nat) (s : State) :
  (k <= length (asteroids s))%nat ->
  ((forall j a, (j < k)%nat -> nth_error (asteroids s) j = Some a ->
                hitsProjectile h p a = false) /\
   asteroidLoop h pIndex (Some p) k s = Some s)
  \/
  (exists j a,
     (j < k)%nat /\ nth_error (asteroids s) j = Some a /\
     hitsProjectile h p a = true /\
     (forall j' a', (j < j' < k)%nat -> nth_error (asteroids s) j' = Some a' ->
                    hitsProjectile h p a' = false) /\
     asteroidLoop h pIndex (Some p) k s
     = Some (projectileHit h pIndex j p a s)).
Proof.
  induction k as [|aIndex IH]; intro Hk.
  - left. split; [intros j a Hj; lia | reflexivity].
  - destruct (nth_error_in_range aIndex (asteroids s)) as [a Ha]; [lia|].
    cbn [asteroidLoop]. rewrite Ha. cbv zeta.
    change (Qltb _ _) with (hitsProjectile h p a).
    destruct (hitsProjectile h p a) eqn:Hit.
    + right. exists aIndex, a. repeat split; try assumption; try lia.
    + destruct IH as [[Hnone E] | (j & b & Hj & Hb & Hhit & Hfirst & E)];
        [lia | |].
      * left. split; [|exact E].
        intros j b Hj Hb.
        destruct (Nat.eq_dec j aIndex) as [->|Hne].
        -- congruence.
        -- apply (Hnone j); [lia | exact Hb].
      * right. exists j, b. repeat split; try assumption; try lia.
        intros j' a' Hj' Ha'.
        destruct (Nat.eq_dec j' aIndex) as [->|Hne].
        -- congruence.
        -- apply (Hfirst j'); [lia | exact Ha'].
Qed.

Lemma scored_refl (s : State) : scored s 0 s.
Proof.
  unfold scored. repeat split; try lia.
  destruct s as [g lv ks pr ast pa pl rc gd cd pf]. destruct pl.
  state_simpl. f_equal. lia.
Qed.

Lemma scored_hit (h : Host) (pIndex aIndex : nat) (p : Projectile.t)
    (a : Asteroid.t) (s : State) :
  (pIndex < length (projectiles s))%nat ->
  scored s 1 (projectileHit h pIndex aIndex p a s).
Proof.
  intro Hp. rewrite projectileHit_eq. unfold projectileHitResult, scored.
  destruct (splitChildren h a (randomCalls s)) as [children n].
  cbn [isGameOver level keys projectiles player gameOverDivs countdowns
       pendingFrames].
  repeat split.
  pose proof (splice1_length pIndex (projectiles s) Hp). lia.
Qed.

Lemma scored_trans (s s1 s2 : State) (m1 m2 : nat) :
  scored s m1 s1 -> scored s1 m2 s2 -> scored s (m1 + m2) s2.
Proof.
  unfold scored.
  intros (P1 & G1 & L1 & K1 & D1 & C1 & F1 & N1)
         (P2 & G2 & L2 & K2 & D2 & C2 & F2 & N2).
  repeat split; try congruence; try lia.
  rewrite P2, P1. destruct (player s). state_simpl. f_equal. lia.
Qed.

(** The second pass always terminates normally. *)
Lemma projectileLoop_spec (h : Host) (k : nat) (s : State) :
  (k <= length (projectiles s))%nat ->
  exists s' m, projectileLoop h k s = Some s' /\ scored s m s' /\ (m <= k)%nat.
Proof.
  revert s. induction k as [|pIndex IH]; intros s Hk.
  - exists s, 0%nat. split; [reflexivity | split; [apply scored_refl | lia]].
  - destruct (nth_error_in_range pIndex (projectiles s)) as [p Hp]; [lia|].
    cbn [projectileLoop]. rewrite Hp.
    destruct (asteroidLoop_spec h pIndex p (length (asteroids s)) s
                (Nat.le_refl _))
      as [[_ E] | (j & a & _ & _ & _ & _ & E)]; rewrite E.
    + destruct (IH s) as (s' & m & E' & Hs & Hm); [lia|].
      exists s', m. split; [exact E' | split; [exact Hs | lia]].
    + pose proof (scored_hit h pIndex j p a s Hk) as H1.
      destruct (IH (projectileHit h pIndex j p a s)) as (s' & m & E' & Hs & Hm).
      { destruct H1 as (_ & _ & _ & _ & _ & _ & _ & N). lia. }
      exists s', (1 + m)%nat.
      split; [exact E' | split; [exact (scored_trans _ _ _ _ _ H1 Hs) | lia]].
Qed.

Lemma hits_trans (h : Host) (s s1 s2 : State) (m1 m2 : nat) :
  hits h s m1 s1 -> hits h s1 m2 s2 -> hits h s (m1 + m2) s2.
Proof.
  induction 1 as [s | s pIndex aIndex p a m s1 Hp Ha Hit _ IH]; intro H2.
  - exact H2.
  - cbn [Nat.add]. exact (hits_step h s pIndex aIndex p a _ s2 Hp Ha Hit (IH H2)).
Qed.

Lemma hits_scored (h : Host) (s s' : State) (m : nat) :
  hits h s m s' -> scored s m s'.
Proof.
  induction 1 as [s | s pIndex aIndex p a m s' Hp Ha Hit _ IH].
  - apply scored_refl.
  - apply (scored_trans s (projectileHit h pIndex aIndex p a s) s' 1 m);
      [|exact IH].
    apply scored_hit. apply nth_error_Some. congruence.
Qed.

(** A projectile that misses an asteroid misses its children too: they
    sit at the same place and are smaller. *)
Lemma children_missed (h : Host) (q : Projectile.t) (a c : Asteroid.t)
    (n : nat) :
  hitsProjectile h q a = false ->
  In c (fst (splitChildren h a n)) ->
  hitsProjectile h q c = false.
Proof.
  unfold splitChildren. intros Hm Hc.
  destruct (Qltb 15 (Asteroid.radius a)) eqn:E; [|destruct Hc].
  apply Qltb_true_iff in E. cbn [Asteroid.new fst] in Hc.
  unfold hitsProjectile in *. apply Qltb_false_iff in Hm.
  apply Qltb_false_iff.
  assert (Hr : Asteroid.radius a / 2 <= Asteroid.radius a) by qlra.
  destruct Hc as [<-|[<-|[]]]; cbn [Asteroid.position Asteroid.radius Vec.x Vec.y];
    (eapply Qle_trans; [exact Hr | exact Hm]).
Qed.

Lemma projectileHit_all_miss (h : Host) (pIndex aIndex : nat)
    (p : Projectile.t) (a : Asteroid.t) (s : State) (qs : list Projectile.t) :
  nth_error (asteroids s) aIndex = Some a ->
  all_miss h qs (asteroids s) ->
  all_miss h qs (asteroids (projectileHit h pIndex aIndex p a s)).
Proof.
  intros Ha Hm q c Hq Hc. rewrite projectileHit_eq in Hc.
  unfold projectileHitResult in Hc.
  pose proof (children_missed h q a c (randomCalls s)) as Hch.
  destruct (splitChildren h a (randomCalls s)) as [children n].
  cbn [asteroids fst] in *.
  unfold splice1 in Hc. apply in_app_or in Hc.
  assert (Hin : In c (asteroids s ++ children)).
  { destruct Hc as [Hc|Hc].
    - rewrite <- (firstn_skipn aIndex (asteroids s ++ children)).
      apply in_or_app. now left.
    - rewrite <- (firstn_skipn (S aIndex) (asteroids s ++ children)).
      apply in_or_app. now right. }
  apply in_app_or in Hin. destruct Hin as [Hin|Hin].
  - exact (Hm q c Hq Hin).
  - apply Hch; [|exact Hin].
    apply (Hm q a Hq). eapply nth_error_In, Ha.
Qed.

(** The second pass is a sequence of resolved collisions, and when it
    ends no projectile it has gone through passes the test against any
    asteroid left. *)
Lemma projectileLoop_hits (h : Host) (k : nat) (s : State) :
  (k <= length (projectiles s))%nat ->
  all_miss h (skipn k (projectiles s)) (asteroids s) ->
  exists s' m,
    projectileLoop h k s = Some s' /\ hits h s m s' /\
    all_miss h (projectiles s') (asteroids s').
Proof.
  revert s. induction k as [|pIndex IH]; intros s Hk Hm.
  - exists s, 0%nat. split; [reflexivity|]. split; [constructor | exact Hm].
  - destruct (nth_error_in_range pIndex (projectiles s)) as [p Hp]; [lia|].
    cbn [projectileLoop]. rewrite Hp.
    destruct (asteroidLoop_spec h pIndex p (length (asteroids s)) s
                (Nat.le_refl _))
      as [[Hnone E] | (j & a & _ & Ha & Hit & _ & E)]; rewrite E.
    + destruct (IH s) as (s' & m & E' & Hh & Hc); [lia| |].
      * rewrite (skipn_nth _ _ _ Hp). intros q c [<-|Hq] Hc.
        -- destruct (In_nth_error _ _ Hc) as [j Hj].
           apply (Hnone j c); [|exact Hj].
           apply nth_error_Some. congruence.
        -- exact (Hm q c Hq Hc).
      * exists s', m. auto.
    + destruct (IH (projectileHit h pIndex j p a s)) as (s' & m & E' & Hh & Hc).
      * destruct (scored_hit h pIndex j p a s Hk)
          as (_ & _ & _ & _ & _ & _ & _ & N). lia.
      * apply projectileHit_all_miss; [exact Ha|].
        rewrite projectileHit_eq. unfold projectileHitResult.
        destruct (splitChildren h a (randomCalls s)) as [children n].
        cbn [projectiles]. rewrite splice1_skipn by lia. exact Hm.
      * exists s', (S m). split; [exact E'|]. split; [|exact Hc].
        exact (hits_step h s pIndex j p a m s' Hp Ha Hit Hh).
Qed.

(** ** The two collision tests and the real distance *)

(** Where [Math.hypot] returns the exact norm, the test is the strict
    comparison of the real distance. *)
Lemma exact_hypot_lt (H dx dy r : Q) :
  Q2R H = sqrt (Q2R dx * Q2R dx + Q2R dy * Q2R dy) ->
  (Qltb H r = true <->
   (sqrt (Q2R dx * Q2R dx + Q2R dy * Q2R dy) < Q2R r)%R).
Proof.
  intro E. rewrite Qltb_true_iff, <- E. split.
  - apply Qlt_Rlt.
  - apply Rlt_Qlt.
Qed.

Lemma Q2R_15 : Q2R 15 = 15%R.
Proof. unfold Q2R. cbn. lra. Qed.

(** ** Claims on the collision resolver *)

(** C3: when the projectile-asteroid test succeeds on the asteroid at
    [aIndex], of radius [R]: if [R > 15] the parent is removed and two
    asteroids of radius [R / 2] at the parent's position are added, so
    there is one asteroid more; if [R <= 15] the parent is removed and
    nothing is added, so there is one asteroid less. *)
Theorem C3_split_on_projectile_hit (h : Host) (pIndex aIndex : nat)
    (p : Projectile.t) (a : Asteroid.t) (s : State) :
  nth_error (asteroids s) aIndex = Some a ->
  let s' := projectileHit h pIndex aIndex p a s in
  (15 < Asteroid.radius a ->
     exists c1 c2,
       asteroids s' = splice1 aIndex (asteroids s) ++ [c1; c2] /\
       Asteroid.radius c1 = Asteroid.radius a / 2 /\
       Asteroid.radius c2 = Asteroid.radius a / 2 /\
       Asteroid.position c1 = Asteroid.position a /\
       Asteroid.position c2 = Asteroid.position a /\
       length (asteroids s') = S (length (asteroids s))) /\
  (Asteroid.radius a <= 15 ->
     asteroids s' = splice1 aIndex (asteroids s) /\
     S (length (asteroids s')) = length (asteroids s)).
Proof.
  intros Ha s'. subst s'.
  assert (Hlt : (aIndex < length (asteroids s))%nat).
  { apply nth_error_Some. congruence. }
  pose proof (splice1_length aIndex (asteroids s) Hlt) as Hlen.
  rewrite projectileHit_eq. unfold projectileHitResult, splitChildren.
  split; intro HR.
  - apply Qltb_true_iff in HR. rewrite HR. cbn [Asteroid.new asteroids].
    rewrite splice1_app by exact Hlt.
    do 2 eexists. split; [reflexivity|].
    cbn [Asteroid.radius Asteroid.position]. rewrite vec_eta.
    repeat split. rewrite length_app. cbn [length]. lia.
  - apply Qltb_false_iff in HR. rewrite HR. cbn [asteroids].
    rewrite app_nil_r. split; [reflexivity | exact Hlen].
Qed.

Lemma C3_split_on_projectile_hit_witness :
  length (asteroids (projectileHit desktop 0 0 bullet rock shooting)) = 2%nat.
Proof.
  destruct (C3_split_on_projectile_hit desktop 0 0 bullet rock shooting)
    as [Hbig _].
  - reflexivity.
  - destruct Hbig as (c1 & c2 & _ & _ & _ & _ & _ & Hlen).
    + reflexivity.
    + exact Hlen.
Defined.

(** C4, as stated, fails: with the binary64 [Math.hypot], a projectile
    whose distance to the centre of an asteroid of radius 40 is below 40
    by less than half a unit in the last place gets the distance 40 and
    does not collide. *)
Lemma C4_distance_test_refuted :
  (distance (Projectile.position grazingBullet) (Asteroid.position originRock)
   < Q2R (Asteroid.radius originRock))%R /\
  Math_hypot ieee
    (Vec.x (Projectile.position grazingBullet)
     - Vec.x (Asteroid.position originRock))
    (Vec.y (Projectile.position grazingBullet)
     - Vec.y (Asteroid.position originRock)) == 40 /\
  hitsProjectile ieee grazingBullet originRock = false /\
  ~ (forall (h : Host) (p : Projectile.t) (a : Asteroid.t),
       hitsProjectile h p a = true <->
       (distance (Projectile.position p) (Asteroid.position a)
        < Q2R (Asteroid.radius a))%R).
Proof.
  assert (Hd : (distance (Projectile.position grazingBullet)
                         (Asteroid.position originRock)
                < Q2R (Asteroid.radius originRock))%R).
  { unfold distance. apply hypot_lt_dist. vm_compute. reflexivity. }
  assert (Hm : hitsProjectile ieee grazingBullet originRock = false)
    by (vm_compute; reflexivity).
  split; [exact Hd|]. split; [vm_compute; reflexivity|].
  split; [exact Hm|].
  intro H. apply (H ieee grazingBullet originRock) in Hd.
  rewrite Hm in Hd. discriminate Hd.
Qed.

(** C4 (amended): a projectile hits an asteroid exactly when the value
    [Math.hypot] returns for the differences of their centre coordinates
    is below the asteroid's radius, which is the comparison of the real
    distance wherever that value is exact.  The inner loop runs to its
    end without effect when no asteroid is hit; otherwise it stops at the
    first hit from the back: the projectile is removed, the score grows
    by 10, ten particles appear at the projectile's position and exactly
    one of the asteroids present is removed.  The whole pass is a
    sequence of [m] such hits, each on a pair that passes the test: it
    adds [10 * m] to the score, removes [m] projectiles and leaves no
    projectile that passes the test against an asteroid. *)
Theorem C4_projectile_pass (h : Host) (pIndex : nat) (p : Projectile.t)
    (k : nat) (s : State) :
  nth_error (projectiles s) pIndex = Some p ->
  (k <= length (asteroids s))%nat ->
  (forall a,
     hitsProjectile h p a
     = Qltb (Math_hypot h
               (Vec.x (Projectile.position p) - Vec.x (Asteroid.position a))
               (Vec.y (Projectile.position p) - Vec.y (Asteroid.position a)))
            (Asteroid.radius a) /\
     (Q2R (Math_hypot h
             (Vec.x (Projectile.position p) - Vec.x (Asteroid.position a))
             (Vec.y (Projectile.position p) - Vec.y (Asteroid.position a)))
      = distance (Projectile.position p) (Asteroid.position a) ->
      (hitsProjectile h p a = true <->
       (distance (Projectile.position p) (Asteroid.position a)
        < Q2R (Asteroid.radius a))%R))) /\
  (exists s',
     asteroidLoop h pIndex (Some p) k s = Some s' /\
     (((forall j a, (j < k)%nat -> nth_error (asteroids s) j = Some a ->
                    hitsProjectile h p a = false) /\ s' = s)
      \/
      (exists j a,
         (j < k)%nat /\ nth_error (asteroids s) j = Some a /\
         hitsProjectile h p a = true /\
         (forall j' a', (j < j' < k)%nat ->
                        nth_error (asteroids s) j' = Some a' ->
                        hitsProjectile h p a' = false) /\
         projectiles s' = splice1 pIndex (projectiles s) /\
         Player.score (player s') = (Player.score (player s) + 10)%Z /\
         (exists ps,
            particles s' = particles s ++ ps /\ length ps = 10%nat /\
            Forall (fun q => Particle.position q = Projectile.position p) ps) /\
         (exists children,
            asteroids s' = splice1 j (asteroids s) ++ children)))) /\
  (exists s' m,
     projectileLoop h (length (projectiles s)) s = Some s' /\
     hits h s m s' /\
     Player.score (player s')
       = (Player.score (player s) + 10 * Z.of_nat m)%Z /\
     (length (projectiles s') + m = length (projectiles s))%nat /\
     all_miss h (projectiles s') (asteroids s')).
Proof.
  intros Hp Hk. split; [|split].
  - intro a. split; [reflexivity|]. intro E.
    unfold hitsProjectile, distance in *. now apply exact_hypot_lt.
  - destruct (asteroidLoop_spec h pIndex p k s Hk)
      as [[Hnone E] | (j & a & Hj & Ha & Hhit & Hfirst & E)].
    + exists s. split; [exact E|]. left. split; [exact Hnone | reflexivity].
    + exists (projectileHit h pIndex j p a s). split; [exact E|].
      right. exists j, a. repeat split; try assumption.
      * rewrite projectileHit_eq. unfold projectileHitResult.
        now destruct (splitChildren h a (randomCalls s)).
      * rewrite projectileHit_eq. unfold projectileHitResult.
        now destruct (splitChildren h a (randomCalls s)).
      * rewrite projectileHit_eq. unfold projectileHitResult.
        destruct (splitChildren h a (randomCalls s)) as [children n].
        cbn [particles]. eexists. split; [reflexivity|]. split.
        -- apply explosionParticles_length.
        -- apply explosionParticles_position.
      * rewrite projectileHit_eq. unfold projectileHitResult.
        destruct (splitChildren h a (randomCalls s)) as [children n].
        cbn [asteroids]. exists children. apply splice1_app. lia.
  - destruct (projectileLoop_hits h (length (projectiles s)) s (Nat.le_refl _))
      as (s' & m & E & Hh & Hc).
    { rewrite skipn_all. intros q c []. }
    destruct (hits_scored h s s' m Hh) as (P & _ & _ & _ & _ & _ & _ & N).
    exists s', m. split; [exact E|]. split; [exact Hh|].
    split; [now rewrite P|]. split; [exact N | exact Hc].
Qed.

(** A projectile inside a large asteroid on the desktop canvas: the
    inner loop removes the projectile and scores 10, and the whole pass
    is exactly one resolved hit. *)
Lemma C4_projectile_pass_witness :
  (exists s',
     asteroidLoop desktop 0 (Some bullet) 1 shooting = Some s' /\
     projectiles s' = [] /\
     Player.score (player s') = 10%Z) /\
  (exists s',
     projectileLoop desktop 1 shooting = Some s' /\
     hits desktop shooting 1 s' /\
     all_miss desktop (projectiles s') (asteroids s')).
Proof.
  destruct (C4_projectile_pass desktop 0 bullet 1 shooting)
    as (_ & (s' & E & [[Hnone _] | (j & a & Hj & Ha & _ & _ & P & S & _)])
          & (s2 & m & E2 & Hh & S2 & _ & Hm)).
  - reflexivity.
  - cbn. lia.
  - specialize (Hnone 0%nat rock). discriminate Hnone; [lia | reflexivity].
  - split.
    + exists s'. split; [exact E|]. split; [exact P | exact S].
    + exists s2. split; [exact E2|].
      assert (E3 : exists t, projectileLoop desktop 1 shooting = Some t /\
                             Player.score (player t) = 10%Z)
        by (eexists; split; [vm_compute; reflexivity | reflexivity]).
      destruct E3 as (t & E3 & S3).
      change (length (projectiles shooting)) with 1%nat in E2.
      rewrite E2 in E3. injection E3 as <-.
      rewrite S3 in S2. change (Player.score (player shooting)) with 0%Z in S2.
      assert (m = 1%nat) by lia. subst m.
      split; [exact Hh | exact Hm].
Defined.

(** C5, as stated, fails: with the binary64 [Math.hypot], a ship whose
    distance to the centre of an asteroid of radius 40 is below 55 by
    less than half a unit in the last place gets the distance 55 and is
    not hit. *)
Lemma C5_distance_test_refuted :
  (distance grazingShip (Asteroid.position originRock)
   < Q2R (Asteroid.radius originRock) + 15)%R /\
  Math_hypot ieee
    (Vec.x grazingShip - Vec.x (Asteroid.position originRock))
    (Vec.y grazingShip - Vec.y (Asteroid.position originRock)) == 55 /\
  hitsPlayer ieee grazingShip originRock = false /\
  ~ (forall (h : Host) (pos : Vec.t) (a : Asteroid.t),
       hitsPlayer h pos a = true <->
       (distance pos (Asteroid.position a)
        < Q2R (Asteroid.radius a) + 15)%R).
Proof.
  assert (Hd : (distance grazingShip (Asteroid.position originRock)
                < Q2R (Asteroid.radius originRock) + 15)%R).
  { rewrite <- Q2R_15, <- Q2R_plus.
    unfold distance. apply hypot_lt_dist. vm_compute. reflexivity. }
  assert (Hm : hitsPlayer ieee grazingShip originRock = false)
    by (vm_compute; reflexivity).
  split; [exact Hd|]. split; [vm_compute; reflexivity|].
  split; [exact Hm|].
  intro H. apply (H ieee grazingShip originRock) in Hd.
  rewrite Hm in Hd. discriminate Hd.
Qed.

(** C5 (amended): an asteroid hits the player exactly when the value
    [Math.hypot] returns for the differences of their centre coordinates
    is below the asteroid's radius plus 15, which is the comparison of
    the real distance wherever that value is exact.  Each hit takes one
    life, never leaving less than 0, raises twenty particles at the
    player's position and removes the asteroid without adding any.  The
    whole pass removes exactly the asteroids that pass the test. *)
Theorem C5_player_pass (h : Host) (s : State) :
  let pos := Player.position (player s) in
  let n := length (filter (hitsPlayer h pos) (asteroids s)) in
  (forall a,
     hitsPlayer h pos a
     = Qltb (Math_hypot h (Vec.x pos - Vec.x (Asteroid.position a))
                          (Vec.y pos - Vec.y (Asteroid.position a)))
            (Asteroid.radius a + 15) /\
     (Q2R (Math_hypot h (Vec.x pos - Vec.x (Asteroid.position a))
                        (Vec.y pos - Vec.y (Asteroid.position a)))
      = distance pos (Asteroid.position a) ->
      (hitsPlayer h pos a = true <->
       (distance pos (Asteroid.position a)
        < Q2R (Asteroid.radius a) + 15)%R))) /\
  (forall i,
     Player.lives (player (playerHit h i s))
       = Z.max 0 (Player.lives (player s) - 1) /\
     asteroids (playerHit h i s) = splice1 i (asteroids s) /\
     exists ps,
       particles (playerHit h i s) = particles s ++ ps /\
       length ps = 20%nat /\
       Forall (fun q => Particle.position q = pos) ps) /\
  (exists s' ps,
     playerLoop h (length (asteroids s)) s = Some s' /\
     asteroids s'
     = filter (fun a => negb (hitsPlayer h pos a)) (asteroids s) /\
     Player.lives (player s') = livesAfter (Player.lives (player s)) n /\
     (0 <= Player.lives (player s) -> 0 <= Player.lives (player s'))%Z /\
     particles s' = particles s ++ ps /\
     length ps = (20 * n)%nat /\
     Forall (fun q => Particle.position q = pos) ps).
Proof.
  intros pos n. split; [|split].
  - intro a. split; [reflexivity|]. intro E.
    unfold hitsPlayer, distance in *.
    rewrite <- Q2R_15, <- Q2R_plus. now apply exact_hypot_lt.
  - intro i. rewrite playerHit_eq. unfold playerPassResult.
    cbn [player asteroids particles livesAfter]. state_simpl.
    repeat split.
    eexists. split; [reflexivity|]. split.
    + apply explosionParticles_length.
    + apply explosionParticles_position.
  - destruct (playerLoop_spec h (length (asteroids s)) s (Nat.le_refl _))
      as (ps & E & Hlen & Hpos).
    rewrite firstn_all, skipn_all, app_nil_r in E.
    rewrite firstn_all in Hlen.
    eexists. exists ps. split; [exact E|].
    unfold playerPassResult. state_simpl. fold pos. fold n.
    repeat split; try assumption.
    unfold livesAfter. destruct n; lia.
Qed.

(** ** Scenarios of the specification *)

(** Scenario B: an asteroid of radius 40 at distance 10 from the ship
    costs one life, is removed and raises twenty particles. *)
Example scenario_B :
  exists s',
    checkCollisions desktop scenarioB = Some s' /\
    Player.lives (player s') = 2%Z /\
    asteroids s' = [] /\
    length (particles s') = 20%nat /\
    isGameOver s' = false.
Proof. eexists. split; [vm_compute; reflexivity | repeat split]. Qed.

(** Scenario C: a projectile inside an asteroid of radius 40 removes it,
    adds two children of radius 20, ten points and ten particles. *)
Example scenario_C :
  exists s',
    projectileLoop desktop 1 shooting = Some s' /\
    map Asteroid.radius (asteroids s') = [40 / 2; 40 / 2] /\
    projectiles s' = [] /\
    Player.score (player s') = 10%Z /\
    length (particles s') = 10%nat.
Proof. eexists. split; [vm_compute; reflexivity | repeat split]. Qed.

(** ** Spawner *)

Lemma Qfloor_eq_iff (q : Q) (k : Z) :
  Qfloor q = k <-> inject_Z k <= q < inject_Z (k + 1).
Proof.
  split.
  - intros <-. split; [apply Qfloor_le | apply Qlt_floor].
  - intros [Hlo Hhi].
    apply Qfloor_resp_le in Hlo. rewrite Qfloor_Z in Hlo.
    pose proof (Qfloor_le q) as Hf.
    assert (Hlt : inject_Z (Qfloor q) < inject_Z (k + 1))
      by (eapply Qle_lt_trans; eassumption).
    rewrite <- Zlt_Qlt in Hlt. lia.
Qed.

(** C8: [spawnAsteroid] draws the edge as the integer part of four times
    a random number of [[0, 1)], so each of the four edges has a quarter
    of that interval; it appends one asteroid of radius 40, placed 40
    units outside the canvas on that edge, whose velocity is
    [(center - spawnPoint) * 0.002] on each axis.  The spawn timer does
    nothing while the game is over. *)
Theorem C8_spawnAsteroid (h : Host) (s : State) :
  let r0 := Math_random h (randomCalls s) in
  let r1 := Math_random h (S (randomCalls s)) in
  let edge := Qfloor (r0 * 4) in
  0 <= r0 < 1 ->
  ((edge = 0 \/ edge = 1 \/ edge = 2 \/ edge = 3)%Z /\
   (forall k, edge = k <-> inject_Z k / 4 <= r0 < inject_Z (k + 1) / 4)) /\
  (exists a,
     asteroids (spawnAsteroid h s) = asteroids s ++ [a] /\
     Asteroid.radius a = 40 /\
     Asteroid.velocity a
     = Vec.mk ((canvas_width h / 2 - Vec.x (Asteroid.position a)) * 0.002)
              ((canvas_height h / 2 - Vec.y (Asteroid.position a)) * 0.002) /\
     (edge = 0%Z ->
        Asteroid.position a = Vec.mk (r1 * canvas_width h) (-40)) /\
     (edge = 1%Z ->
        Asteroid.position a = Vec.mk (canvas_width h + 40) (r1 * canvas_height h)) /\
     (edge = 2%Z ->
        Asteroid.position a = Vec.mk (r1 * canvas_width h) (canvas_height h + 40)) /\
     (edge = 3%Z ->
        Asteroid.position a = Vec.mk (-40) (r1 * canvas_height h))) /\
  (isGameOver s = true -> spawnTick h s = s) /\
  (isGameOver s = false -> spawnTick h s = spawnAsteroid h s).
Proof.
  intros r0 r1 edge [Hlo Hhi].
  assert (Hk : forall k,
             edge = k <-> inject_Z k / 4 <= r0 < inject_Z (k + 1) / 4).
  { intro k. subst edge. rewrite Qfloor_eq_iff.
    split; intros [A B]; split; qlra. }
  assert (He : (0 <= edge < 4)%Z).
  { pose proof (proj1 (Hk edge) eq_refl) as [A B].
    split.
    - assert (L : inject_Z (-1 + 1) < inject_Z (edge + 1)).
      { change (inject_Z (-1 + 1)) with 0. qlra. }
      rewrite <- Zlt_Qlt in L. lia.
    - assert (L : inject_Z edge < inject_Z 4).
      { change (inject_Z 4) with 4. qlra. }
      rewrite <- Zlt_Qlt in L. exact L. }
  split; [split; [lia | exact Hk]|]. split; [|split].
  - unfold spawnAsteroid. fold r0. fold r1. fold edge.
    destruct (Z.eqb_spec edge 0) as [E0|E0];
      [|destruct (Z.eqb_spec edge 1) as [E1|E1];
        [|destruct (Z.eqb_spec edge 2) as [E2|E2]]];
      cbn [Asteroid.new asteroids with_asteroids Asteroid.with_velocity];
      eexists; (split; [reflexivity|]);
      cbn [Asteroid.radius Asteroid.velocity Asteroid.position Vec.x Vec.y];
      repeat split; intros; first [reflexivity | lia].
  - intro G. unfold spawnTick. now rewrite G.
  - intro G. unfold spawnTick. now rewrite G.
Qed.

Lemma C8_spawnAsteroid_witness :
  exists a,
    asteroids (spawnAsteroid desktop (loaded desktop)) = [a] /\
    Asteroid.radius a = 40 /\
    Asteroid.position a = Vec.mk (0.5 * 800) (600 + 40).
Proof.
  destruct (C8_spawnAsteroid desktop (loaded desktop))
    as (_ & (a & Ha & Hr & _ & _ & _ & H2 & _) & _).
  - split; [discriminate | reflexivity].
  - exists a. split; [exact Ha | split; [exact Hr | apply H2; reflexivity]].
Defined.

(** C9: an asteroid spawned on the top (left) edge whose first velocity
    step is shorter than 40 units is still at a negative [y] ([x]) after
    the integration of its first update, and the wrap puts it at exactly
    [height] ([width]). *)
Theorem C9_top_left_spawn_teleports (h : Host) (s : State) (a : Asteroid.t) :
  0 <= canvas_width h -> 0 <= canvas_height h ->
  asteroids (spawnAsteroid h s) = asteroids s ++ [a] ->
  let edge := Qfloor (Math_random h (randomCalls s) * 4) in
  (edge = 0%Z -> Vec.y (Asteroid.velocity a) < 40 ->
     Vec.y (Asteroid.position a) = -40 /\
     Vec.y (Asteroid.position a) + Vec.y (Asteroid.velocity a) < 0 /\
     Vec.y (Asteroid.position (Asteroid.update h a)) = canvas_height h) /\
  (edge <> 0%Z -> edge <> 1%Z -> edge <> 2%Z ->
   Vec.x (Asteroid.velocity a) < 40 ->
     Vec.x (Asteroid.position a) = -40 /\
     Vec.x (Asteroid.position a) + Vec.x (Asteroid.velocity a) < 0 /\
     Vec.x (Asteroid.position (Asteroid.update h a)) = canvas_width h).
Proof.
  intros Hw Hh Hsp edge. subst edge. unfold spawnAsteroid in Hsp.
  split.
  - intros E Hv. rewrite E in Hsp. cbn in Hsp.
    apply app_inv_head in Hsp. injection Hsp as <-.
    cbn in *. split; [reflexivity|].
    assert (L : -40 + (canvas_height h / 2 - -40) * 0.002 < 0) by lra.
    split; [exact L|].
    compare_all; first [reflexivity | exfalso; lra].
  - intros E0 E1 E2 Hv.
    apply Z.eqb_neq in E0, E1, E2. rewrite E0, E1, E2 in Hsp. cbn in Hsp.
    apply app_inv_head in Hsp. injection Hsp as <-.
    cbn in *. split; [reflexivity|].
    assert (L : -40 + (canvas_width h / 2 - -40) * 0.002 < 0) by lra.
    split; [exact L|].
    compare_all; first [reflexivity | exfalso; lra].
Qed.

Lemma C9_top_left_spawn_teleports_witness :
  Vec.y (Asteroid.position
           (Asteroid.update desktopTop
              (Asteroid.mk (Vec.mk (0.1 * 800) (-40)) 40 5
                 (Vec.mk ((800 / 2 - 0.1 * 800) * 0.002)
                         ((600 / 2 - -40) * 0.002))
                 (map (fun i => Math_random desktopTop (2 + 3 + i) * 10 - 5)
                      (seq 0 5)))))
  = 600 /\
  Vec.x (Asteroid.position
           (Asteroid.update desktopLeft
              (Asteroid.mk (Vec.mk (-40) (0.9 * 600)) 40 10
                 (Vec.mk ((800 / 2 - -40) * 0.002)
                         ((600 / 2 - 0.9 * 600) * 0.002))
                 (map (fun i => Math_random desktopLeft (2 + 3 + i) * 10 - 5)
                      (seq 0 10)))))
  = 800.
Proof.
  split.
  - eapply (C9_top_left_spawn_teleports desktopTop (loaded desktopTop));
      try reflexivity; discriminate.
  - eapply (C9_top_left_spawn_teleports desktopLeft (loaded desktopLeft));
      try reflexivity; discriminate.
Defined.

(** ** The animation frame *)

Lemma particleLoop_spec (k : nat) (s : State) :
  (k <= length (particles s))%nat ->
  exists ps, particleLoop k s = Some (with_particles ps s).
Proof.
  revert s. induction k as [|i IH]; intros s Hk.
  - exists (particles s). now destruct s.
  - destruct (nth_error_in_range i (particles s)) as [q Hq]; [lia|].
    cbn [particleLoop]. rewrite Hq.
    destruct (Qle_bool (Particle.alpha q) 0).
    + destruct (IH (with_particles (splice1 i (particles s)) s)) as [ps E].
      { cbn [particles with_particles].
        pose proof (splice1_length i (particles s)). lia. }
      exists ps. rewrite E. reflexivity.
    + destruct (IH (with_particles
                      (assign i (Particle.update q) (particles s)) s))
        as [ps E].
      { cbn [particles with_particles]. rewrite assign_length; lia. }
      exists ps. rewrite E. reflexivity.
Qed.

Lemma frame_rel_refl (s : State) : frame_rel s s 0 0.
Proof.
  unfold frame_rel. rewrite gameOversAfter_0. cbn [livesAfter repeat].
  rewrite app_nil_r, orb_false_r. repeat split. lia.
Qed.

Lemma frame_rel_same (s s' : State) :
  Player.score (player s') = Player.score (player s) ->
  Player.lives (player s') = Player.lives (player s) ->
  Player.bestScore (player s') = Player.bestScore (player s) ->
  countdowns s' = countdowns s ->
  gameOverDivs s' = gameOverDivs s ->
  isGameOver s' = isGameOver s ->
  frame_rel s s' 0 0.
Proof.
  intros Hs Hl Hb Hc Hd Hg. unfold frame_rel.
  rewrite gameOversAfter_0, Hs, Hl, Hb, Hc, Hd, Hg. cbn [livesAfter repeat].
  rewrite app_nil_r, orb_false_r. repeat split. lia.
Qed.

Lemma checkCollisions_spec (h : Host) (s : State) :
  exists s' m n, checkCollisions h s = Some s' /\ frame_rel s s' m n.
Proof.
  unfold checkCollisions.
  destruct (playerLoop_spec h (length (asteroids s)) s (Nat.le_refl _))
    as (ps & E & _). cbv zeta in E. rewrite E.
  set (n := length (filter (hitsPlayer h (Player.position (player s)))
                           (firstn (length (asteroids s)) (asteroids s)))) in *.
  match goal with
  | |- context [projectileLoop h _ ?s1] =>
      destruct (projectileLoop_spec h (length (projectiles s1)) s1
                  (Nat.le_refl _))
        as (s' & m & E' & (P & G & _ & _ & D & C & _ & _) & _)
  end.
  exists s', m, n. split; [exact E'|].
  unfold frame_rel. rewrite P, G, D, C. unfold playerPassResult.
  state_simpl. repeat split.
Qed.

Lemma animate_spec (h : Host) (s : State) :
  exists s' m n, animate h s = Some s' /\ frame_rel s s' m n.
Proof.
  unfold animate. destruct (isGameOver s) eqn:G; cbn [negb].
  - exists s, 0%nat, 0%nat. split; [reflexivity | apply frame_rel_refl].
  - match goal with
    | |- context [particleLoop ?k ?s0] =>
        destruct (particleLoop_spec k s0 (Nat.le_refl _)) as [ps E];
        rewrite E;
        destruct (checkCollisions_spec h (with_particles ps s0))
          as (s' & m & n & E' & R)
    end.
    exists s', m, n. split; [exact E'|].
    unfold frame_rel in *. state_simpl. cbn [Player.update] in R.
    state_simpl. rewrite G in R. rewrite G. exact R.
Qed.

Lemma animate_empty (h : Host) (s : State) :
  isGameOver s = false -> projectiles s = [] -> asteroids s = [] ->
  particles s = [] ->
  animate h s
  = Some (with_player (Player.update h (player s))
            (with_pendingFrames (S (pendingFrames s)) s)).
Proof.
  intros G P A Q. unfold animate. rewrite G. cbn [negb].
  destruct s as [g lv ks pr ast pa pl rc gd cd pf]. state_simpl. subst.
  reflexivity.
Qed.

Lemma boot_eq (h : Host) :
  boot h = Some (with_player (Player.update h (Player.new h))
                   (with_pendingFrames 1 (loaded h))).
Proof. unfold boot. now rewrite animate_empty. Qed.

Lemma restartGame_eq (h : Host) (s : State) :
  restartGame h s = Some (restarted h s).
Proof.
  unfold restartGame. rewrite animate_empty by reflexivity.
  destruct s as [g lv ks pr ast pa pl rc gd cd pf]. destruct pl.
  reflexivity.
Qed.

Lemma checkCollisions_player (h : Host) (s s' : State) :
  checkCollisions h s = Some s' ->
  exists L S,
    player s' = Player.with_score S (Player.with_lives L (player s)).
Proof.
  unfold checkCollisions.
  destruct (playerLoop_spec h (length (asteroids s)) s (Nat.le_refl _))
    as (ps & E & _). cbv zeta in E. rewrite E.
  match goal with
  | |- context [projectileLoop h _ ?s1] =>
      destruct (projectileLoop_spec h (length (projectiles s1)) s1
                  (Nat.le_refl _)) as (s2 & m & E' & (P & _) & _)
  end.
  rewrite E'. intros [= <-]. rewrite P.
  unfold playerPassResult. cbn [player]. eauto.
Qed.

(** A frame of the running game moves the player by exactly one
    [Player.update]; collisions only touch its lives and score. *)
Lemma animate_player (h : Host) (s s' : State) :
  isGameOver s = false ->
  animate h s = Some s' ->
  Player.position (player s') = Player.position (Player.update h (player s)) /\
  Player.velocity (player s') = Player.velocity (Player.update h (player s)).
Proof.
  intros G H. unfold animate in H. rewrite G in H. cbn [negb] in H.
  match type of H with
  | context [particleLoop ?k ?s0] =>
      destruct (particleLoop_spec k s0 (Nat.le_refl _)) as [ps E];
      rewrite E in H
  end.
  apply checkCollisions_player in H. destruct H as (L & S & ->).
  split; reflexivity.
Qed.

(** ** Handlers *)

Lemma countdownTick_cases (h : Host) (id : nat) (s : State) :
  (exists c,
     nth_error (countdowns s) id = Some (Some c) /\ c <> 1%Z /\
     countdownTick h id s
     = Some (with_countdowns (assign id (Some (c - 1)%Z) (countdowns s)) s))
  \/
  (nth_error (countdowns s) id = Some (Some 1%Z) /\
   countdownTick h id s
   = Some (restarted h
             (with_countdowns (assign id None (countdowns s)) s)))
  \/
  (enabled (ECountdown id) s = false /\ countdownTick h id s = Some s).
Proof.
  unfold countdownTick, enabled.
  destruct (nth_error (countdowns s) id) as [[c|]|] eqn:E.
  - assert (Hid : (id < length (countdowns s))%nat).
    { apply nth_error_Some. congruence. }
    destruct (Z.eqb_spec (c - 1) 0) as [Hc|Hc].
    + right. left. assert (c = 1%Z) by lia. subst c.
      split; [reflexivity|].
      rewrite restartGame_eq. do 2 f_equal.
      destruct s as [g lv ks pr ast pa pl rc gd cd pf]. state_simpl.
      f_equal. unfold assign.
      rewrite firstn_app, length_firstn, firstn_firstn, Nat.min_id.
      replace (id - Nat.min id (length cd))%nat with 0%nat by lia.
      cbn [firstn]. rewrite app_nil_r. f_equal. f_equal.
      rewrite skipn_app, length_firstn.
      replace (S id - Nat.min id (length cd))%nat with 1%nat by lia.
      rewrite skipn_all2 by (rewrite length_firstn; lia).
      reflexivity.
    + left. exists c. repeat split. lia.
  - right. right. split; reflexivity.
  - right. right. split; reflexivity.
Qed.

(** No handler dies on an exception. *)
Lemma handle_total (h : Host) (e : Event) (s : State) :
  exists s', handle h e s = Some s'.
Proof.
  destruct e; cbn [handle]; eauto.
  - destruct (animate_spec h (with_pendingFrames (pred (pendingFrames s)) s))
      as (s' & _ & _ & E & _). eauto.
  - destruct (countdownTick_cases h id s)
      as [(c & _ & _ & E) | [(_ & E) | (_ & E)]]; eauto.
Qed.

Lemma spawnAsteroid_eq (h : Host) (s : State) :
  exists a n,
    spawnAsteroid h s = with_asteroids (asteroids s ++ [a])
                                       (with_randomCalls n s).
Proof.
  unfold spawnAsteroid.
  destruct (Qfloor (Math_random h (randomCalls s) * 4) =? 0)%Z;
    [|destruct (Qfloor (Math_random h (randomCalls s) * 4) =? 1)%Z;
      [|destruct (Qfloor (Math_random h (randomCalls s) * 4) =? 2)%Z]];
    cbn [Asteroid.new]; do 2 eexists; reflexivity.
Qed.

(** Every handler but a countdown firing acts on lives, score and the
    game-over machinery as some number of hits; only an animation frame
    can have any. *)
Lemma handle_frame_rel (h : Host) (e : Event) (s s' : State) :
  (forall id, e <> ECountdown id) ->
  handle h e s = Some s' ->
  exists m n, frame_rel s s' m n /\ (e <> EFrame -> m = 0%nat /\ n = 0%nat).
Proof.
  intros Hne H. destruct e; cbn [handle] in H.
  - injection H as <-. exists 0%nat, 0%nat. split; [|auto].
    destruct code; apply frame_rel_same; reflexivity.
  - injection H as <-. exists 0%nat, 0%nat. split; [|auto].
    destruct code; apply frame_rel_same; reflexivity.
  - injection H as <-. exists 0%nat, 0%nat. split; [|auto].
    unfold movementTick.
    destruct s as [g lv [[] [] []] pr ast pa pl rc gd cd pf];
      apply frame_rel_same; reflexivity.
  - injection H as <-. exists 0%nat, 0%nat. split; [|auto].
    unfold spawnTick. destruct (isGameOver s); cbn [negb].
    + apply frame_rel_refl.
    + destruct (spawnAsteroid_eq h s) as (a & n & ->).
      apply frame_rel_same; reflexivity.
  - destruct (animate_spec h (with_pendingFrames (pred (pendingFrames s)) s))
      as (s1 & m & n & E & R).
    rewrite E in H. injection H as <-.
    exists m, n. split; [exact R | congruence].
  - exfalso. exact (Hne id eq_refl).
Qed.

(** The states a run passes through are reachable. *)
Lemma run_reachable (h : Host) (evs : list Event) :
  forall s s', reachable h s -> run h evs s = Some s' -> reachable h s'.
Proof.
  induction evs as [|e evs IH]; intros s s' Hr H.
  - now injection H as <-.
  - cbn [run] in H. destruct (enabled e s) eqn:En; [|discriminate].
    destruct (handle h e s) as [s1|] eqn:He; [|discriminate].
    exact (IH s1 s' (reach_step h s e s1 Hr En He) H).
Qed.

(** ** Countdown and restart *)

(** A handler leaves [bestScore] alone, and leaves a live countdown
    alone unless it is that countdown's own firing, which decrements it
    as long as it does not reach 0. *)
Lemma handle_timer (h : Host) (e : Event) (s s' : State) (id : nat) (c : Z) :
  handle h e s = Some s' ->
  nth_error (countdowns s) id = Some (Some c) ->
  Player.bestScore (player s') = Player.bestScore (player s) /\
  (e <> ECountdown id -> nth_error (countdowns s') id = Some (Some c)) /\
  (e = ECountdown id -> c <> 1%Z ->
   nth_error (countdowns s') id = Some (Some (c - 1)%Z)).
Proof.
  intros H Hc.
  assert (Hid : (id < length (countdowns s))%nat).
  { apply nth_error_Some. congruence. }
  destruct (match e with ECountdown _ => true | _ => false end) eqn:K.
  - destruct e as [| | | | |id']; try discriminate. cbn [handle] in H.
    destruct (countdownTick_cases h id' s)
      as [(c' & Hc' & Hne & E) | [(Hc' & E) | (_ & E)]];
      rewrite E in H; injection H as <-.
    + assert (Hid' : (id' < length (countdowns s))%nat).
      { apply nth_error_Some. congruence. }
      cbn [player countdowns with_countdowns].
      split; [reflexivity|]. split.
      * intro Hd. rewrite assign_nth_error_other; [exact Hc | congruence | exact Hid'].
      * intros Hd Hc1. injection Hd as ->.
        rewrite assign_nth_error_same by exact Hid.
        congruence.
    + assert (Hid' : (id' < length (countdowns s))%nat).
      { apply nth_error_Some. congruence. }
      cbn [restarted player countdowns with_countdowns Player.update
           Player.bestScore].
      split; [reflexivity|]. split.
      * intro Hd. rewrite assign_nth_error_other; [exact Hc | congruence | exact Hid'].
      * intros Hd Hc1. injection Hd as ->. congruence.
    + split; [reflexivity|]. split.
      * intros _. exact Hc.
      * intros Hd Hc1. injection Hd as ->.
        destruct (countdownTick_cases h id s)
          as [(c' & Hc' & Hne & E') | [(Hc' & E') | (En & E')]].
        -- exfalso. unfold countdownTick in E. rewrite Hc in E.
           destruct (c - 1 =? 0)%Z eqn:Z0; [lia|].
           injection E as E. apply (f_equal countdowns) in E.
           cbn [countdowns with_countdowns] in E.
           apply (f_equal (fun l => nth_error l id)) in E.
           rewrite assign_nth_error_same in E by exact Hid.
           rewrite Hc in E. injection E as E. lia.
        -- congruence.
        -- unfold enabled in En. rewrite Hc in En. discriminate.
  - destruct (handle_frame_rel h e s s') as (m & n & R & _).
    { intros id' ->. discriminate. }
    { exact H. }
    destruct R as (_ & _ & Hb & Hcd & _).
    split; [exact Hb|]. split.
    + intros _. rewrite Hcd. rewrite nth_error_app1 by exact Hid. exact Hc.
    + intros ->. discriminate.
Qed.

Lemma run_timer (h : Host) (id : nat) (evs : list Event) :
  forall (s s1 : State) (c : Z),
    run h evs s = Some s1 ->
    nth_error (countdowns s) id = Some (Some c) ->
    (Z.of_nat (ticksOf id evs) < c)%Z ->
    nth_error (countdowns s1) id
      = Some (Some (c - Z.of_nat (ticksOf id evs))%Z) /\
    Player.bestScore (player s1) = Player.bestScore (player s).
Proof.
  induction evs as [|e evs IH]; intros s s1 c Hrun Hc Ht.
  - injection Hrun as <-. cbn. rewrite Z.sub_0_r. auto.
  - cbn [run] in Hrun.
    destruct (enabled e s); [|discriminate].
    destruct (handle h e s) as [s'|] eqn:He; [|discriminate].
    destruct (handle_timer h e s s' id c He Hc) as (Hb & Hother & Hown).
    unfold ticksOf in *. cbn [filter] in *.
    destruct e as [| | | | |id'];
      try (destruct (IH s' s1 c Hrun (Hother ltac:(discriminate)) Ht)
             as [A B]; split; [exact A | congruence]).
    destruct (Nat.eqb_spec id' id) as [->|Hne].
    + cbn [length] in *.
      destruct (IH s' s1 (c - 1)%Z Hrun) as [A B].
      * apply Hown; [reflexivity | lia].
      * lia.
      * split; [rewrite A; do 2 f_equal; lia | congruence].
    + destruct (IH s' s1 c Hrun) as [A B].
      * apply Hother. congruence.
      * exact Ht.
      * split; [exact A | congruence].
Qed.

(** A countdown firing never ends a running game. *)
Lemma countdownTick_running (h : Host) (id : nat) (s s' : State) :
  isGameOver s = false -> countdownTick h id s = Some s' ->
  isGameOver s' = false.
Proof.
  intros G H.
  destruct (countdownTick_cases h id s)
    as [(c & _ & _ & E) | [(_ & E) | (_ & E)]];
    rewrite E in H; injection H as <-; [exact G | reflexivity | exact G].
Qed.

(** The handler that ends a running game is an animation frame; it
    leaves no life, and the first countdown that its [showGameOverUI()]
    starts is a new interval holding 3. *)
Lemma game_over_entry (h : Host) (e : Event) (s0 s : State) :
  isGameOver s0 = false -> handle h e s0 = Some s -> isGameOver s = true ->
  e = EFrame /\
  Player.lives (player s) = 0%Z /\
  nth_error (countdowns s) (length (countdowns s0)) = Some (Some 3%Z) /\
  (gameOverDivs s0 < gameOverDivs s)%nat /\
  Player.bestScore (player s) = Player.bestScore (player s0).
Proof.
  intros G0 H G.
  destruct (match e with ECountdown _ => true | _ => false end) eqn:K.
  - destruct e as [| | | | |id]; try discriminate. cbn [handle] in H.
    pose proof (countdownTick_running h id s0 s G0 H). congruence.
  - destruct (handle_frame_rel h e s0 s) as (m & n & R & Hm).
    { intros id ->. discriminate. }
    { exact H. }
    destruct R as (_ & Hl & Hb & Hcd & Hd & Hg).
    rewrite G0, G in Hg. cbn [orb] in Hg.
    set (t := gameOversAfter (Player.lives (player s0)) n) in *.
    assert (Ht : (1 <= t)%nat).
    { destruct t; [discriminate | lia]. }
    assert (Hn : (1 <= Z.of_nat n)%Z /\ (Player.lives (player s0) <= Z.of_nat n)%Z).
    { unfold t, gameOversAfter in Ht. lia. }
    split.
    { destruct e; try reflexivity;
        destruct Hm as [_ Hn0]; try discriminate; subst n; cbn in Hn; lia. }
    split.
    { rewrite Hl. unfold livesAfter. destruct n; [cbn in Hn; lia | lia]. }
    split.
    { rewrite Hcd, nth_error_app2, Nat.sub_diag by lia.
      destruct t; [lia | reflexivity]. }
    split; [lia | exact Hb].
Qed.

(** C6: the game is over.  The handler that ended the running game is an
    animation frame whose collision pass took the last life and called
    [showGameOverUI()], which adds a game-over element and starts a
    countdown at 3.  That countdown only decrements on its first two
    firings; whatever else happens in between, its third firing runs the
    restart: the game is running again with 3 lives, score 0, no
    asteroid, projectile or particle, the player at the centre of the
    canvas with no velocity, and [bestScore] as it was before the game
    was over. *)
Theorem C6_restart_after_three_ticks (h : Host) (e : Event)
    (s0 s s1 : State) (evs : list Event) :
  0 <= canvas_width h -> 0 <= canvas_height h ->
  isGameOver s0 = false ->
  handle h e s0 = Some s ->
  isGameOver s = true ->
  run h evs s = Some s1 ->
  ticksOf (length (countdowns s0)) evs = 2%nat ->
  let id := length (countdowns s0) in
  (e = EFrame /\
   Player.lives (player s) = 0%Z /\
   (gameOverDivs s0 < gameOverDivs s)%nat /\
   nth_error (countdowns s) id = Some (Some 3%Z)) /\
  (forall s2,
     showGameOverUI s2
     = with_countdowns (countdowns s2 ++ [Some 3%Z])
         (with_gameOverDivs (S (gameOverDivs s2)) s2)) /\
  (forall s2 c,
     nth_error (countdowns s2) id = Some (Some c) -> c <> 1%Z ->
     handle h (ECountdown id) s2
     = Some (with_countdowns (assign id (Some (c - 1)%Z) (countdowns s2)) s2)) /\
  enabled (ECountdown id) s1 = true /\
  exists s',
    handle h (ECountdown id) s1 = Some s' /\
    isGameOver s' = false /\
    Player.lives (player s') = 3%Z /\
    Player.score (player s') = 0%Z /\
    asteroids s' = [] /\ projectiles s' = [] /\ particles s' = [] /\
    Vec.x (Player.position (player s')) == canvas_width h / 2 /\
    Vec.y (Player.position (player s')) == canvas_height h / 2 /\
    Vec.x (Player.velocity (player s')) == 0 /\
    Vec.y (Player.velocity (player s')) == 0 /\
    Player.bestScore (player s') = Player.bestScore (player s0).
Proof.
  intros Hw Hh G0 He G Hrun Ht id.
  destruct (game_over_entry h e s0 s G0 He G) as (Ee & Hl & Hc & Hd & Hb).
  fold id in Hc, Ht.
  split; [repeat split; assumption|].
  split; [reflexivity|].
  split; [|split].
  - intros s2 c Hc2 Hne. cbn [handle].
    destruct (countdownTick_cases h id s2)
      as [(c' & Hc' & _ & E) | [(Hc' & _) | (En & _)]].
    + congruence.
    + congruence.
    + unfold enabled in En. rewrite Hc2 in En. discriminate.
  - destruct (run_timer h id evs s s1 3 Hrun Hc) as [A _]; [lia|].
    unfold enabled. now rewrite A.
  - destruct (run_timer h id evs s s1 3 Hrun Hc) as [A B]; [lia|].
    rewrite Ht in A. change (3 - Z.of_nat 2)%Z with 1%Z in A.
    cbn [handle].
    destruct (countdownTick_cases h id s1)
      as [(c' & Hc' & Hne & _) | [(_ & E) | (En & _)]].
    + congruence.
    + eexists. split; [exact E|].
      cbn [restarted isGameOver player asteroids projectiles particles
           Player.update Player.lives Player.score Player.position
           Player.velocity Player.bestScore Vec.x Vec.y with_countdowns].
      repeat split; try (rewrite B; exact Hb).
      * pose proof (wrap_axis (canvas_width h) (canvas_width h / 2 + 0) Hw)
          as [_ (_ & _ & K)].
        cbv zeta in K. rewrite K; qlra.
      * pose proof (wrap_axis (canvas_height h) (canvas_height h / 2 + 0) Hh)
          as [_ (_ & _ & K)].
        cbv zeta in K. rewrite K; qlra.
    + unfold enabled in En. rewrite A in En. discriminate.
Qed.

(** On the small canvas two asteroids hit the ship in the first frame
    and a third one in the second; that frame ends the game, and the
    third firing of the countdown it started restarts it, with a frame,
    a key, a spawn tick and a movement tick in between. *)
Lemma C6_restart_after_three_ticks_witness :
  let s0 := the small (run small [ESpawn; ESpawn; EFrame; ESpawn]
                           (the small (boot small))) in
  let s := the small (handle small EFrame s0) in
  let evs := [EFrame; ECountdown 0; EKeyDown Space; ESpawn; ECountdown 0;
              EMovement] in
  let s1 := the small (run small evs s) in
  reachable small s0 /\
  enabled EFrame s0 = true /\
  isGameOver s0 = false /\
  isGameOver s = true /\
  exists s',
    handle small (ECountdown 0) s1 = Some s' /\
    isGameOver s' = false /\
    Player.lives (player s') = 3%Z /\
    Player.score (player s') = 0%Z /\
    asteroids s' = [] /\ projectiles s' = [] /\ particles s' = [].
Proof.
  intros s0 s evs s1.
  split.
  { apply (run_reachable small [ESpawn; ESpawn; EFrame; ESpawn]
             (the small (boot small))).
    - apply reach_boot. reflexivity.
    - vm_compute. reflexivity. }
  split; [vm_compute; reflexivity|].
  split; [vm_compute; reflexivity|].
  split; [vm_compute; reflexivity|].
  destruct (C6_restart_after_three_ticks small EFrame s0 s s1 evs)
    as (_ & _ & _ & _ & s' & E & G & L & S & A & P & Q & _).
  - discriminate.
  - discriminate.
  - vm_compute. reflexivity.
  - vm_compute. reflexivity.
  - vm_compute. reflexivity.
  - vm_compute. reflexivity.
  - vm_compute. reflexivity.
  - exists s'. repeat split; assumption.
Defined.

(** ** The game-over state always has a countdown running *)

Lemma nth_error_snoc_repeat {A} (l : list A) (x : A) (t id : nat) (y : A) :
  nth_error (l ++ repeat x t) id = Some y ->
  nth_error l id = Some y \/ y = x.
Proof.
  intro H. destruct (Nat.lt_ge_cases id (length l)) as [Hlt|Hge].
  - left. now rewrite nth_error_app1 in H.
  - right. rewrite nth_error_app2 in H by exact Hge.
    apply nth_error_In in H. now apply repeat_spec in H.
Qed.

Lemma handle_countdowns (h : Host) (e : Event) (s s' : State) :
  enabled e s = true ->
  handle h e s = Some s' ->
  countdowns_ok s /\ (isGameOver s = true -> counting s) ->
  countdowns_ok s' /\ (isGameOver s' = true -> counting s').
Proof.
  intros En H [Hok Hgo].
  destruct (match e with ECountdown _ => true | _ => false end) eqn:K.
  - destruct e as [| | | | |id]; try discriminate. cbn [handle] in H.
    destruct (countdownTick_cases h id s)
      as [(c & Hc & Hne & E) | [(Hc & E) | (Hdis & _)]];
      [| |congruence]; rewrite E in H; injection H as <-;
      assert (Hid : (id < length (countdowns s))%nat)
        by (apply nth_error_Some; congruence).
    + split.
      * intros id' c'. cbn [countdowns with_countdowns].
        destruct (Nat.eq_dec id id') as [<-|Hd].
        -- rewrite assign_nth_error_same by exact Hid. intros [= <-].
           specialize (Hok id c Hc). lia.
        -- rewrite assign_nth_error_other by assumption. apply Hok.
      * intros _. exists id, (c - 1)%Z. cbn [countdowns with_countdowns].
        now rewrite assign_nth_error_same.
    + split; [|discriminate].
      intros id' c'. cbn [restarted countdowns with_countdowns].
      destruct (Nat.eq_dec id id') as [<-|Hd].
      * rewrite assign_nth_error_same by exact Hid. discriminate.
      * rewrite assign_nth_error_other by assumption. apply Hok.
  - destruct (handle_frame_rel h e s s') as (m & n & R & _).
    { intros id ->. discriminate. }
    { exact H. }
    destruct R as (_ & _ & _ & Hcd & _ & Hg). split.
    + intros id c Hc. rewrite Hcd in Hc.
      destruct (nth_error_snoc_repeat _ _ _ _ _ Hc) as [Hc'|Hc'].
      * exact (Hok id c Hc').
      * injection Hc' as ->. lia.
    + rewrite Hg. intro G. apply orb_true_iff in G. destruct G as [G|G].
      * destruct (Hgo G) as (id & c & Hc).
        exists id, c. rewrite Hcd. rewrite nth_error_app1; [exact Hc|].
        apply nth_error_Some. congruence.
      * destruct (gameOversAfter (Player.lives (player s)) n) as [|t];
          [discriminate|].
        exists (length (countdowns s)), 3%Z. rewrite Hcd.
        rewrite nth_error_app2, Nat.sub_diag by lia. reflexivity.
Qed.

(** Whenever the game is over some countdown is live, so that the
    restart of C6 is always on its way. *)
Lemma reachable_game_over_counting (h : Host) (s : State) :
  reachable h s ->
  countdowns_ok s /\ (isGameOver s = true -> counting s).
Proof.
  induction 1 as [s E | s e s' _ IH En He].
  - rewrite boot_eq in E. injection E as <-. split.
    + intros [|id] c; discriminate.
    + discriminate.
  - exact (handle_countdowns h e s s' En He IH).
Qed.

(** ** Score and lives over the runs of the game *)

(** What a handler does to the score: it adds 10 for each of some
    number of projectile hits, which only an animation frame can have,
    or it is a countdown firing that restarts the game and leaves the
    score at 0. *)
Lemma handle_score (h : Host) (e : Event) (s s' : State) :
  handle h e s = Some s' ->
  (exists m,
     Player.score (player s')
       = (Player.score (player s) + 10 * Z.of_nat m)%Z /\
     (m <> 0%nat -> e = EFrame))
  \/
  (exists id, e = ECountdown id /\ Player.score (player s') = 0%Z).
Proof.
  intro H.
  destruct (match e with ECountdown _ => true | _ => false end) eqn:K.
  - destruct e as [| | | | |id]; try discriminate. cbn [handle] in H.
    destruct (countdownTick_cases h id s)
      as [(c & _ & _ & E) | [(_ & E) | (_ & E)]];
      rewrite E in H; injection H as <-.
    + left. exists 0%nat. split; [cbn; lia | congruence].
    + right. exists id. split; reflexivity.
    + left. exists 0%nat. split; [cbn; lia | congruence].
  - destruct (handle_frame_rel h e s s') as (m & n & R & Hm).
    { intros id ->. discriminate. }
    { exact H. }
    left. exists m. split; [apply R|].
    intros Hne. destruct e; try reflexivity;
      destruct Hm as [Hm _]; congruence.
Qed.

Lemma reachable_score (h : Host) (s : State) :
  reachable h s ->
  exists k, Player.score (player s) = (10 * Z.of_nat k)%Z.
Proof.
  induction 1 as [s E | s e s' _ IH _ He].
  - exists 0%nat. rewrite boot_eq in E. injection E as <-. reflexivity.
  - destruct IH as [k Hk].
    destruct (handle_score h e s s' He) as [(m & Hm & _) | (id & _ & H0)].
    + exists (k + m)%nat. lia.
    + exists 0%nat. rewrite H0. reflexivity.
Qed.

(** Lives stay between 0 and 3, and only the restart raises them. *)
Lemma handle_lives (h : Host) (e : Event) (s s' : State) :
  (0 <= Player.lives (player s) <= 3)%Z ->
  handle h e s = Some s' ->
  (0 <= Player.lives (player s') <= 3)%Z /\
  ((Player.lives (player s') <= Player.lives (player s))%Z \/
   (exists id, e = ECountdown id /\ Player.lives (player s') = 3%Z)).
Proof.
  intros Hl H.
  destruct (match e with ECountdown _ => true | _ => false end) eqn:K.
  - destruct e as [| | | | |id]; try discriminate. cbn [handle] in H.
    destruct (countdownTick_cases h id s)
      as [(c & _ & _ & E) | [(_ & E) | (_ & E)]];
      rewrite E in H; injection H as <-.
    + cbn [player with_countdowns]. split; [exact Hl | left; lia].
    + cbn [restarted player Player.update Player.lives].
      split; [lia | right; eauto].
    + split; [exact Hl | left; lia].
  - destruct (handle_frame_rel h e s s') as (m & n & R & _).
    { intros id ->. discriminate. }
    { exact H. }
    destruct R as (_ & -> & _). unfold livesAfter.
    destruct n; split; try lia; left; lia.
Qed.

Lemma reachable_lives (h : Host) (s : State) :
  reachable h s -> (0 <= Player.lives (player s) <= 3)%Z.
Proof.
  induction 1 as [s E | s e s' _ IH _ He].
  - rewrite boot_eq in E. injection E as <-. cbn. lia.
  - exact (proj1 (handle_lives h e s s' IH He)).
Qed.

(** C1 fails on the code: on the last life, two asteroids that reach the
    ship in the same frame each run the game-over branch; the frame ends
    with two game-over elements and two live countdowns, and once both
    countdowns have run out two animation loops are pending. *)
Theorem C1_game_over_entered_twice :
  let s0 := the small (boot small) in
  let s1 := the small (run small [ESpawn; ESpawn; EFrame; ESpawn; ESpawn] s0) in
  let s2 := the small (handle small EFrame s1) in
  let s3 := the small (run small [EFrame;
                                  ECountdown 0; ECountdown 0; ECountdown 0;
                                  ECountdown 1; ECountdown 1; ECountdown 1]
                           s2) in
  boot small = Some s0 /\
  run small [ESpawn; ESpawn; EFrame; ESpawn; ESpawn] s0 = Some s1 /\
  (isGameOver s1 = false /\ Player.lives (player s1) = 1%Z /\
   gameOverDivs s1 = 0%nat /\ countdowns s1 = [] /\
   length (asteroids s1) = 2%nat) /\
  enabled EFrame s1 = true /\ handle small EFrame s1 = Some s2 /\
  (isGameOver s2 = true /\ Player.lives (player s2) = 0%Z /\
   gameOverDivs s2 = 2%nat /\ countdowns s2 = [Some 3%Z; Some 3%Z]) /\
  run small [EFrame;
             ECountdown 0; ECountdown 0; ECountdown 0;
             ECountdown 1; ECountdown 1; ECountdown 1] s2 = Some s3 /\
  (isGameOver s3 = false /\ pendingFrames s3 = 2%nat).
Proof.
  vm_compute. repeat split.
Qed.

(** * Further properties of the script *)

(** ** Construction of asteroids *)

Lemma Qfloor_range (q : Q) (lo hi : Z) :
  inject_Z lo <= q -> q < inject_Z hi -> (lo <= Qfloor q < hi)%Z.
Proof.
  intros Hlo Hhi. split.
  - apply Qfloor_resp_le in Hlo. now rewrite Qfloor_Z in Hlo.
  - pose proof (Qfloor_le q) as Hf.
    assert (L : inject_Z (Qfloor q) < inject_Z hi)
      by (eapply Qle_lt_trans; eassumption).
    now rewrite <- Zlt_Qlt in L.
Qed.

(** With random numbers in [[0, 1)], a new asteroid has between 5 and 10
    sides, one jagged-edge offset per side, each in [[-5, 5)], and a
    drift in [[-0.5, 0.5)] on each axis; its construction draws
    [3 + sides] random numbers. *)
Theorem asteroid_new_ranges (h : Host) (n : nat) (pos : Vec.t) (r : Q) :
  random_unit h ->
  let a := fst (Asteroid.new h n pos r) in
  (5 <= Asteroid.sides a <= 10)%Z /\
  length (Asteroid.offsets a) = Z.to_nat (Asteroid.sides a) /\
  Forall (fun o => -5 <= o < 5) (Asteroid.offsets a) /\
  -0.5 <= Vec.x (Asteroid.velocity a) < 0.5 /\
  -0.5 <= Vec.y (Asteroid.velocity a) < 0.5 /\
  snd (Asteroid.new h n pos r) = (n + 3 + Z.to_nat (Asteroid.sides a))%nat.
Proof.
  intros Hr a. subst a.
  cbn [Asteroid.new fst snd Asteroid.sides Asteroid.offsets Asteroid.velocity
       Vec.x Vec.y].
  pose proof (Hr n) as H0. pose proof (Hr (n + 1)%nat) as H1.
  pose proof (Hr (n + 2)%nat) as H2.
  assert (Hs : (0 <= Qfloor (Math_random h n * 6) < 6)%Z).
  { apply Qfloor_range.
    - change (inject_Z 0) with 0. lra.
    - change (inject_Z 6) with 6. lra. }
  split; [lia|]. split; [now rewrite length_map, length_seq|].
  split; [|repeat split; lra].
  apply Forall_forall. intros o Ho. apply in_map_iff in Ho.
  destruct Ho as (i & <- & _). pose proof (Hr (n + 3 + i)%nat). lra.
Qed.

Lemma asteroid_new_ranges_witness :
  (5 <= Asteroid.sides (fst (Asteroid.new desktop 0 (Vec.mk 0 0) 40)) <= 10)%Z.
Proof.
  apply (asteroid_new_ranges desktop 0 (Vec.mk 0 0) 40).
  intro i. split; [discriminate | reflexivity].
Defined.

(** ** First update of an asteroid spawned on the bottom or right edge *)

(** An asteroid spawned on the bottom (right) edge whose first velocity
    step is shorter than 40 units is still beyond [height] ([width])
    after the integration of its first update, and the wrap puts it at
    exactly 0. *)
Theorem bottom_right_spawn_teleports (h : Host) (s : State) (a : Asteroid.t) :
  asteroids (spawnAsteroid h s) = asteroids s ++ [a] ->
  let edge := Qfloor (Math_random h (randomCalls s) * 4) in
  (edge = 2%Z -> -40 < Vec.y (Asteroid.velocity a) ->
     Vec.y (Asteroid.position a) = canvas_height h + 40 /\
     canvas_height h
       < Vec.y (Asteroid.position a) + Vec.y (Asteroid.velocity a) /\
     Vec.y (Asteroid.position (Asteroid.update h a)) = 0) /\
  (edge = 1%Z -> -40 < Vec.x (Asteroid.velocity a) ->
     Vec.x (Asteroid.position a) = canvas_width h + 40 /\
     canvas_width h
       < Vec.x (Asteroid.position a) + Vec.x (Asteroid.velocity a) /\
     Vec.x (Asteroid.position (Asteroid.update h a)) = 0).
Proof.
  intros Hsp edge. subst edge. unfold spawnAsteroid in Hsp.
  split; intros E Hv; rewrite E in Hsp; cbn in Hsp;
    apply app_inv_head in Hsp; injection Hsp as <-;
    cbn [Asteroid.with_velocity Asteroid.position Asteroid.velocity
         Asteroid.update Vec.x Vec.y] in *;
    (split; [reflexivity|]).
  - assert (L : canvas_height h
                < canvas_height h + 40
                  + (canvas_height h / 2 - (canvas_height h + 40)) * 0.002)
      by lra.
    split; [exact L|].
    apply Qltb_true_iff in L. rewrite L.
    now replace (Qltb 0 0) with false by reflexivity.
  - assert (L : canvas_width h
                < canvas_width h + 40
                  + (canvas_width h / 2 - (canvas_width h + 40)) * 0.002)
      by lra.
    split; [exact L|].
    apply Qltb_true_iff in L. rewrite L.
    now replace (Qltb 0 0) with false by reflexivity.
Qed.

Lemma bottom_right_spawn_teleports_witness :
  Vec.y (Asteroid.position
           (Asteroid.update desktop
              (Asteroid.mk (Vec.mk (0.5 * 800) (600 + 40)) 40 8
                 (Vec.mk ((800 / 2 - 0.5 * 800) * 0.002)
                         ((600 / 2 - (600 + 40)) * 0.002))
                 (map (fun i => Math_random desktop (2 + 3 + i) * 10 - 5)
                      (seq 0 8)))))
  = 0 /\
  Vec.x (Asteroid.position
           (Asteroid.update desktopRight
              (Asteroid.mk (Vec.mk (800 + 40) (0.3 * 600)) 40 6
                 (Vec.mk ((800 / 2 - (800 + 40)) * 0.002)
                         ((600 / 2 - 0.3 * 600) * 0.002))
                 (map (fun i => Math_random desktopRight (2 + 3 + i) * 10 - 5)
                      (seq 0 6)))))
  = 0.
Proof.
  split.
  - eapply (bottom_right_spawn_teleports desktop (loaded desktop));
      reflexivity.
  - eapply (bottom_right_spawn_teleports desktopRight (loaded desktopRight));
      reflexivity.
Defined.

(** ** Projectiles never turn back *)

(** A projectile keeps its velocity and its radius, and it is never
    wrapped: along each axis its coordinate never decreases from one
    update to the next, nor from the start, while the velocity component
    is not negative, and never increases while it is not positive. *)
Theorem projectile_never_turns_back (p : Projectile.t) (N : nat) :
  let q := Nat.iter N Projectile.update p in
  let q' := Nat.iter (S N) Projectile.update p in
  Projectile.velocity q = Projectile.velocity p /\
  Projectile.radius q = Projectile.radius p /\
  (0 <= Vec.x (Projectile.velocity p) ->
   Vec.x (Projectile.position p) <= Vec.x (Projectile.position q) /\
   Vec.x (Projectile.position q) <= Vec.x (Projectile.position q')) /\
  (Vec.x (Projectile.velocity p) <= 0 ->
   Vec.x (Projectile.position q) <= Vec.x (Projectile.position p) /\
   Vec.x (Projectile.position q') <= Vec.x (Projectile.position q)) /\
  (0 <= Vec.y (Projectile.velocity p) ->
   Vec.y (Projectile.position p) <= Vec.y (Projectile.position q) /\
   Vec.y (Projectile.position q) <= Vec.y (Projectile.position q')) /\
  (Vec.y (Projectile.velocity p) <= 0 ->
   Vec.y (Projectile.position q) <= Vec.y (Projectile.position p) /\
   Vec.y (Projectile.position q') <= Vec.y (Projectile.position q)).
Proof.
  cbv zeta. rewrite Nat.iter_succ.
  induction N as [|N (IHv & IHr & IHx & IHx' & IHy & IHy')].
  - cbn. repeat split; lra.
  - rewrite Nat.iter_succ.
    set (q := Nat.iter N Projectile.update p) in *.
    cbn [Projectile.update Projectile.position Projectile.velocity
         Projectile.radius Vec.x Vec.y] in *.
    rewrite IHv.
    split; [reflexivity|]. split; [exact IHr|].
    split; [|split; [|split]]; intro H.
    + specialize (IHx H). lra.
    + specialize (IHx' H). lra.
    + specialize (IHy H). lra.
    + specialize (IHy' H). lra.
Qed.

(** A projectile fired to the right from the middle of the desktop
    canvas is beyond the right edge after 90 updates and carries on. *)
Lemma projectile_never_turns_back_witness :
  let p := Projectile.new desktop (Vec.mk 400 300) 0 in
  800 < Vec.x (Projectile.position (Nat.iter 90 Projectile.update p)) /\
  Vec.x (Projectile.position (Nat.iter 90 Projectile.update p))
  <= Vec.x (Projectile.position (Nat.iter 91 Projectile.update p)).
Proof.
  intro p.
  destruct (projectile_never_turns_back p 90) as (_ & _ & Hx & _).
  split; [vm_compute; reflexivity|].
  apply Hx. vm_compute. discriminate.
Defined.

(** ** Particles fade out *)

Lemma particle_alpha (p : Particle.t) (N : nat) :
  Particle.alpha (Nat.iter N Particle.update p)
  == Particle.alpha p - inject_Z (Z.of_nat N) * 0.01.
Proof.
  induction N as [|N IH].
  - cbn. ring.
  - rewrite Nat.iter_succ. cbn [Particle.update Particle.alpha].
    rewrite IH, Nat2Z.inj_succ. unfold Z.succ.
    rewrite inject_Z_plus. change (inject_Z 1) with 1. ring.
Qed.

(** A particle created with [alpha = 1] is still visible after [N]
    updates exactly when [N < 100]: it is drawn in 100 frames and removed
    by the frame after. *)
Theorem particle_lifetime (p : Particle.t) (N : nat) :
  Particle.alpha p = 1 ->
  (visible (Nat.iter N Particle.update p) = true <-> (N < 100)%nat).
Proof.
  intro Ha. unfold visible. rewrite negb_true_iff.
  pose proof (particle_alpha p N) as HN. rewrite Ha in HN.
  split.
  - intro Hv.
    destruct (Nat.lt_ge_cases N 100) as [Hlt|Hge]; [exact Hlt|exfalso].
    assert (L : Particle.alpha (Nat.iter N Particle.update p) <= 0).
    { rewrite HN.
      assert (I : inject_Z 100 <= inject_Z (Z.of_nat N))
        by (rewrite <- Zle_Qle; lia).
      change (inject_Z 100) with 100 in I. lra. }
    apply Qle_bool_iff in L. congruence.
  - intro Hlt.
    destruct (Qle_bool (Particle.alpha (Nat.iter N Particle.update p)) 0)
      eqn:E; [exfalso|reflexivity].
    apply Qle_bool_iff in E. rewrite HN in E.
    assert (I : inject_Z (Z.of_nat N) <= inject_Z 99)
      by (rewrite <- Zle_Qle; lia).
    change (inject_Z 99) with 99 in I. lra.
Qed.

Lemma particle_lifetime_witness :
  visible (Nat.iter 99 Particle.update
             (Particle.mk (Vec.mk 0 0) (Vec.mk 1 1) 2 1)) = true.
Proof.
  apply (particle_lifetime (Particle.mk (Vec.mk 0 0) (Vec.mk 1 1) 2 1) 99).
  - reflexivity.
  - lia.
Defined.

(** ** The particle loop *)

Lemma assign_firstn {A} (i : nat) (v : A) (l : list A) :
  (i <= length l)%nat -> firstn i (assign i v l) = firstn i l.
Proof.
  intro H. unfold assign.
  rewrite firstn_app, length_firstn, firstn_firstn, Nat.min_id.
  replace (i - Nat.min i (length l))%nat with 0%nat by lia.
  rewrite firstn_0. apply app_nil_r.
Qed.

Lemma assign_skipn {A} (i : nat) (v : A) (l : list A) :
  (i < length l)%nat -> skipn i (assign i v l) = v :: skipn (S i) l.
Proof.
  intro H. unfold assign.
  rewrite skipn_app, length_firstn, Nat.min_l, Nat.sub_diag by lia.
  rewrite skipn_all2 by (rewrite length_firstn; lia). reflexivity.
Qed.

Lemma with_particles_twice (ps ps' : list Particle.t) (s : State) :
  with_particles ps (with_particles ps' s) = with_particles ps s.
Proof. reflexivity. Qed.

Lemma particleLoop_prefix (k : nat) (s : State) :
  (k <= length (particles s))%nat ->
  particleLoop k s
  = Some (with_particles
            (map Particle.update (filter visible (firstn k (particles s)))
             ++ skipn k (particles s)) s).
Proof.
  revert s. induction k as [|i IH]; intros s Hk.
  - cbn. now destruct s.
  - destruct (nth_error_in_range i (particles s)) as [q Hq]; [lia|].
    cbn [particleLoop]. rewrite Hq.
    rewrite (firstn_S_nth _ _ _ Hq), filter_snoc. unfold visible at 2.
    destruct (Qle_bool (Particle.alpha q) 0); cbn [negb].
    + rewrite IH.
      * cbn [particles with_particles].
        rewrite splice1_firstn, splice1_skipn, app_nil_r by lia.
        reflexivity.
      * cbn [particles with_particles].
        pose proof (splice1_length i (particles s)). lia.
    + rewrite IH.
      * cbn [particles with_particles].
        rewrite assign_firstn, assign_skipn, map_app, <- app_assoc by lia.
        reflexivity.
      * cbn [particles with_particles]. rewrite assign_length; lia.
Qed.

(** The particle loop of a frame drops the particles that have faded out
    ([alpha <= 0]) and updates each of the others once, keeping their
    order; it touches nothing else. *)
Theorem particleLoop_prunes_then_updates (s : State) :
  particleLoop (length (particles s)) s
  = Some (with_particles
            (map Particle.update (filter visible (particles s))) s).
Proof.
  rewrite particleLoop_prefix by lia.
  now rewrite firstn_all, skipn_all, app_nil_r.
Qed.

(** ** Explosions *)

(** With random numbers in [[0, 1)], [createExplosion(position, count)]
    appends exactly [count] particles, all at [position], fully opaque
    and of radius between 1 and 3; it draws [3 * count] random numbers
    and changes nothing else. *)
Theorem createExplosion_particles (h : Host) (pos : Vec.t) (count : nat)
    (s : State) :
  random_unit h ->
  exists ps,
    createExplosion h pos count s
    = with_particles (particles s ++ ps)
        (with_randomCalls (3 * count + randomCalls s) s) /\
    length ps = count /\
    Forall (fun p => Particle.position p = pos /\ Particle.alpha p = 1 /\
                     1 <= Particle.radius p <= 3) ps.
Proof.
  intro Hr. exists (explosionParticles h pos count (randomCalls s)).
  split; [apply createExplosion_eq|].
  split; [apply explosionParticles_length|].
  generalize (randomCalls s). induction count as [|count IH]; intro n.
  - constructor.
  - cbn [explosionParticles Particle.new fst]. constructor; [|apply IH].
    cbn [Particle.position Particle.alpha Particle.radius].
    pose proof (Hr (S (S n))). rewrite vec_eta. repeat split; lra.
Qed.

Lemma createExplosion_particles_witness :
  exists ps,
    createExplosion desktop (Vec.mk 1 2) 10 (loaded desktop)
    = with_particles ps (with_randomCalls 30 (loaded desktop)) /\
    length ps = 10%nat.
Proof.
  destruct (createExplosion_particles desktop (Vec.mk 1 2) 10 (loaded desktop))
    as (ps & E & L & _).
  - intro i. split; [discriminate | reflexivity].
  - exists ps. split; [exact E | exact L].
Defined.

(** ** No handler throws *)

(** The loops that remove elements while they iterate never read outside
    their array: collision detection, the animation frame and every
    handler finish normally from every state. *)
Theorem no_uncaught_exception (h : Host) (s : State) :
  (exists s', checkCollisions h s = Some s') /\
  (exists s', animate h s = Some s') /\
  (forall id, exists s', countdownTick h id s = Some s') /\
  (forall e, exists s', handle h e s = Some s').
Proof.
  split; [|split; [|split]].
  - destruct (checkCollisions_spec h s) as (s' & _ & _ & E & _). eauto.
  - destruct (animate_spec h s) as (s' & _ & _ & E & _). eauto.
  - intro id. exact (handle_total h (ECountdown id) s).
  - intro e. apply handle_total.
Qed.

(** ** What a frame leaves alone *)

Lemma checkCollisions_frame (h : Host) (s s' : State) :
  checkCollisions h s = Some s' ->
  level s' = level s /\ keys s' = keys s /\
  pendingFrames s' = pendingFrames s /\
  exists L S,
    player s' = Player.with_score S (Player.with_lives L (player s)).
Proof.
  intro H. split; [|split; [|split]];
    [| | |exact (checkCollisions_player h s s' H)];
    unfold checkCollisions in H;
    destruct (playerLoop_spec h (length (asteroids s)) s (Nat.le_refl _))
      as (ps & E & _); cbv zeta in E; rewrite E in H;
    match type of H with
    | context [projectileLoop h _ ?s1] =>
        destruct (projectileLoop_spec h (length (projectiles s1)) s1
                    (Nat.le_refl _))
          as (s2 & m & E' & (_ & _ & Lv & Ks & _ & _ & Pf & _) & _)
    end;
    rewrite E' in H; injection H as <-;
    [exact Lv | exact Ks | exact Pf].
Qed.

Lemma animate_frame (h : Host) (s s' : State) :
  animate h s = Some s' ->
  level s' = level s /\ keys s' = keys s /\
  Player.isThrusting (player s') = Player.isThrusting (player s) /\
  Player.rotation (player s') = Player.rotation (player s) /\
  pendingFrames s'
  = (if isGameOver s then pendingFrames s else S (pendingFrames s)).
Proof.
  intro H. unfold animate in H. destruct (isGameOver s); cbn [negb] in H.
  - injection H as <-. repeat split.
  - match type of H with
    | context [particleLoop ?k ?s0] =>
        destruct (particleLoop_spec k s0 (Nat.le_refl _)) as [ps E];
        rewrite E in H
    end.
    apply checkCollisions_frame in H.
    destruct H as (Lv & Ks & Pf & L & S & P).
    rewrite Lv, Ks, Pf, P. repeat split.
Qed.

(** ** Thruster flag, level and best score *)

Lemma handle_thrust (h : Host) (e : Event) (s s' : State) :
  handle h e s = Some s' ->
  Player.isThrusting (player s) = key_w (keys s) ->
  Player.isThrusting (player s') = key_w (keys s').
Proof.
  intros H Hi. destruct e; cbn [handle] in H.
  - injection H as <-. destruct code; cbn; auto.
  - injection H as <-. destruct code; cbn; auto.
  - injection H as <-. unfold movementTick.
    destruct s as [g lv [[] [] []] pr ast pa pl rc gd cd pf]; exact Hi.
  - injection H as <-. unfold spawnTick.
    destruct (isGameOver s); cbn [negb]; [exact Hi|].
    destruct (spawnAsteroid_eq h s) as (a & n & ->). exact Hi.
  - apply animate_frame in H. destruct H as (_ & -> & -> & _). exact Hi.
  - destruct (countdownTick_cases h id s)
      as [(c & _ & _ & E) | [(_ & E) | (_ & E)]];
      rewrite E in H; injection H as <-; exact Hi.
Qed.

(** In every reachable state the thruster flame flag of the ship is the
    held state of the W key. *)
Theorem thrusting_iff_w_held (h : Host) (s : State) :
  reachable h s -> Player.isThrusting (player s) = key_w (keys s).
Proof.
  induction 1 as [s E | s e s' _ IH _ He].
  - rewrite boot_eq in E. now injection E as <-.
  - exact (handle_thrust h e s s' He IH).
Qed.

Lemma thrusting_iff_w_held_witness :
  Player.isThrusting
    (player (the desktop (run desktop [EKeyDown KeyW; EFrame]
                              (the desktop (boot desktop)))))
  = true.
Proof.
  rewrite (thrusting_iff_w_held desktop).
  - reflexivity.
  - apply (run_reachable desktop [EKeyDown KeyW; EFrame]
             (the desktop (boot desktop))).
    + apply reach_boot. reflexivity.
    + vm_compute. reflexivity.
Defined.

Lemma handle_level_best (h : Host) (e : Event) (s s' : State) :
  handle h e s = Some s' ->
  level s' = level s /\
  Player.bestScore (player s') = Player.bestScore (player s).
Proof.
  intro H.
  destruct (match e with ECountdown _ => true | _ => false end) eqn:K.
  - destruct e as [| | | | |id]; try discriminate. cbn [handle] in H.
    destruct (countdownTick_cases h id s)
      as [(c & _ & _ & E) | [(_ & E) | (_ & E)]];
      rewrite E in H; injection H as <-; split; reflexivity.
  - destruct (handle_frame_rel h e s s') as (m & n & (_ & _ & Hb & _) & _).
    { intros id ->. discriminate. }
    { exact H. }
    split; [|exact Hb].
    destruct e; cbn [handle] in H; try discriminate.
    + injection H as <-. destruct code; reflexivity.
    + injection H as <-. destruct code; reflexivity.
    + injection H as <-. unfold movementTick.
      destruct s as [g lv [[] [] []] pr ast pa pl rc gd cd pf]; reflexivity.
    + injection H as <-. unfold spawnTick.
      destruct (isGameOver s); cbn [negb]; [reflexivity|].
      destruct (spawnAsteroid_eq h s) as (a & k & ->). reflexivity.
    + apply animate_frame in H. now destruct H as (-> & _).
Qed.

(** Nothing in the script ever writes [bestScore] or [level]: in every
    reachable state the best score is still 0 and the level still 1,
    whatever score has been reached. *)
Theorem bestScore_and_level_never_change (h : Host) (s : State) :
  reachable h s ->
  Player.bestScore (player s) = 0%Z /\ level s = 1%Z.
Proof.
  induction 1 as [s E | s e s' _ [IHb IHl] _ He].
  - rewrite boot_eq in E. injection E as <-. split; reflexivity.
  - destruct (handle_level_best h e s s' He) as [-> ->]. now split.
Qed.

Lemma bestScore_and_level_never_change_witness :
  Player.bestScore (player (the desktop (boot desktop))) = 0%Z /\
  level (the desktop (boot desktop)) = 1%Z.
Proof.
  apply (bestScore_and_level_never_change desktop).
  apply reach_boot. reflexivity.
Defined.

(** ** Lives and the game-over flag *)

Lemma handle_game_over_lives (h : Host) (e : Event) (s s' : State) :
  handle h e s = Some s' ->
  (0 <= Player.lives (player s) <= 3)%Z ->
  (isGameOver s = true <-> Player.lives (player s) = 0%Z) ->
  (isGameOver s' = true <-> Player.lives (player s') = 0%Z).
Proof.
  intros H Hl Hi.
  destruct (match e with ECountdown _ => true | _ => false end) eqn:K.
  - destruct e as [| | | | |id]; try discriminate. cbn [handle] in H.
    destruct (countdownTick_cases h id s)
      as [(c & _ & _ & E) | [(_ & E) | (_ & E)]];
      rewrite E in H; injection H as <-; try exact Hi.
    cbn [restarted isGameOver player Player.update Player.lives].
    split; discriminate.
  - destruct (handle_frame_rel h e s s') as (m & n & R & _).
    { intros id ->. discriminate. }
    { exact H. }
    destruct R as (_ & -> & _ & _ & _ & ->).
    unfold gameOversAfter, livesAfter.
    destruct (isGameOver s) eqn:G.
    + assert (L0 : Player.lives (player s) = 0%Z) by now apply Hi.
      rewrite L0. cbn [orb]. split; [intros _|reflexivity].
      destruct n; lia.
    + assert (L1 : Player.lives (player s) <> 0%Z).
      { intro L0. apply Hi in L0. discriminate. }
      cbn [orb]. rewrite negb_true_iff, Nat.eqb_neq.
      destruct n; lia.
Qed.

(** In every reachable state the lives are between 0 and 3 and the game
    is over exactly when they are 0; a handler never raises the lives,
    except the countdown firing that restarts the game with 3. *)
Theorem lives_and_game_over (h : Host) (s : State) :
  reachable h s ->
  (0 <= Player.lives (player s) <= 3)%Z /\
  (isGameOver s = true <-> Player.lives (player s) = 0%Z) /\
  (forall e s',
     handle h e s = Some s' ->
     (Player.lives (player s') <= Player.lives (player s))%Z \/
     (exists id, e = ECountdown id /\ Player.lives (player s') = 3%Z)).
Proof.
  intro Hr. pose proof (reachable_lives h s Hr) as Hl.
  split; [exact Hl|]. split.
  - induction Hr as [s E | s e s' Hr IH _ He].
    + rewrite boot_eq in E. injection E as <-. split; discriminate.
    + pose proof (reachable_lives h s Hr) as Hls.
      exact (handle_game_over_lives h e s s' He Hls (IH Hls)).
  - intros e s' He. exact (proj2 (handle_lives h e s s' Hl He)).
Qed.

Lemma lives_and_game_over_witness :
  (0 <= Player.lives
          (player (the small
                     (run small [ESpawn; ESpawn; EFrame]
                          (the small (boot small))))) <= 3)%Z.
Proof.
  apply (lives_and_game_over small).
  apply (run_reachable small [ESpawn; ESpawn; EFrame]
           (the small (boot small))).
  - apply reach_boot. reflexivity.
  - vm_compute. reflexivity.
Defined.

(** Whenever the game is over in a reachable state, a countdown holding
    1, 2 or 3 is live: the game-over screen cannot be stuck. *)
Theorem game_over_has_live_countdown (h : Host) (s : State) :
  reachable h s -> isGameOver s = true ->
  exists id c,
    nth_error (countdowns s) id = Some (Some c) /\ (1 <= c <= 3)%Z /\
    enabled (ECountdown id) s = true.
Proof.
  intros Hr G.
  destruct (reachable_game_over_counting h s Hr) as [Hok Hgo].
  destruct (Hgo G) as (id & c & Hc).
  exists id, c. split; [exact Hc|]. split; [exact (Hok id c Hc)|].
  unfold enabled. now rewrite Hc.
Qed.

Lemma game_over_has_live_countdown_witness :
  exists id c,
    nth_error
      (countdowns
         (the small
            (run small [ESpawn; ESpawn; EFrame; ESpawn; ESpawn; EFrame]
                 (the small (boot small))))) id
    = Some (Some c) /\ (1 <= c <= 3)%Z.
Proof.
  destruct (game_over_has_live_countdown small
              (the small
                 (run small [ESpawn; ESpawn; EFrame; ESpawn; ESpawn; EFrame]
                      (the small (boot small)))))
    as (id & c & Hc & Hr & _).
  - apply (run_reachable small
             [ESpawn; ESpawn; EFrame; ESpawn; ESpawn; EFrame]
             (the small (boot small))).
    + apply reach_boot. reflexivity.
    + vm_compute. reflexivity.
  - vm_compute. reflexivity.
  - exists id, c. split; assumption.
Defined.

(** ** Animation loops *)

(** A frame of a game that is over changes nothing and does not request
    another frame; a frame of a running game requests exactly one.  The
    number of pending frames never grows, except by one at the countdown
    firing that restarts the game. *)
Theorem animation_loops (h : Host) (e : Event) (s s' : State) :
  enabled e s = true ->
  handle h e s = Some s' ->
  (e = EFrame -> isGameOver s = true ->
   s' = with_pendingFrames (pred (pendingFrames s)) s) /\
  (e = EFrame -> isGameOver s = false ->
   pendingFrames s' = pendingFrames s) /\
  ((pendingFrames s' <= pendingFrames s)%nat \/
   (exists id, e = ECountdown id /\ isGameOver s' = false /\
               pendingFrames s' = S (pendingFrames s))).
Proof.
  intros En H. destruct e; cbn [handle] in H.
  - injection H as <-.
    repeat split; try discriminate. left. destruct code; cbn; lia.
  - injection H as <-.
    repeat split; try discriminate. left. destruct code; cbn; lia.
  - injection H as <-. repeat split; try discriminate. left.
    unfold movementTick.
    destruct s as [g lv [[] [] []] pr ast pa pl rc gd cd pf]; cbn; lia.
  - injection H as <-. repeat split; try discriminate. left.
    unfold spawnTick. destruct (isGameOver s); cbn [negb]; [lia|].
    destruct (spawnAsteroid_eq h s) as (a & n & ->). cbn. lia.
  - cbn [enabled] in En. apply negb_true_iff, Nat.eqb_neq in En.
    split; [|split].
    + intros _ G. unfold animate in H.
      cbn [isGameOver with_pendingFrames] in H. rewrite G in H.
      cbn [negb] in H. now injection H as <-.
    + intros _ G. apply animate_frame in H.
      destruct H as (_ & _ & _ & _ & ->).
      cbn [isGameOver pendingFrames with_pendingFrames]. rewrite G. lia.
    + left. apply animate_frame in H.
      destruct H as (_ & _ & _ & _ & ->).
      cbn [isGameOver pendingFrames with_pendingFrames].
      destruct (isGameOver s); lia.
  - split; [discriminate|]. split; [discriminate|].
    destruct (countdownTick_cases h id s)
      as [(c & _ & _ & E) | [(_ & E) | (_ & E)]];
      rewrite E in H; injection H as <-.
    + left. cbn. lia.
    + right. exists id. repeat split.
    + left. lia.
Qed.

Lemma animation_loops_witness :
  pendingFrames (the desktop (handle desktop EFrame (the desktop (boot desktop))))
  = pendingFrames (the desktop (boot desktop)).
Proof.
  apply (animation_loops desktop EFrame (the desktop (boot desktop))).
  - reflexivity.
  - vm_compute. reflexivity.
  - reflexivity.
  - reflexivity.
Defined.

(** ** Sizes of asteroids *)

Lemma splice1_incl {A} (i : nat) (l : list A) : incl (splice1 i l) l.
Proof.
  intros x Hin. unfold splice1 in Hin. apply in_app_or in Hin.
  destruct Hin as [Hin|Hin].
  - rewrite <- (firstn_skipn i l). apply in_or_app. now left.
  - rewrite <- (firstn_skipn (S i) l). apply in_or_app. now right.
Qed.

Lemma Forall_incl {A} (P : A -> Prop) (l l' : list A) :
  incl l l' -> Forall P l' -> Forall P l.
Proof.
  intros Hi Hf. apply Forall_forall. intros x Hx.
  rewrite Forall_forall in Hf. apply Hf, Hi, Hx.
Qed.

Lemma splitChildren_sizes (h : Host) (a : Asteroid.t) (n : nat) :
  size_ok a -> Forall size_ok (fst (splitChildren h a n)).
Proof.
  intro Ha. unfold splitChildren.
  destruct (Qltb 15 (Asteroid.radius a)) eqn:E; [|constructor].
  apply Qltb_true_iff in E. cbn [Asteroid.new fst].
  assert (Hc : Asteroid.radius a / 2 == 40 \/ Asteroid.radius a / 2 == 20 \/
               Asteroid.radius a / 2 == 10).
  { destruct Ha as [H|[H|H]]; rewrite H in *.
    - right. left. reflexivity.
    - right. right. reflexivity.
    - exfalso. revert E. apply Qle_not_lt. discriminate. }
  constructor; [exact Hc | constructor; [exact Hc | constructor]].
Qed.

Lemma projectileHit_sizes (h : Host) (pIndex aIndex : nat)
    (p : Projectile.t) (a : Asteroid.t) (s : State) :
  Forall size_ok (asteroids s) ->
  nth_error (asteroids s) aIndex = Some a ->
  Forall size_ok (asteroids (projectileHit h pIndex aIndex p a s)).
Proof.
  intros Hs Ha. rewrite projectileHit_eq. unfold projectileHitResult.
  pose proof (splitChildren_sizes h a (randomCalls s)) as Hc.
  destruct (splitChildren h a (randomCalls s)) as [children n].
  cbn [asteroids fst] in *.
  apply (Forall_incl _ _ _ (splice1_incl _ _)).
  apply Forall_app. split; [exact Hs|]. apply Hc.
  rewrite Forall_forall in Hs. apply Hs. eapply nth_error_In, Ha.
Qed.

Lemma projectileLoop_sizes (h : Host) (k : nat) (s s' : State) :
  (k <= length (projectiles s))%nat ->
  Forall size_ok (asteroids s) ->
  projectileLoop h k s = Some s' ->
  Forall size_ok (asteroids s').
Proof.
  revert s. induction k as [|pIndex IH]; intros s Hk Hs H.
  - now injection H as <-.
  - destruct (nth_error_in_range pIndex (projectiles s)) as [p Hp]; [lia|].
    cbn [projectileLoop] in H. rewrite Hp in H.
    destruct (asteroidLoop_spec h pIndex p (length (asteroids s)) s
                (Nat.le_refl _))
      as [[_ E] | (j & a & _ & Ha & _ & _ & E)]; rewrite E in H.
    + apply (IH s); [lia | exact Hs | exact H].
    + apply (IH (projectileHit h pIndex j p a s)).
      * destruct (scored_hit h pIndex j p a s Hk)
          as (_ & _ & _ & _ & _ & _ & _ & N). lia.
      * now apply projectileHit_sizes.
      * exact H.
Qed.

Lemma checkCollisions_sizes (h : Host) (s s' : State) :
  Forall size_ok (asteroids s) ->
  checkCollisions h s = Some s' ->
  Forall size_ok (asteroids s').
Proof.
  intros Hs H. unfold checkCollisions in H.
  destruct (playerLoop_spec h (length (asteroids s)) s (Nat.le_refl _))
    as (ps & E & _). cbv zeta in E. rewrite E in H.
  eapply projectileLoop_sizes; [reflexivity | | exact H].
  cbn [playerPassResult asteroids].
  rewrite firstn_all, skipn_all, app_nil_r.
  apply Forall_forall. intros a Ha. apply filter_In in Ha.
  rewrite Forall_forall in Hs. now apply Hs.
Qed.

Lemma handle_sizes (h : Host) (e : Event) (s s' : State) :
  Forall size_ok (asteroids s) ->
  handle h e s = Some s' ->
  Forall size_ok (asteroids s').
Proof.
  intros Hs H. destruct e; cbn [handle] in H.
  - injection H as <-. destruct code; exact Hs.
  - injection H as <-. destruct code; exact Hs.
  - injection H as <-. unfold movementTick.
    destruct s as [g lv [[] [] []] pr ast pa pl rc gd cd pf]; exact Hs.
  - injection H as <-. unfold spawnTick.
    destruct (isGameOver s); cbn [negb]; [exact Hs|].
    unfold spawnAsteroid.
    destruct (Qfloor (Math_random h (randomCalls s) * 4) =? 0)%Z;
      [|destruct (Qfloor (Math_random h (randomCalls s) * 4) =? 1)%Z;
        [|destruct (Qfloor (Math_random h (randomCalls s) * 4) =? 2)%Z]];
      cbn [Asteroid.new asteroids with_asteroids];
      (apply Forall_app; split; [exact Hs|]);
      (constructor; [left; reflexivity | constructor]).
  - unfold animate in H. cbn [isGameOver with_pendingFrames] in H.
    destruct (isGameOver s); cbn [negb] in H; [now injection H as <-|].
    match type of H with
    | context [particleLoop ?k ?s0] =>
        destruct (particleLoop_spec k s0 (Nat.le_refl _)) as [ps E];
        rewrite E in H
    end.
    eapply checkCollisions_sizes; [|exact H].
    cbn [asteroids with_particles with_asteroids].
    apply Forall_map. revert Hs. apply Forall_impl. intros a Ha. exact Ha.
  - destruct (countdownTick_cases h id s)
      as [(c & _ & _ & E) | [(_ & E) | (_ & E)]];
      rewrite E in H; injection H as <-; try exact Hs.
    constructor.
Qed.

(** In every reachable state each asteroid has radius 40, 20 or 10: a
    spawned asteroid can be split twice and no further, and no radius
    ever reaches 0. *)
Theorem asteroid_sizes (h : Host) (s : State) :
  reachable h s ->
  Forall (fun a => size_ok a /\ 0 < Asteroid.radius a) (asteroids s).
Proof.
  intro Hr.
  assert (Hs : Forall size_ok (asteroids s)).
  { induction Hr as [s E | s e s' _ IH _ He].
    - rewrite boot_eq in E. injection E as <-. constructor.
    - exact (handle_sizes h e s s' IH He). }
  revert Hs. apply Forall_impl. intros a Ha. split; [exact Ha|].
  destruct Ha as [H|[H|H]]; rewrite H; reflexivity.
Qed.

Lemma asteroid_sizes_witness :
  Forall (fun a => size_ok a /\ 0 < Asteroid.radius a)
         (asteroids (the desktop (run desktop [ESpawn; EFrame]
                                      (the desktop (boot desktop))))).
Proof.
  apply (asteroid_sizes desktop).
  apply (run_reachable desktop [ESpawn; EFrame] (the desktop (boot desktop))).
  - apply reach_boot. reflexivity.
  - vm_compute. reflexivity.
Defined.

(** ** Keys and the movement tick *)

(** For the keys W, A and D, and for keys the game does not use, a
    repeated key-down is the same as one, and releasing the key after
    pressing it is the same as just releasing it. *)
Theorem held_key_handling (h : Host) (code : KeyCode) (s : State) :
  code <> Space ->
  keydown h code (keydown h code s) = keydown h code s /\
  keyup code (keydown h code s) = keyup code s /\
  keyup code (keyup code s) = keyup code s.
Proof.
  intro Hne. destruct code; try congruence; repeat split.
Qed.

Lemma held_key_handling_witness :
  keyup KeyW (keydown desktop KeyW (loaded desktop))
  = keyup KeyW (loaded desktop).
Proof.
  apply (held_key_handling desktop KeyW (loaded desktop)). discriminate.
Defined.

(** The movement tick only ever touches the velocity and the rotation of
    the ship, also while the game is over.  It leaves the velocity alone
    unless W is held, turns by 0.1 radian to the left for A and to the
    right for D, leaves the rotation alone when neither is held, and
    when both are held turns left and then right, one subtraction and
    one addition of 0.1. *)
Theorem movementTick_effect (h : Host) (s : State) :
  let s' := movementTick h s in
  s' = with_player
         (Player.with_rotation (Player.rotation (player s'))
            (Player.with_velocity (Player.velocity (player s')) (player s)))
         s /\
  (key_w (keys s) = false ->
   Player.velocity (player s') = Player.velocity (player s)) /\
  (key_a (keys s) = true -> key_d (keys s) = false ->
   Player.rotation (player s') = Player.rotation (player s) - 0.1) /\
  (key_a (keys s) = false -> key_d (keys s) = true ->
   Player.rotation (player s') = Player.rotation (player s) + 0.1) /\
  (key_a (keys s) = false -> key_d (keys s) = false ->
   Player.rotation (player s') = Player.rotation (player s)) /\
  (key_a (keys s) = true -> key_d (keys s) = true ->
   Player.rotation (player s') = Player.rotation (player s) - 0.1 + 0.1).
Proof.
  unfold movementTick.
  destruct s as [g lv [[] [] []] pr ast pa [pos vel rot lives sc bs th]
                 rc gd cd pf];
    cbn; repeat split; intros; try discriminate; reflexivity.
Qed.

(** ** The world while the game is over *)

(** While the game is over, no handler other than a countdown firing
    touches the asteroids, the particles, the position of the ship, its
    lives or its score, and the game stays over: frames and spawns do
    nothing.  Key presses and the movement tick still act. *)
Theorem game_over_freezes_world (h : Host) (e : Event) (s s' : State) :
  isGameOver s = true ->
  (forall id, e <> ECountdown id) ->
  handle h e s = Some s' ->
  isGameOver s' = true /\
  asteroids s' = asteroids s /\
  particles s' = particles s /\
  Player.position (player s') = Player.position (player s) /\
  Player.lives (player s') = Player.lives (player s) /\
  Player.score (player s') = Player.score (player s) /\
  countdowns s' = countdowns s /\
  ((e = EFrame \/ e = ESpawn) ->
   s' = with_pendingFrames (pendingFrames s') s).
Proof.
  intros G Hne H. destruct e; cbn [handle] in H.
  - injection H as <-. destruct code; cbn; repeat split; try exact G;
      intros [?|?]; discriminate.
  - injection H as <-. destruct code; cbn; repeat split; try exact G;
      intros [?|?]; discriminate.
  - injection H as <-. unfold movementTick.
    destruct s as [g lv [[] [] []] pr ast pa pl rc gd cd pf];
      cbn in *; repeat split; try exact G; intros [?|?]; discriminate.
  - injection H as <-. unfold spawnTick. rewrite G. cbn [negb].
    repeat split; try exact G. intros _. now destruct s.
  - unfold animate in H. cbn [isGameOver with_pendingFrames] in H.
    rewrite G in H. cbn [negb] in H. injection H as <-.
    cbn. repeat split. exact G.
  - exfalso. exact (Hne id eq_refl).
Qed.

Lemma game_over_freezes_world_witness :
  asteroids (the desktop (handle desktop ESpawn justOver))
  = asteroids justOver.
Proof.
  apply (game_over_freezes_world desktop ESpawn justOver).
  - reflexivity.
  - discriminate.
  - reflexivity.
Defined.

(** ** The ship stays on the canvas *)

Lemma update_in_canvas (h : Host) (p : Player.t) :
  0 <= canvas_width h -> 0 <= canvas_height h ->
  in_canvas h (Player.position (Player.update h p)).
Proof.
  intros Hw Hh. unfold in_canvas.
  cbn [Player.update Player.position Vec.x Vec.y].
  split.
  - exact (proj1 (wrap_axis (canvas_width h) _ Hw)).
  - exact (proj1 (wrap_axis (canvas_height h) _ Hh)).
Qed.

Lemma handle_in_canvas (h : Host) (e : Event) (s s' : State) :
  0 <= canvas_width h -> 0 <= canvas_height h ->
  handle h e s = Some s' ->
  in_canvas h (Player.position (player s)) ->
  in_canvas h (Player.position (player s')).
Proof.
  intros Hw Hh H Hi. destruct e; cbn [handle] in H.
  - injection H as <-. destruct code; exact Hi.
  - injection H as <-. destruct code; exact Hi.
  - injection H as <-. unfold movementTick.
    destruct s as [g lv [[] [] []] pr ast pa pl rc gd cd pf]; exact Hi.
  - injection H as <-. unfold spawnTick.
    destruct (isGameOver s); cbn [negb]; [exact Hi|].
    destruct (spawnAsteroid_eq h s) as (a & n & ->). exact Hi.
  - destruct (isGameOver s) eqn:G.
    + unfold animate in H. cbn [isGameOver with_pendingFrames] in H.
      rewrite G in H. cbn [negb] in H. now injection H as <-.
    + apply animate_player in H; [|exact G]. destruct H as [-> _].
      now apply update_in_canvas.
  - destruct (countdownTick_cases h id s)
      as [(c & _ & _ & E) | [(_ & E) | (_ & E)]];
      rewrite E in H; injection H as <-; try exact Hi.
    cbn [restarted player]. now apply update_in_canvas.
Qed.

(** On a canvas of non-negative dimensions the ship is, in every
    reachable state, inside the closed rectangle of the canvas. *)
Theorem ship_stays_on_canvas (h : Host) (s : State) :
  0 <= canvas_width h -> 0 <= canvas_height h ->
  reachable h s ->
  in_canvas h (Player.position (player s)).
Proof.
  intros Hw Hh. induction 1 as [s E | s e s' _ IH _ He].
  - rewrite boot_eq in E. injection E as <-.
    cbn [player with_player]. now apply update_in_canvas.
  - exact (handle_in_canvas h e s s' Hw Hh He IH).
Qed.

Lemma ship_stays_on_canvas_witness :
  in_canvas desktop
    (Player.position
       (player (the desktop
                  (run desktop [EKeyDown KeyW; EMovement; EFrame; EFrame]
                       (the desktop (boot desktop)))))).
Proof.
  apply (ship_stays_on_canvas desktop).
  - discriminate.
  - discriminate.
  - apply (run_reachable desktop [EKeyDown KeyW; EMovement; EFrame; EFrame]
             (the desktop (boot desktop))).
    + apply reach_boot. reflexivity.
    + vm_compute. reflexivity.
Defined.

(** ** A ship at rest on an empty field *)

Lemma animate_quiet (h : Host) (s s' : State) :
  isGameOver s = false -> asteroids s = [] -> projectiles s = [] ->
  animate h s = Some s' ->
  isGameOver s' = false /\ asteroids s' = [] /\ projectiles s' = [] /\
  player s' = Player.update h (player s).
Proof.
  intros G A P H. unfold animate in H. rewrite G in H. cbn [negb] in H.
  rewrite particleLoop_prefix in H by reflexivity.
  destruct s as [g lv ks pr ast pa pl rc gd cd pf].
  cbn [isGameOver asteroids projectiles] in G, A, P. subst g ast pr.
  cbn in H. injection H as <-. repeat split.
Qed.

(** With no asteroid and no projectile around, a ship at rest inside the
    canvas is still at the same place after any number of frames, with
    the same lives and the same score. *)
Theorem ship_at_rest (h : Host) (N : nat) (s s' : State) :
  0 <= canvas_width h -> 0 <= canvas_height h ->
  isGameOver s = false -> asteroids s = [] -> projectiles s = [] ->
  Vec.x (Player.velocity (player s)) == 0 ->
  Vec.y (Player.velocity (player s)) == 0 ->
  in_canvas h (Player.position (player s)) ->
  run h (repeat EFrame N) s = Some s' ->
  Vec.x (Player.position (player s')) == Vec.x (Player.position (player s)) /\
  Vec.y (Player.position (player s')) == Vec.y (Player.position (player s)) /\
  Player.lives (player s') = Player.lives (player s) /\
  Player.score (player s') = Player.score (player s) /\
  isGameOver s' = false.
Proof.
  intros Hw Hh. revert s.
  induction N as [|N IH]; intros s G A P Vx Vy [Cx Cy] H.
  - injection H as <-. repeat split; try reflexivity. exact G.
  - cbn [repeat run] in H.
    destruct (enabled EFrame s); [|discriminate].
    destruct (handle h EFrame s) as [s1|] eqn:He; [|discriminate].
    cbn [handle] in He. apply animate_quiet in He; try assumption.
    destruct He as (G1 & A1 & P1 & Pl).
    cbn [player with_pendingFrames] in Pl.
    pose proof (wrap_axis (canvas_width h)
                  (Vec.x (Player.position (player s))
                   + Vec.x (Player.velocity (player s))) Hw)
      as [_ (_ & _ & Kx)].
    pose proof (wrap_axis (canvas_height h)
                  (Vec.y (Player.position (player s))
                   + Vec.y (Player.velocity (player s))) Hh)
      as [_ (_ & _ & Ky)].
    cbv zeta in Kx, Ky.
    assert (Ex : Vec.x (Player.position (player s1))
                 == Vec.x (Player.position (player s))).
    { rewrite Pl. cbn [Player.update Player.position Vec.x].
      rewrite Kx; lra. }
    assert (Ey : Vec.y (Player.position (player s1))
                 == Vec.y (Player.position (player s))).
    { rewrite Pl. cbn [Player.update Player.position Vec.y].
      rewrite Ky; lra. }
    destruct (IH s1) as (Hx & Hy & Hl & Hs & Hg); try assumption.
    + rewrite Pl. cbn [Player.update Player.velocity Vec.x].
      rewrite Vx. reflexivity.
    + rewrite Pl. cbn [Player.update Player.velocity Vec.y].
      rewrite Vy. reflexivity.
    + unfold in_canvas. rewrite Ex, Ey. split; assumption.
    + rewrite Hx, Hy, Hl, Hs, Ex, Ey, Pl. repeat split; try reflexivity.
      exact Hg.
Qed.

Lemma ship_at_rest_witness :
  Player.lives
    (player (the desktop (run desktop (repeat EFrame 3)
                              (the desktop (boot desktop)))))
  = 3%Z.
Proof.
  apply (ship_at_rest desktop 3 (the desktop (boot desktop))).
  - discriminate.
  - discriminate.
  - reflexivity.
  - reflexivity.
  - reflexivity.
  - reflexivity.
  - reflexivity.
  - split; split; discriminate.
  - vm_compute. reflexivity.
Defined.

(** ** Friction in binary64 *)

Open Scope Z_scope.

Lemma rne_shift_le (N s M : Z) :
  (0 <= N -> 0 <= s -> N <= M * 2 ^ s -> rne_shift N s <= M)%Z.
Proof.
  intros HN Hs HM. unfold rne_shift.
  assert (Hp : (0 < 2 ^ s)%Z) by (apply Z.pow_pos_nonneg; lia).
  pose proof (Z.div_mod N (2 ^ s) ltac:(lia)) as Hdm.
  pose proof (Z.mod_pos_bound N (2 ^ s) Hp) as Hr.
  set (q := (N / 2 ^ s)%Z) in *. set (r := (N mod 2 ^ s)%Z) in *.
  assert (Hq : (q <= M)%Z) by nia.
  assert (Hq1 : (0 < r -> q + 1 <= M)%Z) by (intro; nia).
  destruct (Z.compare_spec (2 * r) (2 ^ s)) as [E|L|G].
  - destruct (Z.even q); [exact Hq | apply Hq1; lia].
  - exact Hq.
  - apply Hq1. lia.
Qed.

Lemma rne_shift_pos (N s : Z) :
  (0 <= s -> 2 ^ s < 2 * N -> 1 <= rne_shift N s)%Z.
Proof.
  intros Hs HN. unfold rne_shift.
  assert (Hp : (0 < 2 ^ s)%Z) by (apply Z.pow_pos_nonneg; lia).
  pose proof (Z.div_mod N (2 ^ s) ltac:(lia)) as Hdm.
  pose proof (Z.mod_pos_bound N (2 ^ s) Hp) as Hr.
  set (q := (N / 2 ^ s)%Z) in *. set (r := (N mod 2 ^ s)%Z) in *.
  assert (Hq0 : (0 <= q)%Z) by nia.
  destruct (Z.compare_spec (2 * r) (2 ^ s)) as [E|L|G].
  - destruct (Z.even q) eqn:Ev; [|lia].
    destruct (Z.eq_dec q 0) as [->|]; [|lia]. nia.
  - nia.
  - lia.
Qed.

Lemma rne_shift_nonneg (N s : Z) :
  (0 <= N -> 0 <= s -> 0 <= rne_shift N s)%Z.
Proof.
  intros HN Hs. unfold rne_shift.
  assert (Hp : (0 < 2 ^ s)%Z) by (apply Z.pow_pos_nonneg; lia).
  assert (Hq : (0 <= N / 2 ^ s)%Z) by (apply Z.div_pos; lia).
  destruct (2 * (N mod 2 ^ s) ?= 2 ^ s)%Z; [destruct (Z.even _)| |]; lia.
Qed.

(** The rounded quotient is within half a unit of the exact one. *)
Lemma rne_shift_near (N s : Z) :
  (0 <= s -> 2 * Z.abs (rne_shift N s * 2 ^ s - N) <= 2 ^ s)%Z.
Proof.
  intros Hs. unfold rne_shift.
  assert (Hp : (0 < 2 ^ s)%Z) by (apply Z.pow_pos_nonneg; lia).
  pose proof (Z.div_mod N (2 ^ s) ltac:(lia)) as Hdm.
  pose proof (Z.mod_pos_bound N (2 ^ s) Hp) as Hr.
  set (q := (N / 2 ^ s)%Z) in *. set (r := (N mod 2 ^ s)%Z) in *.
  destruct (Z.compare_spec (2 * r) (2 ^ s)) as [E|L|G].
  - destruct (Z.even q); nia.
  - nia.
  - nia.
Qed.

Lemma FRICTION64_bounds : (2 ^ 52 < FRICTION64 < 2 ^ 53)%Z.
Proof. unfold FRICTION64. split; reflexivity. Qed.

Lemma friction64_abs_spec (k : Z) :
  (0 <= k)%Z -> representable k ->
  (friction64_abs k <= k)%Z /\ representable (friction64_abs k).
Proof.
  intros Hk (m & j0 & Hj0 & Hm & ->).
  pose proof FRICTION64_bounds as [F1 F2].
  assert (P0 : (0 < 2 ^ j0)%Z) by (apply Z.pow_pos_nonneg; lia).
  assert (Hm0 : (0 <= m)%Z) by nia.
  rewrite Z.abs_eq in Hm by lia.
  unfold friction64_abs.
  set (N := (m * 2 ^ j0 * FRICTION64)%Z).
  set (j := Z.max (Z.log2 N - 105) 0).
  assert (HN : (0 <= N)%Z) by (unfold N; nia).
  assert (Hj : (0 <= j <= j0)%Z).
  { unfold j. split; [lia|]. apply Z.max_lub; [|lia].
    destruct (Z.eq_dec N 0) as [E|E]; [rewrite E; cbn; lia|].
    assert (L : (Z.log2 N < 106 + j0)%Z).
    { apply Z.log2_lt_pow2; [lia|].
      rewrite Z.pow_add_r by lia. change (2 ^ 106)%Z with (2 ^ 53 * 2 ^ 53)%Z.
      unfold N. nia. }
    lia. }
  assert (Pj : (0 < 2 ^ j)%Z) by (apply Z.pow_pos_nonneg; lia).
  assert (Esplit : (2 ^ j0 = 2 ^ (j0 - j) * 2 ^ j)%Z).
  { rewrite <- Z.pow_add_r by lia. f_equal. lia. }
  assert (Pd : (0 < 2 ^ (j0 - j))%Z) by (apply Z.pow_pos_nonneg; lia).
  assert (R : (rne_shift N (53 + j) <= m * 2 ^ (j0 - j))%Z).
  { apply rne_shift_le; [lia | lia |].
    rewrite Z.pow_add_r by lia. unfold N. rewrite Esplit.
    change (2 ^ 53)%Z with 9007199254740992%Z in *. nia. }
  pose proof (rne_shift_nonneg N (53 + j) HN ltac:(lia)) as R0.
  assert (R53 : (rne_shift N (53 + j) <= 2 ^ 53)%Z).
  { apply rne_shift_le; [lia | lia |].
    destruct (Z.eq_dec N 0) as [E|E].
    - rewrite E. apply Z.mul_nonneg_nonneg; apply Z.pow_nonneg; lia.
    - pose proof (Z.log2_spec N ltac:(lia)) as [_ U].
      rewrite <- Z.pow_add_r by lia.
      apply Z.lt_le_incl. eapply Z.lt_le_trans; [exact U|].
      apply Z.pow_le_mono_r; unfold j; lia. }
  split.
  - rewrite Esplit. nia.
  - destruct (Z.eq_dec (rne_shift N (53 + j)) (2 ^ 53)) as [E|E].
    + assert (Hlt : (j < j0)%Z).
      { destruct (Z.eq_dec j j0) as [Ej|Ej]; [|lia].
        rewrite E, Ej, Z.sub_diag, Z.pow_0_r in R. lia. }
      exists (2 ^ 52)%Z, (j + 1)%Z. split; [lia|]. split; [reflexivity|].
      rewrite E, Z.pow_add_r by lia.
      change (2 ^ 1)%Z with 2%Z. generalize (2 ^ j)%Z. intro. lia.
    + exists (rne_shift N (53 + j)), j. split; [lia|]. split; [|reflexivity].
      rewrite Z.abs_eq by lia. lia.
Qed.

Lemma friction64_abs_pos (k : Z) : (0 < k -> 0 < friction64_abs k)%Z.
Proof.
  intro Hk. pose proof FRICTION64_bounds as [F1 F2].
  unfold friction64_abs.
  set (N := (k * FRICTION64)%Z).
  set (j := Z.max (Z.log2 N - 105) 0).
  assert (HN : (2 ^ 52 < N)%Z) by (unfold N; nia).
  assert (Hj : (0 <= j)%Z) by (unfold j; lia).
  assert (Pj : (0 < 2 ^ j)%Z) by (apply Z.pow_pos_nonneg; lia).
  assert (R : (1 <= rne_shift N (53 + j))%Z).
  { apply rne_shift_pos; [lia|].
    destruct (Z.max_spec (Z.log2 N - 105) 0) as [[_ E]|[_ E]]; fold j in E.
    - rewrite E, Z.add_0_r. change (2 ^ 53)%Z with (2 * 2 ^ 52)%Z. lia.
    - pose proof (Z.log2_spec N ltac:(lia)) as [L _].
      replace (53 + j)%Z with (Z.log2 N - 52)%Z by lia.
      assert ((2 ^ (Z.log2 N - 52) < 2 * 2 ^ Z.log2 N)%Z); [|lia].
      replace (Z.log2 N) with ((Z.log2 N - 52) + 52)%Z at 2 by lia.
      rewrite Z.pow_add_r by lia.
      assert ((0 < 2 ^ (Z.log2 N - 52))%Z) by (apply Z.pow_pos_nonneg; lia).
      change (2 ^ 52)%Z with 4503599627370496%Z. lia. }
  nia.
Qed.

Lemma representable_abs (k : Z) : representable k -> representable (Z.abs k).
Proof.
  intros (m & j & Hj & Hm & ->). exists (Z.abs m), j.
  split; [exact Hj|]. split; [now rewrite Z.abs_idemp|].
  rewrite Z.abs_mul. f_equal. apply Z.abs_eq. apply Z.pow_nonneg. lia.
Qed.

Lemma representable_opp (k : Z) : representable k -> representable (- k).
Proof.
  intros (m & j & Hj & Hm & ->). exists (- m)%Z, j.
  split; [exact Hj|]. split; [now rewrite Z.abs_opp | ring].
Qed.

(** One multiplication by [FRICTION] in binary64 gives a finite double
    of the same sign whose magnitude has not grown. *)
Lemma friction64_step (k : Z) :
  representable k ->
  representable (friction64 k) /\
  (Z.abs (friction64 k) <= Z.abs k)%Z /\
  Z.sgn (friction64 k) = Z.sgn k.
Proof.
  intro Hr. unfold friction64.
  pose proof (representable_abs k Hr) as Ha.
  destruct (friction64_abs_spec (Z.abs k) (Z.abs_nonneg k) Ha) as [Hle Hrep].
  destruct (Z.sgn_spec k) as [[Hk ->]|[[Hk ->]|[Hk ->]]].
  - pose proof (friction64_abs_pos (Z.abs k) ltac:(lia)).
    rewrite Z.mul_1_l. split; [exact Hrep|]. split; [lia|].
    apply Z.sgn_pos. lia.
  - subst k. cbn. split; [|split; reflexivity].
    exists 0%Z, 0%Z. split; [lia|]. split; reflexivity.
  - pose proof (friction64_abs_pos (Z.abs k) ltac:(lia)).
    replace (-1 * friction64_abs (Z.abs k))%Z
      with (- friction64_abs (Z.abs k))%Z by ring.
    split; [now apply representable_opp|]. split; [lia|].
    apply Z.sgn_neg. lia.
Qed.

(** The result is the exact product [k * 0.99] (with the double 0.99)
    rounded: it differs from it by at most half a unit of [2^-1074] in
    the subnormal range and by at most a relative [2^-53] above it. *)
Lemma friction64_near (k : Z) :
  (2 * Z.abs (friction64 k * 2 ^ 53 - k * FRICTION64)
   <= Z.max (2 ^ 53) (Z.abs k * FRICTION64 / 2 ^ 52))%Z.
Proof.
  pose proof FRICTION64_bounds as [F1 F2].
  assert (A : forall a, (0 <= a)%Z ->
            (2 * Z.abs (friction64_abs a * 2 ^ 53 - a * FRICTION64)
             <= Z.max (2 ^ 53) (a * FRICTION64 / 2 ^ 52))%Z).
  { intros a Ha. unfold friction64_abs.
    set (N := (a * FRICTION64)%Z).
    set (j := Z.max (Z.log2 N - 105) 0).
    assert (HN : (0 <= N)%Z) by (unfold N; nia).
    assert (Hj : (0 <= j)%Z) by (unfold j; lia).
    pose proof (rne_shift_near N (53 + j) ltac:(lia)) as Hn.
    replace (rne_shift N (53 + j) * 2 ^ j * 2 ^ 53)%Z
      with (rne_shift N (53 + j) * 2 ^ (53 + j))%Z
      by (rewrite Z.pow_add_r by lia; ring).
    eapply Z.le_trans; [exact Hn|].
    destruct (Z.max_spec (Z.log2 N - 105) 0) as [[L E]|[L E]]; fold j in E.
    - rewrite E, Z.add_0_r. apply Z.le_max_l.
    - eapply Z.le_trans; [|apply Z.le_max_r].
      assert (N0 : (0 < N)%Z).
      { destruct (Z.eq_dec N 0) as [E0|E0]; [|lia].
        rewrite E0 in L. cbn in L. lia. }
      pose proof (Z.log2_spec N N0) as [Lg _].
      apply Z.div_le_lower_bound; [reflexivity|].
      rewrite <- Z.pow_add_r by lia.
      replace (52 + (53 + j))%Z with (Z.log2 N) by lia. exact Lg. }
  unfold friction64.
  destruct (Z.sgn_spec k) as [[Hk ->]|[[Hk ->]|[Hk ->]]].
  - specialize (A (Z.abs k) (Z.abs_nonneg k)).
    rewrite Z.mul_1_l. rewrite (Z.abs_eq k) in * by lia. exact A.
  - subst k. cbn. lia.
  - specialize (A (Z.abs k) (Z.abs_nonneg k)).
    rewrite (Z.abs_neq k) in * by lia.
    rewrite <- (Z.abs_opp (_ - _)).
    match goal with
    | |- (2 * Z.abs ?a <= _)%Z =>
        replace a with (friction64_abs (- k) * 2 ^ 53 - - k * FRICTION64)%Z
          by ring
    end.
    exact A.
Qed.

Lemma coast64_S (N : nat) (v : Z * Z) :
  coast64 (S N) v = friction_tick64 (coast64 N v).
Proof. reflexivity. Qed.

Lemma coast64_step (N : nat) (v : Z * Z) :
  representable (fst v) -> representable (snd v) ->
  let u := coast64 N v in
  representable (fst u) /\ representable (snd u) /\
  (Z.abs (fst u) <= Z.abs (fst v))%Z /\
  (Z.abs (snd u) <= Z.abs (snd v))%Z /\
  Z.sgn (fst u) = Z.sgn (fst v) /\
  Z.sgn (snd u) = Z.sgn (snd v).
Proof.
  intros Hx Hy. induction N as [|N IH].
  - cbn. repeat split; try assumption; lia.
  - cbn zeta in *. rewrite coast64_S.
    destruct IH as (Rx & Ry & Ax & Ay & Sx & Sy).
    destruct (friction64_step _ Rx) as (Rx' & Ax' & Sx').
    destruct (friction64_step _ Ry) as (Ry' & Ay' & Sy').
    cbn [friction_tick64 fst snd].
    repeat split; try assumption; try lia; congruence.
Qed.

Lemma speed64_le (u v : Z * Z) :
  (Z.abs (fst u) <= Z.abs (fst v))%Z ->
  (Z.abs (snd u) <= Z.abs (snd v))%Z ->
  (speed64 u <= speed64 v)%R.
Proof.
  intros Hx Hy. unfold speed64.
  apply Rmult_le_compat_r.
  - apply Rlt_le, Rinv_0_lt_compat, pow_lt. lra.
  - apply sqrt_le_1_alt, IZR_le. nia.
Qed.

Lemma speed64_zero (v : Z * Z) :
  speed64 v = 0%R <-> (fst v = 0 /\ snd v = 0)%Z.
Proof.
  unfold speed64.
  assert (P : (0 < / 2 ^ 1074)%R) by (apply Rinv_0_lt_compat, pow_lt; lra).
  assert (S0 : (0 <= fst v * fst v + snd v * snd v)%Z) by nia.
  split.
  - intro H.
    assert (Hs : sqrt (IZR (fst v * fst v + snd v * snd v)) = 0%R).
    { unfold Rdiv in H. apply Rmult_integral in H. destruct H; [assumption|lra]. }
    apply sqrt_eq_0 in Hs; [|now apply IZR_le].
    apply eq_IZR in Hs. nia.
  - intros [-> ->]. cbn. rewrite sqrt_0. unfold Rdiv. ring.
Qed.

(** ** The multiplication of [SpecFloat] *)

Lemma digits2_pos_size (p : positive) : SpecFloat.digits2_pos p = Pos.size p.
Proof. induction p; cbn; congruence. Qed.

Lemma digits2_pos_log2 (p : positive) :
  Zpos (SpecFloat.digits2_pos p) = Z.log2 (Zpos p) + 1.
Proof.
  rewrite digits2_pos_size. destruct p; cbn [Pos.size Z.log2]; lia.
Qed.

Lemma shifted_step (M n : Z) (R : SpecFloat.shr_record) :
  0 <= M -> 0 <= n -> shifted M n R -> shifted M (n + 1) (SpecFloat.shr_1 R).
Proof.
  intros HM Hn [Hm Hl].
  assert (Hp : 0 < 2 ^ n) by (apply Z.pow_pos_nonneg; lia).
  assert (E2 : 2 ^ (n + 1) = 2 * 2 ^ n) by (rewrite Z.pow_add_r by lia; lia).
  pose proof (Z.div_mod M (2 ^ n) ltac:(lia)) as Hdm.
  pose proof (Z.mod_pos_bound M (2 ^ n) Hp) as Hr.
  set (q := M / 2 ^ n) in *. set (r := M mod 2 ^ n) in *.
  assert (Hq : 0 <= q) by (apply Z.div_pos; lia).
  pose proof (Z.div_mod q 2 ltac:(lia)) as Hq2.
  pose proof (Z.mod_pos_bound q 2 ltac:(lia)) as Hb.
  assert (Hdiv : M / 2 ^ (n + 1) = q / 2).
  { rewrite E2. unfold q. rewrite Z.div_div by lia.
    f_equal. lia. }
  assert (Hmod : M mod 2 ^ (n + 1) = (q mod 2) * 2 ^ n + r).
  { symmetry. apply Z.mod_unique_pos with (q := q / 2); [nia|].
    rewrite E2. nia. }
  unfold shifted. rewrite Hdiv, Hmod, E2.
  destruct R as [m b s]. cbn [SpecFloat.shr_m] in Hm. subst m.
  assert (Hloc : orb b s = negb (r =? 0)).
  { cbn [SpecFloat.loc_of_shr_record] in Hl. unfold location_of in Hl.
    destruct (r =? 0); destruct b, s; cbn in *; congruence. }
  assert (Hstep : SpecFloat.shr_1 (SpecFloat.Build_shr_record q b s)
                  = SpecFloat.Build_shr_record (q / 2) (Z.odd q) (orb b s)).
  { rewrite <- Z.div2_div.
    destruct q as [|[p|p|]|p]; try reflexivity; lia. }
  rewrite Hstep, Hloc. cbn [SpecFloat.shr_m SpecFloat.loc_of_shr_record].
  split; [reflexivity|].
  rewrite Zmod_odd in *. unfold location_of.
  destruct (Z.odd q); destruct (Z.eqb_spec r 0) as [Hr0|Hr0]; cbn [negb].
  - rewrite Hr0, Z.add_0_r.
    destruct (Z.eqb_spec (1 * 2 ^ n) 0); [lia|].
    f_equal. symmetry. apply Z.compare_eq_iff. lia.
  - destruct (Z.eqb_spec (1 * 2 ^ n + r) 0); [lia|].
    f_equal. symmetry. apply Z.compare_gt_iff. lia.
  - rewrite Hr0. reflexivity.
  - destruct (Z.eqb_spec (0 * 2 ^ n + r) 0); [lia|].
    f_equal. symmetry. apply Z.compare_lt_iff. lia.
Qed.

Lemma shifted_iter (M : Z) (p : positive) :
  0 <= M ->
  forall n R, 0 <= n -> shifted M n R ->
  shifted M (n + Zpos p) (SpecFloat.iter_pos SpecFloat.shr_1 p R).
Proof.
  intro HM. induction p as [p IH|p IH|]; intros n R Hn H;
    cbn [SpecFloat.iter_pos].
  - replace (n + Zpos p~1) with (n + 1 + Zpos p + Zpos p) by lia.
    apply IH; [lia|]. apply IH; [lia|]. now apply shifted_step.
  - replace (n + Zpos p~0) with (n + Zpos p + Zpos p) by lia.
    apply IH; [lia|]. now apply IH.
  - now apply shifted_step.
Qed.

Lemma round_location (M n : Z) :
  SpecFloat.round_nearest_even (M / 2 ^ n) (location_of (M mod 2 ^ n) (2 ^ n))
  = rne_shift M n.
Proof.
  unfold rne_shift, location_of. cbv zeta.
  destruct (Z.eqb_spec (M mod 2 ^ n) 0) as [E|E].
  - rewrite E. cbn [SpecFloat.round_nearest_even].
    destruct (Z.le_gt_cases 0 n) as [Hn|Hn].
    + assert (0 < 2 ^ n) by (apply Z.pow_pos_nonneg; lia).
      change (2 * 0) with 0.
      destruct (Z.compare_spec 0 (2 ^ n)); [lia | reflexivity | lia].
    + rewrite Z.pow_neg_r by lia. cbn. rewrite Z.div_0_r. reflexivity.
  - cbn [SpecFloat.round_nearest_even].
    destruct (2 * (M mod 2 ^ n) ?= 2 ^ n); reflexivity.
Qed.

(** One shift-and-round of [SpecFloat] is [rne_shift]. *)
Lemma shr_round (M : Z) (e : Z) (p : positive) :
  0 <= M ->
  let '(R, e') := SpecFloat.shr (SpecFloat.shr_record_of_loc M SpecFloat.loc_Exact)
                    e (Zpos p) in
  SpecFloat.round_nearest_even (SpecFloat.shr_m R)
    (SpecFloat.loc_of_shr_record R) = rne_shift M (Zpos p) /\
  e' = e + Zpos p.
Proof.
  intro HM. cbn [SpecFloat.shr SpecFloat.shr_record_of_loc].
  destruct (shifted_iter M p HM 0 (SpecFloat.Build_shr_record M false false))
    as [Hm Hl]; [lia | |].
  - split; cbn; [now rewrite Z.div_1_r | now rewrite Z.mod_1_r].
  - rewrite Z.add_0_l in Hm, Hl. rewrite Hm, Hl. split; [|reflexivity].
    apply round_location.
Qed.

Lemma rne_shift_scale (M a s : Z) :
  0 <= a -> 0 <= s -> rne_shift (M * 2 ^ a) (s + a) = rne_shift M s.
Proof.
  intros Ha Hs. unfold rne_shift.
  assert (Pa : 0 < 2 ^ a) by (apply Z.pow_pos_nonneg; lia).
  assert (Ps : 0 < 2 ^ s) by (apply Z.pow_pos_nonneg; lia).
  rewrite Z.pow_add_r by lia.
  rewrite Z.div_mul_cancel_r by lia.
  rewrite Z.mul_mod_distr_r by lia.
  set (q := M / 2 ^ s). set (r := M mod 2 ^ s).
  assert (C : (2 * (r * 2 ^ a) ?= 2 ^ s * 2 ^ a) = (2 * r ?= 2 ^ s)).
  { destruct (Z.compare_spec (2 * r) (2 ^ s));
      [apply Z.compare_eq_iff | apply Z.compare_lt_iff
       | apply Z.compare_gt_iff]; nia. }
  rewrite C. reflexivity.
Qed.

Lemma binary_round_aux_friction (s : bool) (mx : positive) (ex : Z) :
  SpecFloat.bounded 53 1024 mx ex = true ->
  Z_of_SF (SpecFloat.binary_round_aux 53 1024 s
             (Zpos (mx * 8917127262193582)) (ex + -53) SpecFloat.loc_Exact)
  = (if s then -1 else 1) * friction64_abs (Zpos mx * 2 ^ (ex + 1074)).
Proof.
  intro Hb. unfold SpecFloat.bounded, SpecFloat.canonical_mantissa in Hb.
  apply andb_true_iff in Hb. destruct Hb as [Hc He].
  apply Z.eqb_eq in Hc. apply Z.leb_le in He.
  unfold SpecFloat.fexp, SpecFloat.emin in Hc.
  rewrite digits2_pos_log2 in Hc.
  change (3 - 1024 - 53) with (-1074) in Hc.
  change (1024 - 53) with 971 in He.
  pose proof (Z.log2_nonneg (Zpos mx)) as Hl0.
  assert (Ha : 0 <= ex + 1074) by lia.
  assert (Hdx : Z.log2 (Zpos mx) < 53) by lia.
  assert (Hmx : Zpos mx < 2 ^ 53).
  { apply Z.log2_lt_pow2; lia. }
  set (a := ex + 1074) in *.
  set (M := Zpos (mx * 8917127262193582)).
  assert (EM : M = Zpos mx * FRICTION64) by reflexivity.
  assert (HM52 : 2 ^ 52 < M).
  { rewrite EM. unfold FRICTION64. lia. }
  assert (HM106 : M < 2 ^ 106).
  { rewrite EM. unfold FRICTION64.
    change (2 ^ 106) with (2 ^ 53 * 2 ^ 53). nia. }
  assert (HlM : 52 <= Z.log2 M < 106).
  { split; [apply Z.log2_le_pow2; lia | apply Z.log2_lt_pow2; lia]. }
  assert (Hmx1 : Z.log2 M = 52 -> ex = -1074).
  { intro E. assert (Zpos mx = 1).
    { destruct (Z.eq_dec (Zpos mx) 1) as [|N1]; [assumption|].
      assert (2 ^ 53 <= M) by (rewrite EM; unfold FRICTION64; lia).
      assert (53 <= Z.log2 M) by (apply Z.log2_le_pow2; lia). lia. }
    rewrite H in Hc. change (Z.log2 1) with 0 in Hc. lia. }
  (* the value computed by the model *)
  set (k := Zpos mx * 2 ^ a).
  assert (Pa : 0 < 2 ^ a) by (apply Z.pow_pos_nonneg; lia).
  assert (EN : k * FRICTION64 = M * 2 ^ a) by (unfold k; rewrite EM; ring).
  assert (HlN : Z.log2 (k * FRICTION64) = a + Z.log2 M).
  { rewrite EN. apply Z.log2_mul_pow2; lia. }
  set (j := Z.max (Z.log2 (k * FRICTION64) - 105) 0).
  set (n1 := 53 + j - a).
  assert (Hn1 : 0 < n1).
  { unfold n1, j. rewrite HlN.
    destruct (Z.eq_dec (Z.log2 M) 52) as [E|E].
    - specialize (Hmx1 E). lia.
    - lia. }
  assert (Hj : 0 <= j <= a) by (unfold j; rewrite HlN; lia).
  set (M' := rne_shift M n1).
  assert (Efr : friction64_abs k = M' * 2 ^ j).
  { unfold friction64_abs. cbv zeta. fold j. rewrite EN.
    replace (53 + j) with (n1 + a) by (unfold n1; lia).
    rewrite rne_shift_scale by lia. reflexivity. }
  assert (Pj : 0 < 2 ^ j) by (apply Z.pow_pos_nonneg; lia).
  assert (HM'pos : 1 <= M').
  { apply rne_shift_pos; [lia|].
    unfold n1, j. rewrite HlN.
    destruct (Z.max_spec (a + Z.log2 M - 105) 0) as [[_ E]|[_ E]]; rewrite E.
    - assert (2 ^ (53 + 0 - a) <= 2 ^ 53)
        by (apply Z.pow_le_mono_r; lia).
      change (2 ^ 53) with (2 * 2 ^ 52) in H. lia.
    - replace (53 + (a + Z.log2 M - 105) - a) with (Z.log2 M - 52) by lia.
      pose proof (Z.log2_spec M ltac:(lia)) as [L _].
      assert (Es : 2 ^ Z.log2 M = 2 ^ (Z.log2 M - 52) * 2 ^ 52)
        by (rewrite <- Z.pow_add_r by lia; f_equal; lia).
      assert (0 < 2 ^ (Z.log2 M - 52)) by (apply Z.pow_pos_nonneg; lia).
      change (2 ^ 52) with 4503599627370496 in Es. lia. }
  assert (HM'le : M' <= 2 ^ 53).
  { apply rne_shift_le; [lia | lia |].
    pose proof (Z.log2_spec M ltac:(lia)) as [_ U].
    rewrite <- Z.pow_add_r by lia.
    apply Z.lt_le_incl. eapply Z.lt_le_trans; [exact U|].
    apply Z.pow_le_mono_r; [lia|]. unfold n1, j. rewrite HlN. lia. }
  assert (Hle : M' * 2 ^ j <= k).
  { (* the rounded product does not exceed the factor *)
    assert (Esplit : 2 ^ a = 2 ^ (a - j) * 2 ^ j)
      by (rewrite <- Z.pow_add_r by lia; f_equal; lia).
    assert (Pd : 0 < 2 ^ (a - j)) by (apply Z.pow_pos_nonneg; lia).
    assert (R : M' <= Zpos mx * 2 ^ (a - j)).
    { apply rne_shift_le; [lia | lia |].
      assert (E53 : 2 ^ 53 = 2 ^ n1 * 2 ^ (a - j)).
      { rewrite <- Z.pow_add_r by lia. f_equal. unfold n1. lia. }
      assert (Pn : 0 < 2 ^ n1) by (apply Z.pow_pos_nonneg; lia).
      rewrite EM. unfold FRICTION64.
      change (2 ^ 53) with 9007199254740992 in E53. nia. }
    unfold k. rewrite Esplit. nia. }
  (* the computation of SpecFloat *)
  unfold SpecFloat.binary_round_aux, SpecFloat.shr_fexp.
  unfold SpecFloat.fexp at 1, SpecFloat.emin.
  change (3 - 1024 - 53) with (-1074).
  change (SpecFloat.Zdigits2 M) with (Zpos (SpecFloat.digits2_pos (mx * 8917127262193582))).
  rewrite digits2_pos_log2. fold M.
  replace (Z.max (Z.log2 M + 1 + (ex + -53) - 53) (-1074) - (ex + -53))
    with n1 by (unfold n1, j, a; rewrite HlN; unfold a; lia).
  destruct n1 as [|p|p] eqn:En1; try lia.
  pose proof (shr_round M (ex + -53) p ltac:(lia)) as Hsh.
  destruct (SpecFloat.shr _ _ (Zpos p)) as [R e'].
  destruct Hsh as [Hround ->]. fold M' in Hround. rewrite Hround.
  assert (Ee' : ex + -53 + Zpos p = j - 1074) by (unfold n1, a in En1; lia).
  rewrite Ee'.
  unfold SpecFloat.fexp, SpecFloat.emin. change (3 - 1024 - 53) with (-1074).
  destruct (Z.eq_dec M' (2 ^ 53)) as [E53|N53].
  - rewrite E53. change (SpecFloat.Zdigits2 (2 ^ 53)) with 54.
    replace (Z.max (54 + (j - 1074) - 53) (-1074) - (j - 1074)) with 1 by lia.
    cbn [SpecFloat.shr SpecFloat.shr_record_of_loc SpecFloat.iter_pos].
    change (SpecFloat.shr_m (SpecFloat.shr_1 _)) with (2 ^ 52).
    change (2 ^ 52) with (Zpos 4503599627370496).
    assert (Hjlt : j < a).
    { destruct (Z.eq_dec j a) as [Ej|]; [|lia].
      rewrite E53, Ej in Hle. unfold k in Hle. nia. }
    replace (j - 1074 + 1 <=? 1024 - 53) with true
      by (symmetry; apply Z.leb_le; unfold a in *; lia).
    cbn [Z_of_SF]. rewrite Efr, E53.
    replace (j - 1074 + 1 + 1074) with (j + 1) by lia.
    rewrite Z.pow_add_r by lia.
    change (2 ^ 53) with 9007199254740992. change (2 ^ 1) with 2.
    destruct s; lia.
  - assert (HM'lt : M' < 2 ^ 53) by lia.
    destruct M' as [|m'|m'] eqn:EM'; try lia.
    change (SpecFloat.Zdigits2 (Zpos m')) with (Zpos (SpecFloat.digits2_pos m')).
    rewrite digits2_pos_log2.
    assert (Z.log2 (Zpos m') < 53) by (apply Z.log2_lt_pow2; lia).
    destruct (Z.max (Z.log2 (Zpos m') + 1 + (j - 1074) - 53) (-1074)
              - (j - 1074)) as [|q|q] eqn:En2; try lia;
      cbn [SpecFloat.shr SpecFloat.shr_record_of_loc SpecFloat.shr_m];
      (replace (j - 1074 <=? 1024 - 53) with true
         by (symmetry; apply Z.leb_le; unfold a in *; lia));
      cbn [Z_of_SF]; rewrite Efr;
      replace (j - 1074 + 1074) with j by lia;
      destruct s; lia.
Qed.

Lemma friction64_signed (s : bool) (m : positive) (a : Z) :
  0 <= a ->
  friction64 ((if s then Zneg m else Zpos m) * 2 ^ a)
  = (if s then -1 else 1) * friction64_abs (Zpos m * 2 ^ a).
Proof.
  intro Ha. assert (P : 0 < 2 ^ a) by (apply Z.pow_pos_nonneg; lia).
  unfold friction64. destruct s.
  - rewrite Z.sgn_neg, Z.abs_neq by nia. do 2 f_equal. lia.
  - rewrite Z.sgn_pos, Z.abs_eq by nia. reflexivity.
Qed.

(** On every double, the model is the multiplication of the processor:
    the number of units of the product [x * 0.99] is [friction64] of the
    number of units of [x]. *)
Lemma friction64_correct (x : PrimFloat.float) :
  Z_of_float (friction_binary64 x) = friction64 (Z_of_float x).
Proof.
  unfold Z_of_float, friction_binary64. rewrite FloatAxioms.mul_spec.
  assert (EF : FloatOps.Prim2SF (float_of_Q FRICTION)
               = SpecFloat.S754_finite false 8917127262193582 (-53))
    by (vm_compute; reflexivity).
  rewrite EF.
  pose proof (FloatAxioms.Prim2SF_valid x) as V.
  destruct (FloatOps.Prim2SF x) as [s|s| |s m e];
    unfold FloatAxioms.SF64mul; cbn [SpecFloat.SFmul]; try reflexivity.
  cbn [SpecFloat.valid_binary] in V.
  assert (He : 0 <= e + 1074).
  { unfold SpecFloat.bounded, SpecFloat.canonical_mantissa in V.
    apply andb_true_iff in V. destruct V as [Hc _]. apply Z.eqb_eq in Hc.
    unfold SpecFloat.fexp, SpecFloat.emin in Hc.
    change (3 - FloatOps.emax - FloatOps.prec) with (-1074) in Hc. lia. }
  rewrite xorb_false_r.
  change (Z_of_SF (SpecFloat.S754_finite s m e))
    with ((if s then Zneg m else Zpos m) * 2 ^ (e + 1074)).
  rewrite friction64_signed by exact He.
  rewrite <- (binary_round_aux_friction s m e V). reflexivity.
Qed.

(** ** The velocity of the player under friction *)

Lemma finite64_representable (x : PrimFloat.float) :
  finite64 x = true -> representable (Z_of_float x).
Proof.
  unfold finite64, Z_of_float.
  pose proof (FloatAxioms.Prim2SF_valid x) as V.
  destruct (FloatOps.Prim2SF x) as [s|s| |s m e]; try discriminate; intros _.
  - exists 0, 0. split; [lia|]. split; reflexivity.
  - cbn [SpecFloat.valid_binary] in V.
    unfold SpecFloat.bounded, SpecFloat.canonical_mantissa in V.
    apply andb_true_iff in V. destruct V as [Hc He].
    apply Z.eqb_eq in Hc. apply Z.leb_le in He.
    unfold SpecFloat.fexp, SpecFloat.emin in Hc.
    rewrite digits2_pos_log2 in Hc.
    change (3 - FloatOps.emax - FloatOps.prec) with (-1074) in Hc.
    change (FloatOps.emax - FloatOps.prec) with 971 in He.
    change FloatOps.prec with 53 in Hc.
    pose proof (Z.log2_nonneg (Zpos m)).
    assert (Hm : Zpos m < 2 ^ 53) by (apply Z.log2_lt_pow2; lia).
    exists (if s then Zneg m else Zpos m), (e + 1074).
    split; [lia|]. split; [|reflexivity].
    destruct s; exact Hm.
Qed.

Lemma friction_binary64_finite (x : PrimFloat.float) :
  finite64 x = true -> finite64 (friction_binary64 x) = true.
Proof.
  intro F.
  pose proof (friction64_correct x) as E.
  unfold finite64, Z_of_float, friction_binary64 in *.
  rewrite FloatAxioms.mul_spec in *.
  assert (EF : FloatOps.Prim2SF (float_of_Q FRICTION)
               = SpecFloat.S754_finite false 8917127262193582 (-53))
    by (vm_compute; reflexivity).
  rewrite EF in *.
  pose proof (FloatAxioms.Prim2SF_valid x) as V.
  destruct (FloatOps.Prim2SF x) as [s|s| |s m e]; try discriminate.
  - reflexivity.
  - assert (He : 0 <= e + 1074).
    { cbn [SpecFloat.valid_binary] in V.
      unfold SpecFloat.bounded, SpecFloat.canonical_mantissa in V.
      apply andb_true_iff in V. destruct V as [Hc _]. apply Z.eqb_eq in Hc.
      unfold SpecFloat.fexp, SpecFloat.emin in Hc.
      change (3 - FloatOps.emax - FloatOps.prec) with (-1074) in Hc. lia. }
    change (Z_of_SF (SpecFloat.S754_finite s m e))
      with ((if s then Zneg m else Zpos m) * 2 ^ (e + 1074)) in E.
    rewrite friction64_signed in E by exact He.
    assert (P : 0 < 2 ^ (e + 1074)) by (apply Z.pow_pos_nonneg; lia).
    pose proof (friction64_abs_pos (Zpos m * 2 ^ (e + 1074)) ltac:(nia)) as Hp.
    destruct (FloatAxioms.SF64mul _ _) as [s'|s'| |s' m' e'];
      [reflexivity | | | reflexivity];
      cbn [Z_of_SF] in E; destruct s; lia.
Qed.

Lemma units_friction_tick (v : PrimFloat.float * PrimFloat.float) :
  units (friction_tick v) = friction_tick64 (units v).
Proof.
  unfold units, friction_tick, friction_tick64. cbn [fst snd].
  now rewrite !friction64_correct.
Qed.

(** The updates of the processor are the updates of the model. *)
Lemma units_coast (N : nat) (v : PrimFloat.float * PrimFloat.float) :
  units (coast_binary64 N v) = coast64 N (units v).
Proof.
  induction N as [|N IH]; [reflexivity|].
  unfold coast_binary64, coast64 in *. rewrite !Nat.iter_succ.
  now rewrite units_friction_tick, IH.
Qed.

Lemma coast_binary64_finite (N : nat)
    (v : PrimFloat.float * PrimFloat.float) :
  finite64 (fst v) = true -> finite64 (snd v) = true ->
  finite64 (fst (coast_binary64 N v)) = true /\
  finite64 (snd (coast_binary64 N v)) = true.
Proof.
  intros Hx Hy. induction N as [|N [IHx IHy]]; [now split|].
  unfold coast_binary64 in *. rewrite Nat.iter_succ.
  cbn [friction_tick fst snd].
  split; now apply friction_binary64_finite.
Qed.

(** C7 as stated does not hold in binary64: a ship drifting at
    [49 * 2^-1074] along x keeps exactly that velocity when it is
    multiplied by [FRICTION], so its speed neither decreases nor equals
    the initial speed times [0.99 ^ N]; and at velocity 3 the product is
    not [3 * 0.99]. *)
Lemma C7_exact_decay_refuted :
  let tiny := FloatOps.Z.ldexp (double 49 1) (-1074) in
  finite64 tiny = true /\
  Z_of_float tiny = 49 /\
  friction_binary64 tiny = tiny /\
  ~ (Q_of_float (friction_binary64 (double 3 1)) == 3 * FRICTION)%Q /\
  ~ (forall (v : PrimFloat.float * PrimFloat.float) (N : nat),
       finite64 (fst v) = true -> finite64 (snd v) = true ->
       speed_binary64 (coast_binary64 N v)
       = (speed_binary64 v * 0.99 ^ N)%R /\
       (speed_binary64 v <> 0%R ->
        (speed_binary64 (coast_binary64 (S N) v)
         < speed_binary64 (coast_binary64 N v))%R)).
Proof.
  cbv zeta.
  split; [vm_compute; reflexivity|].
  split; [vm_compute; reflexivity|].
  split; [vm_compute; reflexivity|].
  split; [vm_compute; discriminate|].
  intro H.
  set (v := (FloatOps.Z.ldexp (double 49 1) (-1074), double 0 1)).
  destruct (H v 0%nat) as [_ Hlt]; try (vm_compute; reflexivity).
  assert (E : coast_binary64 1 v = coast_binary64 0 v)
    by (vm_compute; reflexivity).
  rewrite E in Hlt.
  assert (Hnz : speed_binary64 v <> 0%R).
  { intro Hz. apply speed64_zero in Hz. destruct Hz as [Hz _].
    vm_compute in Hz. discriminate Hz. }
  specialize (Hlt Hnz). lra.
Qed.

(** C7, amended: in binary64, after any number of updates without
    thrust both velocity components are finite doubles with the signs
    they started with; the speed never grows from one update to the
    next and never exceeds the initial speed; a ship whose initial speed
    is not zero never comes to rest; and every update yields, on each
    component, the exact product by the double 0.99 correctly rounded
    (within half a unit of [2^-1074] or a relative [2^-53]). *)
Theorem C7_friction_decay (v : PrimFloat.float * PrimFloat.float)
    (N : nat) :
  finite64 (fst v) = true -> finite64 (snd v) = true ->
  let u := coast_binary64 N v in
  let u' := coast_binary64 (S N) v in
  (finite64 (fst u) = true /\ finite64 (snd u) = true) /\
  (Z.sgn (Z_of_float (fst u)) = Z.sgn (Z_of_float (fst v)) /\
   Z.sgn (Z_of_float (snd u)) = Z.sgn (Z_of_float (snd v))) /\
  (speed_binary64 u' <= speed_binary64 u)%R /\
  (speed_binary64 u <= speed_binary64 v)%R /\
  (speed_binary64 v <> 0%R -> speed_binary64 u <> 0%R) /\
  2 * Z.abs (Z_of_float (fst u') * 2 ^ 53 - Z_of_float (fst u) * FRICTION64)
    <= Z.max (2 ^ 53) (Z.abs (Z_of_float (fst u)) * FRICTION64 / 2 ^ 52) /\
  2 * Z.abs (Z_of_float (snd u') * 2 ^ 53 - Z_of_float (snd u) * FRICTION64)
    <= Z.max (2 ^ 53) (Z.abs (Z_of_float (snd u)) * FRICTION64 / 2 ^ 52).
Proof.
  intros Hx Hy u u'.
  split; [exact (coast_binary64_finite N v Hx Hy)|].
  pose proof (finite64_representable _ Hx) as Rx0.
  pose proof (finite64_representable _ Hy) as Ry0.
  destruct (coast64_step N (units v) Rx0 Ry0)
    as (Rx & Ry & Ax & Ay & Sx & Sy).
  rewrite <- units_coast in Rx, Ry, Ax, Ay, Sx, Sy. fold u in Rx, Ry, Ax, Ay, Sx, Sy.
  destruct (friction64_step _ Rx) as (_ & Ax' & _).
  destruct (friction64_step _ Ry) as (_ & Ay' & _).
  assert (Eu' : units u' = friction_tick64 (units u)).
  { unfold u', u. rewrite !units_coast. reflexivity. }
  split; [split; [exact Sx | exact Sy]|].
  unfold speed_binary64.
  split; [rewrite Eu'; apply speed64_le; assumption|].
  split; [apply speed64_le; assumption|].
  split.
  - intros Hv Hu. apply Hv. apply speed64_zero. apply speed64_zero in Hu.
    destruct Hu as [Ex Ey].
    split; apply Z.sgn_null_iff; [rewrite <- Sx, Ex | rewrite <- Sy, Ey];
      reflexivity.
  - assert (Ex : Z_of_float (fst u') = friction64 (Z_of_float (fst u)))
      by (exact (f_equal fst Eu')).
    assert (Ey : Z_of_float (snd u') = friction64 (Z_of_float (snd u)))
      by (exact (f_equal snd Eu')).
    rewrite Ex, Ey. split; apply friction64_near.
Qed.

(** A ship coasting from the velocity (3, -0.7) for 100 updates. *)
Lemma C7_friction_decay_witness :
  let v := (double 3 1, double (-7) 10) in
  finite64 (fst v) = true /\ finite64 (snd v) = true /\
  (speed_binary64 (coast_binary64 101 v)
   <= speed_binary64 (coast_binary64 100 v))%R /\
  speed_binary64 (coast_binary64 100 v) <> 0%R.
Proof.
  intro v.
  assert (Hx : finite64 (fst v) = true) by (vm_compute; reflexivity).
  assert (Hy : finite64 (snd v) = true) by (vm_compute; reflexivity).
  pose proof (C7_friction_decay v 100 Hx Hy) as H. cbv zeta in H.
  destruct H as (_ & _ & Hle & _ & Hnz & _).
  split; [exact Hx|]. split; [exact Hy|]. split; [exact Hle|].
  apply Hnz. intro Hz. apply speed64_zero in Hz.
  destruct Hz as [Hz _]. vm_compute in Hz. discriminate.
Defined.

Close Scope Z_scope.

(** ** The score *)

(** A frame of the running game is the collision detection run on the
    state in which every entity has moved and the faded particles are
    gone. *)
Lemma animate_running (h : Host) (s : State) :
  isGameOver s = false ->
  animate h s = checkCollisions h (frameStart h s).
Proof.
  intro G. unfold animate, frameStart. rewrite G. cbn [negb]. cbv zeta.
  rewrite particleLoop_prefix by lia.
  rewrite firstn_all, skipn_all, app_nil_r. reflexivity.
Qed.

(** Collision detection is the first pass, which leaves the score alone,
    followed by a sequence of resolved projectile hits that leaves no
    projectile on an asteroid. *)
Lemma checkCollisions_hits (h : Host) (f s' : State) :
  checkCollisions h f = Some s' ->
  exists s1 m,
    playerLoop h (length (asteroids f)) f = Some s1 /\
    Player.score (player s1) = Player.score (player f) /\
    projectileLoop h (length (projectiles s1)) s1 = Some s' /\
    hits h s1 m s' /\
    (length (projectiles s') + m = length (projectiles s1))%nat /\
    all_miss h (projectiles s') (asteroids s') /\
    Player.score (player s')
      = (Player.score (player f) + 10 * Z.of_nat m)%Z.
Proof.
  unfold checkCollisions. intro H.
  destruct (playerLoop_spec h (length (asteroids f)) f (Nat.le_refl _))
    as (ps & E & _). cbv zeta in E. rewrite E in H.
  match type of H with
  | context [projectileLoop h _ ?s1] =>
      destruct (projectileLoop_hits h (length (projectiles s1)) s1
                  (Nat.le_refl _)) as (s2 & m & E' & Hh & Hc);
        [rewrite skipn_all; intros q c [] |];
      exists s1, m
  end.
  rewrite E' in H. injection H as <-.
  destruct (hits_scored h _ _ _ Hh) as (P & _ & _ & _ & _ & _ & _ & N).
  split; [exact E|]. split; [reflexivity|]. split; [exact E'|].
  split; [exact Hh|]. split; [exact N|]. split; [exact Hc|].
  rewrite P. reflexivity.
Qed.

(** C10: in every reachable state the score is a non-negative multiple
    of 10.  It is 0 when the script has run.  An animation frame of the
    running game moves the entities, runs the player pass, which leaves
    the score alone, and then resolves [m] projectile hits, each on a
    projectile and an asteroid that pass the distance test, until no
    projectile is on an asteroid: it removes [m] projectiles and adds
    exactly [10 * m].  The countdown firing that finds 1 restarts the
    game with score 0.  Nothing else changes the score: not a frame
    while the game is over, nor another countdown firing, nor a key, a
    movement tick or a spawn tick. *)
Theorem C10_score_invariant (h : Host) (s : State) :
  reachable h s ->
  ((0 <= Player.score (player s))%Z /\ (10 | Player.score (player s))%Z) /\
  (forall s0, boot h = Some s0 -> Player.score (player s0) = 0%Z) /\
  (forall s',
     handle h EFrame s = Some s' -> isGameOver s = false ->
     let f := frameStart h (with_pendingFrames (pred (pendingFrames s)) s) in
     exists s1 m,
       playerLoop h (length (asteroids f)) f = Some s1 /\
       Player.score (player s1) = Player.score (player s) /\
       projectileLoop h (length (projectiles s1)) s1 = Some s' /\
       hits h s1 m s' /\
       (length (projectiles s') + m = length (projectiles s1))%nat /\
       all_miss h (projectiles s') (asteroids s') /\
       Player.score (player s')
         = (Player.score (player s) + 10 * Z.of_nat m)%Z) /\
  (forall s',
     handle h EFrame s = Some s' -> isGameOver s = true -> s' =
     with_pendingFrames (pred (pendingFrames s)) s) /\
  (forall id s',
     handle h (ECountdown id) s = Some s' ->
     (nth_error (countdowns s) id = Some (Some 1%Z) ->
      Player.score (player s') = 0%Z /\ isGameOver s' = false) /\
     (nth_error (countdowns s) id <> Some (Some 1%Z) ->
      Player.score (player s') = Player.score (player s))) /\
  (forall e s',
     handle h e s = Some s' ->
     e <> EFrame -> (forall id, e <> ECountdown id) ->
     Player.score (player s') = Player.score (player s)).
Proof.
  intro Hr.
  split.
  { destruct (reachable_score h s Hr) as [k ->]. split; [lia|].
    exists (Z.of_nat k). lia. }
  split.
  { intros s0 E. rewrite boot_eq in E. injection E as <-. reflexivity. }
  split.
  { intros s' H G f. cbn [handle] in H.
    rewrite animate_running in H by exact G. fold f in H.
    destruct (checkCollisions_hits h f s' H)
      as (s1 & m & E1 & P1 & E2 & Hh & N & Hc & P2).
    exists s1, m. repeat split; assumption. }
  split.
  { intros s' H G. cbn [handle] in H. unfold animate in H.
    cbn [isGameOver with_pendingFrames] in H. rewrite G in H.
    cbn [negb] in H. now injection H as <-. }
  split.
  { intros id s' H. cbn [handle] in H.
    destruct (countdownTick_cases h id s)
      as [(c & Hc & Hne & E) | [(Hc & E) | (En & E)]];
      rewrite E in H; injection H as <-.
    - split; [intro H1; congruence | reflexivity].
    - split; [split; reflexivity | intro H1; congruence].
    - split; [|reflexivity].
      intro H1. unfold enabled in En. rewrite H1 in En. discriminate. }
  intros e s' H Hf Hcd.
  destruct (handle_frame_rel h e s s' Hcd H) as (m & n & R & Hm).
  destruct (Hm Hf) as [-> _]. destruct R as [R _]. rewrite R. cbn. lia.
Qed.

(** On the arcade canvas the ship fires at an asteroid that drifts
    towards it; the projectile reaches the asteroid in the fifth frame
    after the shot, and that frame resolves exactly one hit: the score
    goes from 0 to 10. *)
Lemma C10_score_invariant_witness :
  let s := the arcade
             (run arcade [ESpawn; EFrame; EFrame; EKeyDown Space;
                          EFrame; EFrame; EFrame; EFrame]
                  (the arcade (boot arcade))) in
  reachable arcade s /\
  Player.score (player s) = 0%Z /\
  exists s' s1,
    handle arcade EFrame s = Some s' /\
    hits arcade s1 1 s' /\
    Player.score (player s') = 10%Z.
Proof.
  intro s.
  assert (Hr : reachable arcade s).
  { apply (run_reachable arcade
             [ESpawn; EFrame; EFrame; EKeyDown Space;
              EFrame; EFrame; EFrame; EFrame]
             (the arcade (boot arcade))).
    - apply reach_boot. reflexivity.
    - vm_compute. reflexivity. }
  split; [exact Hr|]. split; [vm_compute; reflexivity|].
  destruct (C10_score_invariant arcade s Hr) as (_ & _ & Hframe & _).
  destruct (Hframe (the arcade (handle arcade EFrame s)))
    as (s1 & m & _ & _ & _ & Hh & _ & _ & P).
  - vm_compute. reflexivity.
  - vm_compute. reflexivity.
  - assert (S10 : Player.score (player (the arcade (handle arcade EFrame s)))
                  = 10%Z) by (vm_compute; reflexivity).
    assert (S0 : Player.score (player s) = 0%Z) by (vm_compute; reflexivity).
    rewrite S10, S0 in P.
    assert (m = 1%nat) by lia. subst m.
    exists (the arcade (handle arcade EFrame s)), s1.
    split; [vm_compute; reflexivity|]. split; [exact Hh | exact S10].
Defined.
